(** * PL/pgSQL formatter: macro expander, tokenizer and two-pass parser

    A shallow embedding of [src/parser.cpp] and the verification of its
    specification.  The three classes of the program ([Preprocessor],
    [Lexer], [Parser]) become three modules; their member functions keep
    their names.  Mutable members become fields of a state record that is
    threaded through the functions; every [while] loop of the source is an
    instance of the fuelled combinator [while] below, so that a loop that
    does not finish is visible as [None]. *)

From Stdlib Require Import ZArith Ascii DecimalString.
From Stdlib Require String.
From stdpp Require Import base option list gmap strings.

Local Open Scope Z_scope.

(** ** Loops *)

(** [while fuel cond body s] runs [while (cond) body] from state [s] for at
    most [fuel] evaluations of the condition.  [None] means that the fuel was
    exhausted before the condition became false, or that the body itself ran
    out of fuel. *)
Fixpoint while {S : Type} (fuel : nat) (cond : S → bool) (body : S → option S)
    (s : S) : option S :=
  match fuel with
  | O => None
  | S fuel' =>
      if cond s then body s ≫= while fuel' cond body else Some s
  end.

(** ** The parts of the C and C++ libraries the program uses *)

(** *** <cctype>, in the "C" locale.  Bytes above 127 belong to no class. *)

Definition code (c : ascii) : N := N_of_ascii c.

Definition in_range (lo hi : N) (c : ascii) : bool :=
  ((lo <=? code c) && (code c <=? hi))%N.

Definition isspace (c : ascii) : bool :=
  in_range 9 13 c || in_range 32 32 c.

Definition isdigit (c : ascii) : bool := in_range 48 57 c.

Definition isupper (c : ascii) : bool := in_range 65 90 c.

Definition islower (c : ascii) : bool := in_range 97 122 c.

Definition isalpha (c : ascii) : bool := isupper c || islower c.

Definition isalnum (c : ascii) : bool := isalpha c || isdigit c.

Definition ispunct (c : ascii) : bool :=
  in_range 33 47 c || in_range 58 64 c || in_range 91 96 c || in_range 123 126 c.

Definition tolower (c : ascii) : ascii :=
  if isupper c then ascii_of_N (code c + 32) else c.

Definition ascii_eqb (a b : ascii) : bool := bool_decide (a = b).

Definition newline : ascii := "010"%char.
Definition nul : ascii := "000"%char.
Definition dquote : ascii := "034"%char.
Definition underscore : ascii := "_"%char.

(** *** int

    An [int] has 32 bits.  The program adds one to an [int] in one place,
    the line counter of the lexer; where the sum passes [INT_MAX] the
    counter goes on from [INT_MIN], as two's-complement addition does. *)

Definition INT_MAX : Z := 2147483647.

Definition wrap (z : Z) : Z := (z + 2147483648) mod 4294967296 - 2147483648.

(** *** <string> *)

(** The text ["\n"]. *)
Definition endl : string := String newline "".

(** [std::string(1, c)] *)
Definition string1 (c : ascii) : string := String c "".

(** [std::transform(s.begin(), s.end(), s.begin(), f)] *)
Fixpoint transform (f : ascii → ascii) (s : string) : string :=
  match s with
  | "" => ""
  | String c s' => String (f c) (transform f s')
  end.

(** [s.find(key, pos)]: the first index at or after [pos] where [key] occurs
    in [s]; [None] is [std::string::npos]. *)
Definition find (s key : string) (pos : nat) : option nat :=
  String.index pos key s.

(** [s.replace(pos, len, str)] for [pos + len <= s.length()], which is how
    the program calls it (on a position returned by [find]). *)
Definition replace (s : string) (pos len : nat) (str : string) : string :=
  String.substring 0 pos s +:+ str +:+
  String.substring (pos + len) (String.length s - (pos + len)) s.

(** [std::to_string] on an [int] or a [size_t]. *)
Definition to_string (z : Z) : string := NilZero.string_of_int (Z.to_int z).

(** *** <sstream> and <regex> *)

(** The lines that repeated [std::getline(stream, line)] calls read from a
    stream holding [s], until the call fails: the pieces between newline
    characters, without a last empty piece. *)
Fixpoint getlines (s : string) : list string :=
  match s with
  | "" => []
  | String c s' =>
      if ascii_eqb c newline then "" :: getlines s'
      else match getlines s' with
           | [] => [string1 c]
           | l :: ls => String c l :: ls
           end
  end.

(** Leading whitespace is dropped, as by the [std::ws] manipulator. *)
Fixpoint skipws (s : string) : string :=
  match s with
  | "" => ""
  | String c s' => if isspace c then skipws s' else s
  end.

(** The maximal run of non-space characters at the head of [s], and what
    follows it. *)
Fixpoint word (s : string) : string * string :=
  match s with
  | "" => ("", "")
  | String c s' =>
      if isspace c then ("", s)
      else let '(w, r) := word s' in (String c w, r)
  end.

(** [stream >> w] on a stream holding [s]: skip whitespace, then read a
    word.  The word is empty exactly when the extraction fails. *)
Definition extract (s : string) : string * string := word (skipws s).

(** [std::regex_replace(s, std::regex("^\\s+|\\s+$"), "")] *)
Definition trim (s : string) : string :=
  String.rev (skipws (String.rev (skipws s))).

Module Preprocessor.

Section WithIterationOrder.

(** [preprocessorMap] is a [std::unordered_map]; the order in which a
    range-[for] visits its entries is not specified.  [entries] stands for
    that order. *)
Variable entries : gmap string string → list (string * string).

(** The inner loop of [process]:
<<
    size_t pos = 0;
    while ((pos = line.find(entry.first, pos)) != std::string::npos) {
        line.replace(pos, entry.first.length(), entry.second);
        pos += entry.second.length();
    }
>>
    The loop state is [(line, pos)]. *)
Fixpoint replaceAll (fuel : nat) (key value : string) (line : string) (pos : nat)
    : option string :=
  match fuel with
  | O => None
  | S fuel' =>
      match find line key pos with
      | None => Some line
      | Some pos' =>
          replaceAll fuel' key value
            (replace line pos' (String.length key) value)
            (pos' + String.length value)
      end
  end.

(** [for (const auto &entry : preprocessorMap) { ... }] *)
Fixpoint expand (fuel : nat) (es : list (string * string)) (line : string)
    : option string :=
  match es with
  | [] => Some line
  | (key, value) :: es' =>
      replaceAll fuel key value line 0%nat ≫= expand fuel es'
  end.

(** The directive branch:
<<
    defineStream >> directive >> key;
    std::getline(defineStream, value);
    value = std::regex_replace(value, std::regex("^\\s+|\\s+$"), "");
>>
    When an extraction reaches the end of the line the later reads fail and
    leave their target empty, which is also what reading the empty
    remainder gives. *)
Definition define (line : string) : string * string :=
  let '(directive, r1) := extract line in
  let '(key, r2) := extract r1 in
  (key, trim r2).

(** [line.find("#define") == 0] *)
Definition isDefine (line : string) : bool := String.prefix "#define" line.

(** The body of [while (std::getline(stream, line))], over the lines still
    to be read; [out] is [processedCode]. *)
Fixpoint processLines (fuel : nat) (lines : list string)
    (preprocessorMap : gmap string string) (out : string)
    : option (string * gmap string string) :=
  match lines with
  | [] => Some (out, preprocessorMap)
  | line :: lines' =>
      if isDefine line then
        let '(key, value) := define line in
        processLines fuel lines' (<[key := value]> preprocessorMap) out
      else
        line' ← expand fuel (entries preprocessorMap) line;
        processLines fuel lines' preprocessorMap (out +:+ line' +:+ endl)
  end.

(** [Preprocessor::process], with the global [preprocessorMap] passed in and
    returned. *)
Definition process (fuel : nat) (input : string)
    (preprocessorMap : gmap string string)
    : option (string * gmap string string) :=
  processLines fuel (getlines input) preprocessorMap "".

End WithIterationOrder.

End Preprocessor.

(** ** Tokens and signatures *)

Inductive TokenType :=
  | KEYWORD
  | IDENTIFIER
  | LITERAL
  | OPERATOR
  | SYMBOL
  | COMMENT
  | STRING_LITERAL
  | END_OF_FILE.

#[global] Instance TokenType_eq_dec : EqDecision TokenType.
Proof. solve_decision. Defined.

Module Token.
Record Token := mk { type : TokenType; value : string; line : Z }.
End Token.
Abbreviation Token := Token.Token.

#[global] Instance Token_eq_dec : EqDecision Token.
Proof. solve_decision. Defined.

Module FunctionSignature.
Record FunctionSignature :=
  mk { name : string; argumentTypes : list string; line : Z }.
End FunctionSignature.
Abbreviation FunctionSignature := FunctionSignature.FunctionSignature.

Definition keywords : gset string :=
  {[ "select"; "insert"; "update"; "delete"; "create"; "table"; "begin";
     "end"; "declare"; "do"; "values" ]}.

Module Lexer.

(** The members of the class.  [line] is an [int]; it is only ever
    incremented, once per newline of the input. *)
Record Lexer := mk { input : string; position : nat; line : Z }.

(** [Lexer(const std::string &input)] *)
Definition new (input : string) : Lexer := mk input 0 1.

Definition peek (l : Lexer) : ascii :=
  default nul (String.get (position l) (input l)).

Definition advance (l : Lexer) : ascii * Lexer :=
  let current := peek l in
  (current,
   mk (input l) (S (position l))
      (if ascii_eqb current newline then wrap (line l + 1) else line l)).

Definition skipWhitespace (fuel : nat) (l : Lexer) : option Lexer :=
  while fuel (λ l, isspace (peek l)) (λ l, Some (advance l).2) l.

(** [value += advance()], the body of the three scanning loops; the loop
    state is the local [value] and the lexer. *)
Definition take1 (s : string * Lexer) : option (string * Lexer) :=
  let '(c, l) := advance s.2 in Some (s.1 +:+ string1 c, l).

Definition handleIdentifierOrKeyword (fuel : nat) (l : Lexer)
    : option (Token * Lexer) :=
  '(value, l) ← while fuel
      (λ s, isalnum (peek s.2) || ascii_eqb (peek s.2) underscore) take1 ("", l);
  let lowercaseValue := transform tolower value in
  if bool_decide (lowercaseValue ∈ keywords)
  then Some (Token.mk KEYWORD value (line l), l)
  else Some (Token.mk IDENTIFIER value (line l), l).

Definition handleLiteral (fuel : nat) (l : Lexer) : option (Token * Lexer) :=
  '(value, l) ← while fuel (λ s, isdigit (peek s.2)) take1 ("", l);
  Some (Token.mk LITERAL value (line l), l).

Definition handleSymbol (l : Lexer) : Token * Lexer :=
  let '(c, l) := advance l in
  (Token.mk SYMBOL (string1 c) (line l), l).

Definition handleStringLiteral (fuel : nat) (l : Lexer)
    : option (Token * Lexer) :=
  let l := (advance l).2 in
  '(value, l) ← while fuel
      (λ s, negb (ascii_eqb (peek s.2) dquote) && negb (ascii_eqb (peek s.2) nul))
      take1 ("", l);
  let l := if ascii_eqb (peek l) dquote then (advance l).2 else l in
  Some (Token.mk STRING_LITERAL value (line l), l).

(** One turn of the loop of [tokenize]; the loop state is the local
    [tokens] and the lexer. *)
Definition tokenizeStep (fuel : nat) (s : list Token * Lexer)
    : option (list Token * Lexer) :=
  let tokens := s.1 in
  l ← skipWhitespace fuel s.2;
  let current := peek l in
  if isalpha current || ascii_eqb current underscore then
    '(t, l) ← handleIdentifierOrKeyword fuel l; Some (tokens ++ [t], l)
  else if isdigit current then
    '(t, l) ← handleLiteral fuel l; Some (tokens ++ [t], l)
  else if ascii_eqb current dquote then
    '(t, l) ← handleStringLiteral fuel l; Some (tokens ++ [t], l)
  else if ispunct current then
    let '(t, l) := handleSymbol l in Some (tokens ++ [t], l)
  else
    Some (tokens, (advance l).2).

Definition tokenize (fuel : nat) (l : Lexer) : option (list Token) :=
  '(tokens, l) ← while fuel
      (λ s, bool_decide (position s.2 < String.length (input s.2))%nat)
      (tokenizeStep fuel) ([], l);
  Some (tokens ++ [Token.mk END_OF_FILE "" (line l)]).

End Lexer.

Module Parser.

Record Parser := mk {
  tokens : list Token;
  position : nat;
  indentLevel : Z;
  formattedCode : string;
  functionTable : gmap string FunctionSignature
}.

(** [Parser(const std::vector<Token> &tokens)] *)
Definition new (tokens : list Token) : Parser := mk tokens 0 0 "" ∅.

Definition set_position (n : nat) (p : Parser) : Parser :=
  mk (tokens p) n (indentLevel p) (formattedCode p) (functionTable p).

Definition set_functionTable (t : gmap string FunctionSignature) (p : Parser)
    : Parser :=
  mk (tokens p) (position p) (indentLevel p) (formattedCode p) t.

(** [Token{END_OF_FILE, "", -1}] *)
Definition past_end : Token := Token.mk END_OF_FILE "" (-1).

Definition peek (p : Parser) : Token :=
  default past_end (tokens p !! position p).

Definition advance (p : Parser) : Token * Parser :=
  match tokens p !! position p with
  | Some t => (t, set_position (S (position p)) p)
  | None => (past_end, p)
  end.

(** The [for] loop of [writeIndentedLine]: four spaces per level. *)
Fixpoint indentation (n : nat) : string :=
  match n with
  | O => ""
  | S n' => "    " +:+ indentation n'
  end.

Definition writeIndentedLine (line : string) (p : Parser) : Parser :=
  mk (tokens p) (position p) (indentLevel p)
     (formattedCode p +:+ indentation (Z.to_nat (indentLevel p)) +:+ line +:+ endl)
     (functionTable p).

Definition isArgument (t : Token) : bool :=
  bool_decide (Token.type t = LITERAL) || bool_decide (Token.type t = IDENTIFIER)
  || bool_decide (Token.type t = STRING_LITERAL).

(** The argument loop, which [detectFunctionCall] and
    [validateFunctionCall] both contain word for word:
<<
    while (peek().value != ")" && peek().type != END_OF_FILE) {
        if (peek().type == LITERAL || peek().type == IDENTIFIER
            || peek().type == STRING_LITERAL) {
            arguments.push_back(peek().value);
        }
        advance();
        if (peek().value == ",") advance(); // Skip commas
    }
>>
    The loop state is the local [arguments] and the parser. *)
Definition argumentsCond (s : list string * Parser) : bool :=
  negb (bool_decide (Token.value (peek s.2) = ")"))
  && negb (bool_decide (Token.type (peek s.2) = END_OF_FILE)).

Definition argumentsBody (s : list string * Parser)
    : option (list string * Parser) :=
  let '(arguments, p) := s in
  let arguments :=
    if isArgument (peek p) then arguments ++ [Token.value (peek p)]
    else arguments in
  let p := (advance p).2 in
  let p := if bool_decide (Token.value (peek p) = ",") then (advance p).2 else p in
  Some (arguments, p).

Definition collectArguments (fuel : nat) (p : Parser)
    : option (list string * Parser) :=
  while fuel argumentsCond argumentsBody ([], p).

(** First pass: detect functions. *)
Definition detectFunctionCall (fuel : nat) (p : Parser) : option Parser :=
  let '(functionName, p) := advance p in
  if bool_decide (Token.value (peek p) = "(") then
    let p := (advance p).2 in
    '(arguments, p) ← collectArguments fuel p;
    let p := if bool_decide (Token.value (peek p) = ")") then (advance p).2 else p in
    match functionTable p !! Token.value functionName with
    | None =>
        Some (set_functionTable
                (<[Token.value functionName :=
                     FunctionSignature.mk (Token.value functionName) arguments
                       (Token.line functionName)]> (functionTable p)) p)
    | Some _ => Some p
    end
  else Some p.

Definition size (arguments : list string) : Z := Z.of_nat (length arguments).

(** Second pass: validate functions. *)
Definition validateFunctionCall (fuel : nat) (p : Parser) : option Parser :=
  let '(functionName, p) := advance p in
  let p := writeIndentedLine (Token.value functionName +:+ " (") p in
  p ← (if bool_decide (Token.value (peek p) = "(") then
         let p := (advance p).2 in
         '(arguments, p) ← collectArguments fuel p;
         let p :=
           if bool_decide (Token.value (peek p) = ")") then (advance p).2
           else writeIndentedLine
                  "-- Error: Missing closing parenthesis for function call." p in
         match functionTable p !! Token.value functionName with
         | Some signature =>
             if bool_decide (size (FunctionSignature.argumentTypes signature)
                             ≠ size arguments)
             then Some (writeIndentedLine
                    ("-- Error: Function '" +:+ Token.value functionName +:+
                     "' at line " +:+
                     to_string (FunctionSignature.line signature) +:+
                     " expects " +:+
                     to_string (size (FunctionSignature.argumentTypes signature)) +:+
                     " arguments, but " +:+
                     to_string (size arguments) +:+ " were provided.") p)
             else Some p
         | None =>
             Some (writeIndentedLine
                    ("-- Error: Unknown function '" +:+ Token.value functionName +:+
                     "' at line " +:+ to_string (Token.line functionName) +:+ ".") p)
         end
       else Some p);
  Some (writeIndentedLine ");" p).

Definition parseStatement (fuel : nat) (isFirstPass : bool) (p : Parser)
    : option Parser :=
  let token := peek p in
  if bool_decide (Token.type token = IDENTIFIER)
     && negb (bool_decide (Token.value (peek p) = "(")) then
    if isFirstPass then detectFunctionCall fuel p
    else validateFunctionCall fuel p
  else if bool_decide (Token.type token = KEYWORD) then
    let p := (advance p).2 in
    Some (writeIndentedLine (Token.value token) p)
  else
    let p := (advance p).2 in
    Some (writeIndentedLine (Token.value token +:+ ";") p).

(** [while (peek().type != END_OF_FILE)] *)
Definition more (p : Parser) : bool :=
  negb (bool_decide (Token.type (peek p) = END_OF_FILE)).

Definition firstPass (fuel : nat) (p : Parser) : option Parser :=
  while fuel more (parseStatement fuel true) p.

Definition secondPass (fuel : nat) (p : Parser) : option (string * Parser) :=
  let p := set_position 0 p in
  p ← while fuel more (parseStatement fuel false) p;
  Some (formattedCode p, p).

End Parser.

(** ** The program *)

(** [main] between [readFile] and [writeFile]: from the text of the input
    file to the text written to the output file.  [preprocessorMap] is
    empty when the program starts. *)
Definition main (entries : gmap string string → list (string * string))
    (fuel : nat) (sourceCode : string) : option string :=
  '(preprocessedCode, _) ← Preprocessor.process entries fuel sourceCode ∅;
  tokens ← Lexer.tokenize fuel (Lexer.new preprocessedCode);
  parser ← Parser.firstPass fuel (Parser.new tokens);
  '(formattedCode, _) ← Parser.secondPass fuel parser;
  Some formattedCode.

(** Text made of the given lines, each ended by a newline. *)
Fixpoint unlines (ls : list string) : string :=
  match ls with
  | [] => ""
  | l :: ls' => l +:+ endl +:+ unlines ls'
  end.

(** The quoted form of [s], as it stands in a source text. *)
Definition quoted (s : string) : string := String dquote (s +:+ String dquote "").

(** An iteration order visits every entry of the table exactly once. *)
Definition iteration_order (entries : gmap string string → list (string * string))
    : Prop :=
  ∀ m, entries m ≡ₚ map_to_list m.

(** ** Vocabulary of the specification *)

(** *** Texts and lines *)

(** The characters of a string, in order. *)
Definition chars (s : string) : list ascii := String.list_ascii_of_string s.

(** A text without a newline character. *)
Definition no_newline (s : string) : Prop := newline ∉ chars s.

(** The number of lines of a text, as [std::getline] reads them. *)
Definition line_count (s : string) : nat := length (getlines s).

(** No [#define] line of the text has an empty name. *)
Definition named_directives (input : string) : bool :=
  forallb (λ l, negb (Preprocessor.isDefine l)
                || negb (bool_decide ((Preprocessor.define l).1 = "")))
          (getlines input).

(** The lines of the text that are not [#define] directives. *)
Definition code_lines (input : string) : list string :=
  filter (λ l, Preprocessor.isDefine l = false) (getlines input).

(** The table holds no empty name and no replacement text with a newline. *)
Definition sound_table (m : gmap string string) : Prop :=
  ∀ k v, m !! k = Some v → k ≠ "" ∧ no_newline v.

(** *** Statements, call sites and diagnostics *)

(** What the cursor of a parser reads: the token sequence and the position
    in it. *)
Definition cursor (p : Parser.Parser) : list Token * nat :=
  (Parser.tokens p, Parser.position p).

(** The state of a pass after [k] statements, each begun before
    [END_OF_FILE]. *)
Fixpoint statements (fuel : nat) (isFirstPass : bool) (k : nat) (p : Parser.Parser)
    : option Parser.Parser :=
  match k with
  | O => Some p
  | S k' =>
      p' ← statements fuel isFirstPass k' p;
      if Parser.more p' then Parser.parseStatement fuel isFirstPass p' else None
  end.

(** The parser stands on an identifier [name] that the [(] symbol follows:
    the statement it is about to process is a call of [name]. *)
Definition callSite (p : Parser.Parser) (name : string) : Prop :=
  Token.type (Parser.peek p) = IDENTIFIER ∧
  Token.value (Parser.peek p) = name ∧
  name ≠ "(" ∧
  Token.value (Parser.peek (Parser.advance p).2) = "(".

(** The token at position [pos], as [peek] reads it. *)
Definition tokenAt (tokens : list Token) (pos : nat) : Token :=
  default Parser.past_end (tokens !! pos).

(** The arguments that the argument loop collects when it starts at
    position [pos] of [tokens], and the position where it stops. *)
Definition argumentsAt (fuel : nat) (tokens : list Token) (pos : nat)
    : option (list string * nat) :=
  '(arguments, p) ←
    Parser.collectArguments fuel (Parser.set_position pos (Parser.new tokens));
  Some (arguments, Parser.position p).

Definition missingParenthesis : string :=
  "-- Error: Missing closing parenthesis for function call.".

Definition arityMismatch (name : string) (definitionLine : Z) (n m : nat) : string :=
  "-- Error: Function '" +:+ name +:+ "' at line " +:+ to_string definitionLine +:+
  " expects " +:+ to_string (Z.of_nat n) +:+ " arguments, but " +:+
  to_string (Z.of_nat m) +:+ " were provided.".

(** Where [advance] leaves the cursor. *)
Definition afterToken (ts : list Token) (n : nat) : nat :=
  match ts !! n with Some _ => S n | None => n end.

(** One turn of the argument loop from position [n]: where it leaves the
    cursor. *)
Definition afterArgument (ts : list Token) (n : nat) : nat :=
  let n1 := afterToken ts n in
  if bool_decide (Token.value (tokenAt ts n1) = ",") then afterToken ts n1 else n1.

(** Where the cursor stands after a call whose argument loop stopped at
    [end_]: past the closing parenthesis when there is one. *)
Definition afterCall (ts : list Token) (end_ : nat) : nat :=
  if bool_decide (Token.value (tokenAt ts end_) = ")") then S end_ else end_.

(** The table after pass 1 has seen a call of [name]. *)
Definition register (name : string) (args : list string) (line : Z)
    (table : gmap string FunctionSignature) : gmap string FunctionSignature :=
  match table !! name with
  | None => <[name := FunctionSignature.mk name args line]> table
  | Some _ => table
  end.

(** The diagnostics of pass 2 for a call of [name] with arguments [args]:
    for a missing closing parenthesis, then for the arity or the name. *)
Definition missingDiagnostic (ts : list Token) (end_ : nat) : string :=
  if bool_decide (Token.value (tokenAt ts end_) = ")") then ""
  else missingParenthesis +:+ endl.

Definition arityDiagnostic (name : string) (args : list string)
    (signature : FunctionSignature) : string :=
  if bool_decide (length (FunctionSignature.argumentTypes signature) = length args)
  then ""
  else arityMismatch name (FunctionSignature.line signature)
         (length (FunctionSignature.argumentTypes signature)) (length args)
       +:+ endl.

Definition diagnostics (ts : list Token) (end_ : nat) (name : string)
    (args : list string) (line : Z) (table : gmap string FunctionSignature)
    : string :=
  missingDiagnostic ts end_ +:+
  match table !! name with
  | Some signature => arityDiagnostic name args signature
  | None =>
      "-- Error: Unknown function '" +:+ name +:+ "' at line " +:+ to_string line
      +:+ "." +:+ endl
  end.







(** *** The program and its parts *)

(** The source text has no [#define] line. *)
Definition plain (sourceCode : string) : bool :=
  forallb (λ l, negb (Preprocessor.isDefine l)) (getlines sourceCode).

(** The Call Table that pass 1 builds for a source text. *)
Definition callTable (entries : gmap string string → list (string * string))
    (fuel : nat) (sourceCode : string) : option (gmap string FunctionSignature) :=
  '(preprocessedCode, _) ← Preprocessor.process entries fuel sourceCode ∅;
  tokens ← Lexer.tokenize fuel (Lexer.new preprocessedCode);
  parser ← Parser.firstPass fuel (Parser.new tokens);
  Some (Parser.functionTable parser).

(** The text that pass 1 alone leaves in the emission buffer. *)
Definition firstPassOutput (entries : gmap string string → list (string * string))
    (fuel : nat) (sourceCode : string) : option string :=
  '(preprocessedCode, _) ← Preprocessor.process entries fuel sourceCode ∅;
  tokens ← Lexer.tokenize fuel (Lexer.new preprocessedCode);
  parser ← Parser.firstPass fuel (Parser.new tokens);
  Some (Parser.formattedCode parser).

(** *** Characters and tokens *)

(** The characters that the token texts keep: letters, digits and
    punctuation, the double quote apart. *)
Definition kept (c : ascii) : bool :=
  (isalnum c || ispunct c) && negb (ascii_eqb c dquote).

(** Letters, digits and punctuation. *)
Definition visible (c : ascii) : bool := isalnum c || ispunct c.

(** What the token texts keep of a text, character by character.  Outside
    a string literal the letters, digits and punctuation stay and every
    other character goes; inside one every character stays.  A double
    quote opens or closes a string literal and goes; a null character
    inside a string literal ends it and goes. *)
Fixpoint stripped (inLiteral : bool) (cs : list ascii) : list ascii :=
  match cs with
  | [] => []
  | c :: cs' =>
      if ascii_eqb c dquote then stripped (negb inLiteral) cs'
      else if inLiteral then
        (if ascii_eqb c nul then stripped false cs' else c :: stripped true cs')
      else
        (if visible c then c :: stripped false cs' else stripped false cs')
  end.

(** The number of newline characters. *)
Definition newlines (w : list ascii) : Z :=
  Z.of_nat (length (filter (λ c, c = newline) w)).

(** The texts of the tokens, one after the other. *)
Fixpoint texts (ts : list Token) : string :=
  match ts with
  | [] => ""
  | t :: ts' => Token.value t +:+ texts ts'
  end.

(** What the lexer has not read yet. *)
Definition rest (l : Lexer.Lexer) : list ascii :=
  drop (Lexer.position l) (chars (Lexer.input l)).

(** The value of the line counter after the characters [w] have been
    read, when it was [line] before them. *)
Definition lineAfter (line : Z) (w : list ascii) : Z :=
  foldl (λ z c, if ascii_eqb c newline then wrap (z + 1) else z) line w.

(** The lexer went from [l] to [l'] by reading the characters [w]. *)
Definition reads (l l' : Lexer.Lexer) (w : list ascii) : Prop :=
  Lexer.input l' = Lexer.input l ∧ rest l = w ++ rest l' ∧
  Lexer.line l' = lineAfter (Lexer.line l) w.

(** *** Worked inputs *)

(** The tokens of [a(1,2) a(3)]. *)
Definition two_calls : list Token :=
  [ Token.mk IDENTIFIER "a" 1; Token.mk SYMBOL "(" 1; Token.mk LITERAL "1" 1;
    Token.mk SYMBOL "," 1; Token.mk LITERAL "2" 1; Token.mk SYMBOL ")" 1;
    Token.mk IDENTIFIER "a" 1; Token.mk SYMBOL "(" 1; Token.mk LITERAL "3" 1;
    Token.mk SYMBOL ")" 1; Token.mk END_OF_FILE "" 2 ].

(** The source text [select a(1,"x") from t]. *)
Definition select_call : string := "select a(1," +:+ quoted "x" +:+ ") from t".






(** *** Two names defined as each other *)

(** The source text of the lines [#define a b], [#define b a] and [a]. *)
Definition swapped_names : string :=
  "#define a b" +:+ endl +:+ "#define b a" +:+ endl +:+ "a".

(** The entries of the table from the last to the first of [map_to_list]. *)
Definition backwards (m : gmap string string) : list (string * string) :=
  reverse (map_to_list m).


(** *** Statements that are not calls *)

(** The text that a pass adds to the buffer for a statement that starts on
    the token [t] and is not a call. *)
Definition plainStatement (isFirstPass : bool) (t : Token) : string :=
  if bool_decide (Token.type t = IDENTIFIER) && negb (bool_decide (Token.value t = "("))
  then (if isFirstPass then ""
        else Token.value t +:+ " (" +:+ endl +:+ ");" +:+ endl)
  else if bool_decide (Token.type t = KEYWORD) then Token.value t +:+ endl
  else Token.value t +:+ ";" +:+ endl.

(** The lines written for a run of statements none of which is a call. *)
Definition statementLines (isFirstPass : bool) (ts : list Token) : string :=
  foldr (λ t s, plainStatement isFirstPass t +:+ s) "" ts.

(** *** The shape of tokens *)

(** A character of a word: a letter, a digit or the underscore. *)
Definition wordChar (c : ascii) : bool := isalnum c || ascii_eqb c underscore.

(** A word: it starts with a letter or the underscore and goes on with
    letters, digits and underscores. *)
Definition wordShape (cs : list ascii) : bool :=
  match cs with
  | [] => false
  | c :: _ => (isalpha c || ascii_eqb c underscore) && forallb wordChar cs
  end.

(** A character of the text of a string literal: any but the double quote
    and the null character. *)
Definition literalChar (c : ascii) : bool :=
  negb (ascii_eqb c dquote) && negb (ascii_eqb c nul).

(** The tokens that the lexer makes, kind by kind. *)
Definition wellFormed (t : Token) : bool :=
  let cs := chars (Token.value t) in
  match Token.type t with
  | KEYWORD =>
      wordShape cs && bool_decide (transform tolower (Token.value t) ∈ keywords)
  | IDENTIFIER =>
      wordShape cs &&
      negb (bool_decide (transform tolower (Token.value t) ∈ keywords))
  | LITERAL => negb (bool_decide (cs = [])) && forallb isdigit cs
  | SYMBOL =>
      match cs with
      | [c] => ispunct c && negb (ascii_eqb c dquote) && negb (ascii_eqb c underscore)
      | _ => false
      end
  | STRING_LITERAL => forallb literalChar cs
  | END_OF_FILE => bool_decide (cs = [])
  | OPERATOR | COMMENT => false
  end.

(** The lines of the tokens never go down. *)
Definition ascending (ts : list Token) : Prop :=
  ∀ i j a b, (i ≤ j)%nat → ts !! i = Some a → ts !! j = Some b →
    Token.line a ≤ Token.line b.

(** *** The shape of directives *)

(** A text of white space only. *)
Definition blank (s : string) : bool := forallb isspace (chars s).

(** A text without white space. *)
Definition solid (s : string) : bool := forallb (λ c, negb (isspace c)) (chars s).

(** A text that neither starts nor ends with white space. *)
Definition trimmed (s : string) : bool :=
  match chars s with [] => true | c :: _ => negb (isspace c) end &&
  match reverse (chars s) with [] => true | c :: _ => negb (isspace c) end.

(** ** Facts about loops *)

Lemma while_mono {S : Type} (cond : S → bool) (body body' : S → option S)
    (fuel fuel' : nat) :
  (fuel ≤ fuel')%nat →
  (∀ s r, body s = Some r → body' s = Some r) →
  ∀ s r, while fuel cond body s = Some r → while fuel' cond body' s = Some r.
Proof.
  intros Hle Hbody. revert fuel' Hle.
  induction fuel as [|fuel IH]; intros fuel' Hle s r H; [discriminate|].
  destruct fuel' as [|fuel']; [lia|]. simpl in *.
  destruct (cond s); [|done].
  destruct (body s) as [s'|] eqn:Hs; [|discriminate].
  rewrite (Hbody _ _ Hs). simpl in *. apply IH; [lia|done].
Qed.

(** Total correctness of a loop: an invariant kept by the body and a measure
    that the body decreases give a final state, once the fuel exceeds the
    measure. *)
Lemma while_rule {S : Type} (I : S → Prop) (μ : S → nat) (cond : S → bool)
    (body : S → option S) :
  (∀ s, I s → cond s = true → ∃ s', body s = Some s' ∧ I s' ∧ (μ s' < μ s)%nat) →
  ∀ fuel s, I s → (μ s < fuel)%nat →
    ∃ s', while fuel cond body s = Some s' ∧ I s' ∧ cond s' = false.
Proof.
  intros Hstep fuel. induction fuel as [|fuel IH]; intros s Hs Hμ; [lia|].
  simpl. destruct (cond s) eqn:Hc.
  - destruct (Hstep s Hs Hc) as (s' & -> & Hs' & Hlt). simpl.
    apply IH; [done|lia].
  - eauto.
Qed.

(** Two loops that stay related run in step. *)
Lemma while_simulation {S T : Type} (R : S → T → Prop)
    (cond1 : S → bool) (body1 : S → option S)
    (cond2 : T → bool) (body2 : T → option T) :
  (∀ s t, R s t → cond1 s = cond2 t) →
  (∀ s t s', R s t → cond1 s = true → body1 s = Some s' →
     ∃ t', body2 t = Some t' ∧ R s' t') →
  ∀ fuel s t s', R s t → while fuel cond1 body1 s = Some s' →
    ∃ t', while fuel cond2 body2 t = Some t' ∧ R s' t'.
Proof.
  intros Hcond Hbody fuel.
  induction fuel as [|fuel IH]; intros s t s' HR H; [discriminate|].
  simpl in *. rewrite <- (Hcond _ _ HR). destruct (cond1 s) eqn:Hc.
  - destruct (body1 s) as [s1|] eqn:Hb; [|discriminate]. simpl in H.
    destruct (Hbody _ _ _ HR Hc Hb) as (t1 & -> & HR1). simpl. eauto.
  - simplify_eq. eauto.
Qed.

(** ** Facts about strings *)

Lemma chars_app (a b : string) : chars (a +:+ b) = chars a ++ chars b.
Proof. induction a as [|c a IH]; simpl; [done|]. by rewrite <- IH. Qed.

Lemma chars_inj (a b : string) : chars a = chars b → a = b.
Proof.
  intros H. rewrite <- (String.string_of_list_ascii_of_string a),
    <- (String.string_of_list_ascii_of_string b). unfold chars in H. by rewrite H.
Qed.

Lemma chars_length (s : string) : length (chars s) = String.length s.
Proof. induction s; simpl; auto. Qed.

Lemma string_app_assoc (a b c : string) : (a +:+ b) +:+ c = a +:+ b +:+ c.
Proof. apply chars_inj. rewrite !chars_app. by rewrite app_assoc. Qed.

Lemma string_app_nil_l (a : string) : "" +:+ a = a.
Proof. done. Qed.

Lemma string_app_nil_r (a : string) : a +:+ "" = a.
Proof. apply chars_inj. rewrite chars_app. apply app_nil_r. Qed.

Lemma chars_rev_app (a b : string) :
  chars (String.rev_app a b) = reverse (chars a) ++ chars b.
Proof.
  revert b. induction a as [|c a IH]; intros b; simpl; [done|].
  rewrite IH. simpl. rewrite reverse_cons, <- app_assoc. done.
Qed.

Lemma chars_rev (a : string) : chars (String.rev a) = reverse (chars a).
Proof. unfold String.rev. rewrite chars_rev_app. apply app_nil_r. Qed.

Lemma chars_substring (n m : nat) (s : string) :
  chars (String.substring n m s) = take m (drop n (chars s)).
Proof.
  revert n m. induction s as [|c s IH]; intros [|n] [|m]; simpl; try done;
    by rewrite IH.
Qed.

Lemma chars_replace (s : string) (pos len : nat) (str : string) :
  chars (replace s pos len str) =
  take pos (chars s) ++ chars str ++ drop (pos + len) (chars s).
Proof.
  unfold replace. rewrite !chars_app, !chars_substring. simpl.
  rewrite drop_0. do 2 f_equal. apply take_ge.
  rewrite length_drop, chars_length. lia.
Qed.

Lemma prefix_length (a b : string) :
  String.prefix a b = true → (String.length a ≤ String.length b)%nat.
Proof.
  revert b. induction a as [|c a IH]; intros [|d b]; simpl; try (done || lia).
  destruct (ascii_dec c d); [|done]. intros H%IH. lia.
Qed.

Lemma find_bounds (s key : string) (pos p : nat) :
  find s key pos = Some p →
  (pos ≤ p)%nat ∧ (p + String.length key ≤ String.length s)%nat.
Proof.
  unfold find. revert pos p.
  induction s as [|c s IH]; intros [|pos] p; cbn [String.index].
  - destruct key; [|done]. intros [= <-]. simpl. lia.
  - done.
  - destruct (String.prefix key (String c s)) eqn:Hp.
    + intros [= <-]. apply prefix_length in Hp. lia.
    + destruct (String.index 0 key s) as [q|] eqn:Hq; [|done].
      intros [= <-]. apply IH in Hq. simpl. lia.
  - destruct (String.index pos key s) as [q|] eqn:Hq; [|done].
    intros [= <-]. apply IH in Hq. simpl. lia.
Qed.

Lemma find_empty (s : string) : find s "" 0 = Some 0%nat.
Proof. unfold find. by destruct s. Qed.

Lemma replace_nothing (s : string) : replace s 0 0 "" = s.
Proof. apply chars_inj. rewrite chars_replace. simpl. by rewrite drop_0. Qed.

Lemma replace_length (s : string) (pos len : nat) (str : string) :
  (pos + len ≤ String.length s)%nat →
  String.length (replace s pos len str) =
  (String.length s - len + String.length str)%nat.
Proof.
  intros H. rewrite <- !chars_length, chars_replace, !length_app, length_take,
    length_drop. rewrite !chars_length. lia.
Qed.

Lemma no_newline_skipws (s : string) : no_newline s → no_newline (skipws s).
Proof.
  unfold no_newline. induction s as [|c s IH]; simpl; [done|].
  destruct (isspace c); simpl; set_solver.
Qed.

Lemma no_newline_word (s : string) : no_newline s → no_newline (word s).2.
Proof.
  unfold no_newline. induction s as [|c s IH]; simpl; [done|].
  destruct (isspace c); simpl; [done|].
  destruct (word s) as [w r]. simpl in *. set_solver.
Qed.

Lemma no_newline_rev (s : string) : no_newline s → no_newline (String.rev s).
Proof. unfold no_newline. rewrite chars_rev. set_solver. Qed.

Lemma no_newline_trim (s : string) : no_newline s → no_newline (trim s).
Proof.
  intros H. unfold trim.
  by apply no_newline_rev, no_newline_skipws, no_newline_rev, no_newline_skipws.
Qed.

Lemma no_newline_replace (s : string) (pos len : nat) (str : string) :
  no_newline s → no_newline str → no_newline (replace s pos len str).
Proof.
  unfold no_newline. rewrite chars_replace. intros Hs Hstr.
  rewrite !elem_of_app. intros [H|[H|H]]; [|done|].
  - by apply Hs, (subseteq_take pos).
  - by apply Hs, (subseteq_drop (pos + len)).
Qed.

Lemma getlines_no_newline (s : string) : Forall no_newline (getlines s).
Proof.
  induction s as [|c s IH]; simpl; [constructor|].
  unfold ascii_eqb. case_bool_decide as Hc.
  - constructor; [|done]. unfold no_newline. simpl. apply not_elem_of_nil.
  - destruct (getlines s) as [|l ls]; constructor.
    + unfold no_newline. simpl. apply not_elem_of_cons. split; [congruence|].
      apply not_elem_of_nil.
    + constructor.
    + apply Forall_cons in IH as [Hl _]. unfold no_newline in *. simpl.
      apply not_elem_of_cons. split; [congruence|done].
    + by apply Forall_cons in IH as [_ ?].
Qed.

Lemma getlines_line (l rest : string) :
  no_newline l → getlines (l +:+ endl +:+ rest) = l :: getlines rest.
Proof.
  unfold no_newline. induction l as [|c l IH]; intros Hl.
  - done.
  - change (String c l +:+ endl +:+ rest) with (String c (l +:+ endl +:+ rest)).
    cbn [getlines]. unfold ascii_eqb. simpl in Hl.
    rewrite bool_decide_eq_false_2 by set_solver.
    rewrite IH by set_solver. done.
Qed.

Lemma getlines_unlines (ls : list string) :
  Forall no_newline ls → getlines (unlines ls) = ls.
Proof.
  induction 1 as [|l ls Hl _ IH]; [done|].
  simpl. rewrite getlines_line by done. by rewrite IH.
Qed.

Lemma unlines_app (a b : list string) : unlines (a ++ b) = unlines a +:+ unlines b.
Proof.
  induction a as [|l a IH]; simpl; [done|].
  by rewrite IH, !string_app_assoc.
Qed.

(** ** The macro expander *)

Section PreprocessorFacts.

Import Preprocessor.

Variable entries : gmap string string → list (string * string).
Hypothesis entries_order : iteration_order entries.

Lemma elem_of_entries (m : gmap string string) (k v : string) :
  (k, v) ∈ entries m ↔ m !! k = Some v.
Proof. rewrite (entries_order m). apply elem_of_map_to_list. Qed.

Lemma replaceAll_mono (fuel fuel' : nat) (key value line : string) (pos : nat)
    (r : string) :
  (fuel ≤ fuel')%nat →
  replaceAll fuel key value line pos = Some r →
  replaceAll fuel' key value line pos = Some r.
Proof.
  revert fuel' line pos.
  induction fuel as [|fuel IH]; intros fuel' line pos Hle H; [done|].
  destruct fuel' as [|fuel']; [lia|]. simpl in *.
  destruct (find line key pos); [|done]. apply IH; [lia|done].
Qed.

Lemma expand_mono (fuel fuel' : nat) (es : list (string * string))
    (line r : string) :
  (fuel ≤ fuel')%nat → expand fuel es line = Some r → expand fuel' es line = Some r.
Proof.
  intros Hle. revert line.
  induction es as [|[k v] es IH]; intros line H; simpl in *; [done|].
  destruct (replaceAll fuel k v line 0) as [l1|] eqn:H1; [|done].
  rewrite (replaceAll_mono _ _ _ _ _ _ _ Hle H1). simpl in *. by apply IH.
Qed.

Lemma processLines_mono (fuel fuel' : nat) (lines : list string)
    (m : gmap string string) (out : string) r :
  (fuel ≤ fuel')%nat →
  processLines entries fuel lines m out = Some r →
  processLines entries fuel' lines m out = Some r.
Proof.
  intros Hle. revert m out.
  induction lines as [|l lines IH]; intros m out H; simpl in *; [done|].
  destruct (isDefine l).
  - destruct (define l). by apply IH.
  - destruct (expand fuel (entries m) l) as [l1|] eqn:H1; [|done].
    rewrite (expand_mono _ _ _ _ _ Hle H1). simpl in *. by apply IH.
Qed.

(** The loop over an entry with an empty name never ends. *)
Lemma replaceAll_empty_key (fuel : nat) (line : string) :
  replaceAll fuel "" "" line 0 = None.
Proof.
  induction fuel as [|fuel IH]; [done|].
  simpl. by rewrite find_empty, replace_nothing.
Qed.

Lemma expand_empty_key (fuel : nat) (es : list (string * string)) (line : string) :
  ("", "") ∈ es → expand fuel es line = None.
Proof.
  revert line. induction es as [|[k v] es IH]; intros line Hin.
  - by apply elem_of_nil in Hin.
  - simpl. apply elem_of_cons in Hin as [[= <- <-]|Hin].
    + by rewrite replaceAll_empty_key.
    + destruct (replaceAll fuel k v line 0); [|done]. simpl. by apply IH.
Qed.

Lemma skipws_head (s : string) :
  match skipws s with "" => True | String c _ => isspace c = false end.
Proof.
  induction s as [|c s IH]; simpl; [done|].
  destruct (isspace c) eqn:Hc; [done|]. done.
Qed.

Lemma extract_empty (s : string) : (extract s).1 = "" → (extract s).2 = "".
Proof.
  unfold extract. pose proof (skipws_head s) as H.
  destruct (skipws s) as [|c r]; simpl; [done|].
  rewrite H. by destruct (word r).
Qed.

(** A directive with an empty name has an empty replacement text. *)
Lemma define_empty_key (l : string) : (define l).1 = "" → (define l).2 = "".
Proof.
  unfold define. destruct (extract l) as [d r1].
  pose proof (extract_empty r1) as H.
  destruct (extract r1) as [k r2]. simpl in *. intros ->. by rewrite H.
Qed.

Lemma processLines_empty_key (fuel : nat) (lines : list string)
    (m : gmap string string) (out : string) :
  m !! "" = Some "" →
  existsb (λ l, negb (isDefine l)) lines = true →
  processLines entries fuel lines m out = None.
Proof.
  revert m out. induction lines as [|l lines IH]; intros m out Hm Hex; [done|].
  simpl in *. destruct (isDefine l) eqn:Hl; simpl in *.
  - pose proof (define_empty_key l) as Hd.
    destruct (define l) as [k v]. simpl in *. apply IH; [|done].
    destruct (decide (k = "")) as [->|Hk].
    + rewrite Hd by done. apply lookup_insert_eq.
    + by rewrite lookup_insert_ne.
  - rewrite expand_empty_key; [done|]. by apply elem_of_entries.
Qed.

(** The loop over an entry with a name of at least one character ends: each
    turn leaves less text after [pos]. *)
Lemma replaceAll_terminates (fuel : nat) (key value line : string) (pos : nat) :
  key ≠ "" → (S (String.length line) - pos < fuel)%nat →
  ∃ line', replaceAll fuel key value line pos = Some line' ∧
    (no_newline line → no_newline value → no_newline line').
Proof.
  intros Hkey. assert (0 < String.length key)%nat as Hk by (destruct key; simpl; [done|lia]).
  revert line pos. induction fuel as [|fuel IH]; intros line pos Hfuel; [lia|].
  simpl. destruct (find line key pos) as [p|] eqn:Hf; [|eauto].
  apply find_bounds in Hf as [Hp1 Hp2].
  destruct (IH (replace line p (String.length key) value) (p + String.length value)%nat)
    as (line' & -> & Hnl).
  { rewrite replace_length by done. clear -Hfuel Hp1 Hp2 Hk. lia. }
  eexists; split; [done|]. intros ??. apply Hnl; [|done].
  by apply no_newline_replace.
Qed.

Lemma expand_terminates (es : list (string * string)) (line : string) :
  Forall (λ e, e.1 ≠ "" ∧ no_newline e.2) es →
  ∃ fuel0, ∀ fuel, (fuel0 ≤ fuel)%nat →
    ∃ line', expand fuel es line = Some line' ∧ (no_newline line → no_newline line').
Proof.
  intros Hes. revert line.
  induction Hes as [|[k v] es [Hk Hv] _ IH]; intros line; simpl in *.
  - exists 0%nat. eauto.
  - destruct (replaceAll_terminates (S (S (String.length line))) k v line 0 Hk)
      as (l1 & H1 & Hnl1); [lia|].
    destruct (IH l1) as (fuel0 & Hfuel0).
    exists (fuel0 `max` S (S (String.length line)))%nat. intros fuel Hfuel.
    rewrite (replaceAll_mono (S (S (String.length line))) fuel _ _ _ _ _ ltac:(lia) H1).
    simpl.
    destruct (Hfuel0 fuel ltac:(lia)) as (line' & -> & Hnl).
    eexists; split; [done|]. auto.
Qed.

Lemma no_newline_define (l : string) : no_newline l → no_newline (define l).2.
Proof.
  intros Hl. unfold define, extract.
  pose proof (no_newline_word _ (no_newline_skipws _ Hl)) as H1.
  destruct (word (skipws l)) as [d r1]. simpl in H1.
  pose proof (no_newline_word _ (no_newline_skipws _ H1)) as H2.
  destruct (word (skipws r1)) as [k r2]. simpl in *. by apply no_newline_trim.
Qed.

Lemma processLines_terminates (lines : list string) (m : gmap string string)
    (acc : list string) :
  Forall no_newline lines →
  forallb (λ l, negb (isDefine l) || negb (bool_decide ((define l).1 = ""))) lines
    = true →
  sound_table m →
  ∃ fuel0, ∀ fuel, (fuel0 ≤ fuel)%nat →
    ∃ ls' m', processLines entries fuel lines m (unlines acc)
                = Some (unlines (acc ++ ls'), m') ∧
      Forall no_newline ls' ∧
      length ls' = length (filter (λ l, isDefine l = false) lines).
Proof.
  intros Hnl. revert m acc.
  induction Hnl as [|l lines Hl _ IH]; intros m acc Hnamed Hm.
  - exists 0%nat. intros fuel _. exists [], m. by rewrite app_nil_r.
  - simpl in Hnamed. apply andb_prop in Hnamed as [Hnamed1 Hnamed].
    simpl. destruct (isDefine l) eqn:Hdef.
    + pose proof (no_newline_define l Hl) as Hv.
      simpl in Hnamed1. apply negb_true_iff, bool_decide_eq_false in Hnamed1.
      destruct (define l) as [k v]. simpl in *.
      destruct (IH (<[k:=v]> m) acc Hnamed) as (fuel0 & Hfuel0).
      { intros k' v'. destruct (decide (k = k')) as [<-|Hne].
        - rewrite lookup_insert_eq. by intros [= <-].
        - rewrite lookup_insert_ne by done. apply Hm. }
      exists fuel0. intros fuel Hfuel.
      destruct (Hfuel0 fuel Hfuel) as (ls' & m' & -> & ? & ?).
      rewrite filter_cons_False by (by rewrite Hdef). eauto.
    + destruct (expand_terminates (entries m) l) as (fuel1 & Hfuel1).
      { apply Forall_forall. intros [k v] Hin%elem_of_entries. by apply Hm. }
      destruct (Hfuel1 fuel1 ltac:(lia)) as (l1 & Hl1 & Hnl1).
      destruct (IH m (acc ++ [l1]) Hnamed Hm) as (fuel0 & Hfuel0).
      exists (fuel0 `max` fuel1)%nat. intros fuel Hfuel.
      rewrite (expand_mono fuel1 fuel _ _ _ ltac:(lia) Hl1). simpl.
      destruct (Hfuel0 fuel ltac:(lia)) as (ls' & m' & Hrun & Hls' & Hlen).
      exists (l1 :: ls'), m'. split_and!.
      * rewrite <- (assoc_L (++) acc [l1] ls') in Hrun. simpl in Hrun.
        rewrite <- Hrun. f_equal. rewrite unlines_app. simpl.
        by rewrite string_app_nil_r.
      * constructor; auto.
      * rewrite filter_cons_True by done. simpl. by rewrite Hlen.
Qed.

End PreprocessorFacts.

(** ** The parser: frame and progress *)

Section ParserFacts.

Import Parser.

Lemma peek_cursor (p q : Parser) : cursor p = cursor q → peek p = peek q.
Proof. unfold cursor, peek. by intros [= -> ->]. Qed.

Lemma peek_in_range (p : Parser) :
  Token.type (peek p) ≠ END_OF_FILE → tokens p !! position p = Some (peek p).
Proof. unfold peek. by destruct (tokens p !! position p). Qed.

Lemma advance_in_range (p : Parser) :
  Token.type (peek p) ≠ END_OF_FILE →
  advance p = (peek p, set_position (S (position p)) p).
Proof. intros H%peek_in_range. unfold advance. by rewrite H. Qed.

Lemma set_position_set_position (n m : nat) (p : Parser) :
  set_position n (set_position m p) = set_position n p.
Proof. done. Qed.

Lemma set_position_id (p : Parser) : set_position (position p) p = p.
Proof. by destruct p. Qed.

Lemma advance_eq (p : Parser) :
  advance p =
  (peek p,
   set_position (afterToken (tokens p) (position p)) p).
Proof.
  unfold advance, peek, afterToken. destruct (tokens p !! position p); simpl; [done|].
  by rewrite set_position_id.
Qed.

Lemma peek_set_position (n : nat) (p : Parser) :
  peek (set_position n p) = tokenAt (tokens p) n.
Proof. done. Qed.

Lemma argumentsBody_eq (a : list string) (n : nat) (p : Parser) :
  argumentsBody (a, set_position n p) =
  Some (if isArgument (tokenAt (tokens p) n)
        then a ++ [Token.value (tokenAt (tokens p) n)] else a,
        set_position (afterArgument (tokens p) n) p).
Proof.
  unfold argumentsBody, afterArgument. rewrite !advance_eq. simpl.
  rewrite !peek_set_position. simpl. by case_bool_decide.
Qed.

Lemma afterArgument_bounds (ts : list Token) (n : nat) :
  Token.type (tokenAt ts n) ≠ END_OF_FILE →
  (n < afterArgument ts n ≤ length ts)%nat.
Proof.
  unfold afterArgument, afterToken, tokenAt. intros H.
  destruct (ts !! n) as [t|] eqn:Ht; [|done].
  apply lookup_lt_Some in Ht. case_bool_decide; [|lia].
  destruct (ts !! S n) as [t'|] eqn:Ht'; [|lia].
  apply lookup_lt_Some in Ht'. lia.
Qed.

(** The argument loop ends, moves nothing but the cursor, and stops on a
    token with text [)] or at the end of the tokens. *)
Lemma collectArguments_total (fuel : nat) (p : Parser) :
  (length (tokens p) - position p < fuel)%nat →
  ∃ args end_,
    collectArguments fuel p = Some (args, set_position end_ p) ∧
    (position p ≤ end_ ≤ length (tokens p) `max` position p)%nat ∧
    (Token.value (tokenAt (tokens p) end_) = ")" ∨
     Token.type (tokenAt (tokens p) end_) = END_OF_FILE).
Proof.
  intros Hfuel. unfold collectArguments.
  destruct (while_rule
    (λ s, ∃ n, s.2 = set_position n p ∧
       (position p ≤ n ≤ length (tokens p) `max` position p)%nat)
    (λ s, length (tokens p) - position s.2)%nat
    argumentsCond argumentsBody) with (fuel := fuel) (s := ([] : list string, p))
    as ([args r] & Hrun & (n & Hr & Hn) & Hcond).
  - intros [a x] (n & Hx & Hn) Hcond. simpl in Hx. subst x.
    rewrite argumentsBody_eq. eexists; split; [done|].
    unfold argumentsCond in Hcond. simpl in Hcond.
    apply andb_prop in Hcond as [_ Heof%negb_true_iff%bool_decide_eq_false].
    rewrite peek_set_position in Heof.
    apply afterArgument_bounds in Heof. simpl. split; [|lia].
    eexists; split; [done|]. lia.
  - exists (position p). by rewrite set_position_id; split; [|lia].
  - done.
  - simpl in Hr. subst r. exists args, n. split_and!; [done|lia|lia|].
    unfold argumentsCond in Hcond. simpl in Hcond. rewrite peek_set_position in Hcond.
    apply andb_false_iff in Hcond as [H|H]; apply negb_false_iff, bool_decide_eq_true in H;
      auto.
Qed.

(** What the argument loop collects and where it stops depend on the cursor
    only. *)
Lemma collectArguments_cursor (fuel : nat) (p q : Parser) (args : list string)
    (end_ : nat) :
  tokens p = tokens q →
  collectArguments fuel p = Some (args, set_position end_ p) →
  collectArguments fuel (set_position (position p) q) = Some (args, set_position end_ q).
Proof.
  intros Htok Hrun. unfold collectArguments in *.
  destruct (while_simulation
    (λ s t, s.1 = t.1 ∧ ∃ n, s.2 = set_position n p ∧ t.2 = set_position n q)
    argumentsCond argumentsBody argumentsCond argumentsBody) with
    (fuel := fuel) (s := ([] : list string, p))
    (t := ([] : list string, set_position (position p) q))
    (s' := (args, set_position end_ p)) as ([args' r] & Hrun' & Hargs & n & Hn & Hr).
  - intros [a x] [b y] (_ & n & Hx & Hy). simpl in *. subst.
    unfold argumentsCond. simpl. by rewrite !peek_set_position, Htok.
  - intros [a x] [b y] s' (Hab & n & Hx & Hy) _. simpl in Hab, Hx, Hy. subst.
    rewrite !argumentsBody_eq. intros [= <-]. rewrite Htok.
    eexists; split; [done|]. simpl. eauto.
  - simpl. split; [done|]. exists (position p). by rewrite set_position_id.
  - done.
  - simpl in *. subst. rewrite Hrun'. do 2 f_equal.
    apply (f_equal position) in Hn. simpl in Hn. by subst.
Qed.

Lemma argumentsAt_collect (fuel : nat) (p : Parser) (args : list string) (end_ : nat) :
  collectArguments fuel p = Some (args, set_position end_ p) →
  argumentsAt fuel (tokens p) (position p) = Some (args, end_).
Proof.
  intros H. unfold argumentsAt.
  rewrite (collectArguments_cursor fuel p (new (tokens p)) args end_); done.
Qed.

Lemma callSite_tokens (p : Parser) (name : string) :
  callSite p name →
  tokens p !! position p = Some (peek p) ∧
  is_Some (tokens p !! S (position p)) ∧
  Token.value (tokenAt (tokens p) (S (position p))) = "(" ∧
  advance p = (peek p, set_position (S (position p)) p) ∧
  more p = true.
Proof.
  intros (Hty & Hv & Hne & Hnext).
  assert (Token.type (peek p) ≠ END_OF_FILE) as Hin by (by rewrite Hty).
  rewrite advance_in_range in Hnext |- * by done. simpl in Hnext.
  rewrite peek_set_position in Hnext. split_and!; try done.
  - by apply peek_in_range.
  - unfold tokenAt in Hnext. by destruct (tokens p !! S (position p)).
  - unfold more. by rewrite bool_decide_eq_false_2.
Qed.

Lemma afterCall_closed (ts : list Token) (end_ : nat) :
  (if bool_decide (Token.value (tokenAt ts end_) = ")")
   then afterToken ts end_ else end_) = afterCall ts end_.
Proof.
  unfold afterCall, afterToken, tokenAt. case_bool_decide as H; [|done].
  by destruct (ts !! end_).
Qed.

(** Pass 1 on a call. *)
Lemma detect_call (fuel : nat) (p : Parser) (name : string) :
  callSite p name → (length (tokens p) - position p < fuel)%nat →
  ∃ args end_,
    argumentsAt fuel (tokens p) (S (S (position p))) = Some (args, end_) ∧
    (S (S (position p)) ≤ end_ ≤ length (tokens p))%nat ∧
    detectFunctionCall fuel p =
      Some (set_functionTable
              (register name args (Token.line (peek p)) (functionTable p))
              (set_position (afterCall (tokens p) end_) p)).
Proof.
  intros Hcall Hfuel.
  destruct (callSite_tokens p name Hcall) as (Hin & [t Hnext] & Hparen & Hadv & _).
  destruct Hcall as (_ & Hname & _ & _).
  destruct (collectArguments_total fuel (set_position (S (S (position p))) p))
    as (args & end_ & Hrun & Hend & _); [simpl; lia|].
  simpl in Hrun, Hend. pose proof (lookup_lt_Some _ _ _ Hnext) as Hlt.
  exists args, end_. split_and!; [|lia|lia|].
  { by apply (argumentsAt_collect fuel (set_position (S (S (position p))) p)). }
  unfold detectFunctionCall. rewrite Hadv. rewrite peek_set_position, Hparen.
  rewrite bool_decide_eq_true_2 by done. rewrite advance_eq. simpl.
  replace (afterToken (tokens p) (S (position p))) with (S (S (position p)))
    by (unfold afterToken; by rewrite Hnext).
  rewrite !set_position_set_position in Hrun |- *.
  rewrite Hrun. simpl. rewrite peek_set_position, advance_eq. simpl.
  unfold register. rewrite Hname.
  pose proof (afterCall_closed (tokens p) end_) as Hc.
  case_bool_decide; simpl; rewrite <- Hc; by destruct (functionTable p !! name).
Qed.

(** Pass 2 on a call. *)
Lemma validate_call (fuel : nat) (p : Parser) (name : string) :
  callSite p name → (length (tokens p) - position p < fuel)%nat →
  indentLevel p = 0 →
  ∃ args end_,
    argumentsAt fuel (tokens p) (S (S (position p))) = Some (args, end_) ∧
    (S (S (position p)) ≤ end_ ≤ length (tokens p))%nat ∧
    validateFunctionCall fuel p =
      Some (mk (tokens p) (afterCall (tokens p) end_) 0
              (formattedCode p +:+ name +:+ " (" +:+ endl +:+
               diagnostics (tokens p) end_ name args (Token.line (peek p))
                 (functionTable p) +:+
               ");" +:+ endl)
              (functionTable p)).
Proof.
  intros Hcall Hfuel Hindent.
  destruct (callSite_tokens p name Hcall) as (Hin & [t Hnext] & Hparen & Hadv & _).
  destruct Hcall as (_ & Hname & _ & _).
  set (p1 := writeIndentedLine (name +:+ " (") p).
  destruct (collectArguments_total fuel (set_position (S (S (position p))) p1))
    as (args & end_ & Hrun & Hend & _); [simpl; lia|].
  simpl in Hrun, Hend. pose proof (lookup_lt_Some _ _ _ Hnext) as Hlt.
  exists args, end_. split_and!; [|lia|lia|].
  { by apply (argumentsAt_collect fuel (set_position (S (S (position p))) p1)). }
  unfold validateFunctionCall. rewrite Hadv, Hname. fold p1.
  change (peek (writeIndentedLine (name +:+ " (") (set_position (S (position p)) p)))
    with (tokenAt (tokens p) (S (position p))).
  rewrite Hparen, bool_decide_eq_true_2 by done.
  rewrite advance_eq. simpl.
  replace (afterToken (tokens p) (S (position p))) with (S (S (position p)))
    by (unfold afterToken; by rewrite Hnext).
  change (set_position (S (S (position p))) (writeIndentedLine _ _))
    with (set_position (S (S (position p))) p1).
  rewrite Hrun. simpl. rewrite peek_set_position, advance_eq. simpl.
  unfold diagnostics, missingDiagnostic, arityDiagnostic, writeIndentedLine. simpl.
  rewrite Hindent. simpl.
  pose proof (afterCall_closed (tokens p) end_) as Hc.
  unfold size. case_bool_decide; simpl; rewrite <- Hc;
    destruct (functionTable p !! name) as [sig|]; simpl;
    repeat case_bool_decide; try lia; simpl;
    do 2 f_equal; try done; rewrite ?Hindent;
    unfold arityMismatch, missingParenthesis;
    change (indentation (Z.to_nat 0)) with "";
    by rewrite ?string_app_assoc, ?string_app_nil_l.
Qed.

Lemma afterCall_bounds (ts : list Token) (end_ : nat) :
  (end_ ≤ length ts)%nat → (end_ ≤ afterCall ts end_ ≤ length ts)%nat.
Proof.
  unfold afterCall, tokenAt. intros H. case_bool_decide as Hc; [|lia].
  destruct (ts !! end_) eqn:Ht; [|done]. apply lookup_lt_Some in Ht. lia.
Qed.

Lemma callSite_cursor (p q : Parser) (name : string) :
  cursor p = cursor q → callSite p name → callSite q name.
Proof.
  intros Hc. unfold callSite. rewrite !advance_eq. simpl.
  rewrite !peek_set_position, <- (peek_cursor p q Hc).
  unfold cursor in Hc. by injection Hc as -> ->.
Qed.

(** One statement of a pass: it is processed, only moves the cursor
    forward, and touches the table in pass 1 on a call only. *)
Lemma step_spec (fuel : nat) (b : bool) (p : Parser) :
  more p = true → (length (tokens p) - position p < fuel)%nat → indentLevel p = 0 →
  ∃ p', parseStatement fuel b p = Some p' ∧
    tokens p' = tokens p ∧ indentLevel p' = 0 ∧
    (position p < position p' ≤ length (tokens p))%nat ∧
    ((∃ name args end_,
        callSite p name ∧
        argumentsAt fuel (tokens p) (S (S (position p))) = Some (args, end_) ∧
        position p' = afterCall (tokens p) end_ ∧
        functionTable p' =
          (if b then register name args (Token.line (peek p)) (functionTable p)
           else functionTable p) ∧
        (b = false →
         formattedCode p' =
           formattedCode p +:+ name +:+ " (" +:+ endl +:+
           diagnostics (tokens p) end_ name args (Token.line (peek p))
             (functionTable p) +:+
           ");" +:+ endl))
     ∨ ((∀ name, ¬ callSite p name) ∧
        position p' = S (position p) ∧ functionTable p' = functionTable p)).
Proof.
  intros Hmore Hfuel Hindent.
  assert (Token.type (peek p) ≠ END_OF_FILE) as Heof.
  { unfold more in Hmore. by apply negb_true_iff, bool_decide_eq_false in Hmore. }
  pose proof (advance_in_range p Heof) as Hadv.
  pose proof (lookup_lt_Some _ _ _ (peek_in_range p Heof)) as Hlt.
  unfold parseStatement.
  destruct (bool_decide (Token.type (peek p) = IDENTIFIER)
            && negb (bool_decide (Token.value (peek p) = "("))) eqn:Hid.
  - apply andb_prop in Hid as [Hty%bool_decide_eq_true Hv%negb_true_iff%bool_decide_eq_false].
    destruct (decide (Token.value (peek (advance p).2) = "(")) as [Hparen|Hparen].
    + assert (callSite p (Token.value (peek p))) as Hcall by done.
      destruct b.
      * destruct (detect_call fuel p _ Hcall Hfuel) as (args & end_ & Hargs & Hend & ->).
        pose proof (afterCall_bounds (tokens p) end_ ltac:(lia)).
        eexists; split; [done|]. simpl. split_and!; [done|done|lia|lia|].
        left. by exists (Token.value (peek p)), args, end_.
      * destruct (validate_call fuel p _ Hcall Hfuel Hindent)
          as (args & end_ & Hargs & Hend & ->).
        pose proof (afterCall_bounds (tokens p) end_ ltac:(lia)).
        eexists; split; [done|]. simpl. split_and!; [done|done|lia|lia|].
        left. by exists (Token.value (peek p)), args, end_.
    + assert (∀ name, ¬ callSite p name) as Hno.
      { intros name (_ & _ & _ & ?). done. }
      destruct b.
      * unfold detectFunctionCall. rewrite Hadv in Hparen |- *. simpl in Hparen.
        rewrite bool_decide_eq_false_2 by done.
        eexists; split; [done|]. simpl. split_and!; [done|done|lia|lia|by right].
      * unfold validateFunctionCall. rewrite Hadv in Hparen |- *. simpl in Hparen.
        change (peek (writeIndentedLine ?l ?q)) with (peek q).
        rewrite bool_decide_eq_false_2 by done. simpl.
        eexists; split; [done|]. simpl. split_and!; [done|done|lia|lia|by right].
  - assert (∀ name, ¬ callSite p name) as Hno.
    { intros name (Hty & Hv & Hne & _). subst name.
      apply andb_false_iff in Hid as [H%bool_decide_eq_false|H%negb_false_iff%bool_decide_eq_true];
        done. }
    rewrite Hadv. simpl.
    destruct (bool_decide (Token.type (peek p) = KEYWORD));
      (eexists; split; [done|]); simpl;
      (split_and!; [done|done|lia|lia|by right]).
Qed.

(** The cursor after a statement depends on the cursor before it only: the
    two passes cut the token sequence into the same statements. *)
Lemma step_cursor (fuel : nat) (b b' : bool) (p q p' q' : Parser) :
  cursor p = cursor q → more p = true →
  (length (tokens p) - position p < fuel)%nat → indentLevel p = 0 → indentLevel q = 0 →
  parseStatement fuel b p = Some p' → parseStatement fuel b' q = Some q' →
  cursor p' = cursor q'.
Proof.
  intros Hc Hmore Hfuel Hip Hiq Hp Hq.
  assert (more q = true) as Hmoreq by (unfold more; by rewrite <- (peek_cursor p q Hc)).
  pose proof Hc as Hc'. unfold cursor in Hc'. injection Hc' as Htok Hpos.
  destruct (step_spec fuel b p Hmore Hfuel Hip) as (p1 & Hp1 & Htp & _ & _ & Hcase).
  destruct (step_spec fuel b' q Hmoreq ltac:(rewrite <- Htok, <- Hpos; done) Hiq)
    as (q1 & Hq1 & Htq & _ & _ & Hcaseq).
  rewrite Hp in Hp1. rewrite Hq in Hq1.
  injection Hp1 as <-. injection Hq1 as <-.
  unfold cursor at 1 2. rewrite Htp, Htq, Htok. f_equal.
  destruct Hcase as [(name & args & end_ & Hcall & Hargs & -> & _)|(Hno & -> & _)];
    destruct Hcaseq as [(name' & args' & end' & Hcall' & Hargs' & -> & _)|(Hno' & -> & _)].
  - rewrite Htok, Hpos in Hargs. rewrite Hargs in Hargs'.
    injection Hargs' as _ <-. by rewrite Htok.
  - by apply (callSite_cursor p q) in Hcall; [apply Hno' in Hcall|].
  - by apply (callSite_cursor q p) in Hcall'; [apply Hno in Hcall'|].
  - by rewrite Hpos.
Qed.

Lemma register_lookup (name : string) (args : list string) (line : Z)
    (table : gmap string FunctionSignature) :
  is_Some (register name args line table !! name).
Proof.
  unfold register. destruct (table !! name) eqn:H; [by rewrite H|].
  by rewrite lookup_insert_eq.
Qed.

Lemma register_mono (name : string) (args : list string) (line : Z)
    (table : gmap string FunctionSignature) (n : string) (sig : FunctionSignature) :
  table !! n = Some sig → register name args line table !! n = Some sig.
Proof.
  intros H. unfold register. destruct (table !! name) eqn:Hn; [done|].
  rewrite lookup_insert_ne; [done|]. by intros ->; simplify_eq.
Qed.

Lemma statements_S (fuel : nat) (b : bool) (k : nat) (p : Parser) :
  statements fuel b (S k) p =
  if more p then parseStatement fuel b p ≫= statements fuel b k else None.
Proof.
  revert p. induction k as [|k IH]; intros p.
  - simpl. destruct (more p); [|done]. by destruct (parseStatement fuel b p).
  - change (statements fuel b (S (S k)) p) with
      (statements fuel b (S k) p ≫=
        (λ p', if more p' then parseStatement fuel b p' else None)).
    rewrite IH. destruct (more p); [|done].
    destruct (parseStatement fuel b p) as [p1|]; [|done]. done.
Qed.

Lemma statements_add (fuel : nat) (b : bool) (j k : nat) (p : Parser) :
  statements fuel b (k + j) p = statements fuel b j p ≫= statements fuel b k.
Proof.
  induction k as [|k IH]; simpl.
  - by destruct (statements fuel b j p).
  - rewrite IH. by destruct (statements fuel b j p).
Qed.

(** The loop of a pass stops after some number of statements. *)
Lemma while_statements (fuel f : nat) (b : bool) (p r : Parser) :
  while f more (parseStatement fuel b) p = Some r →
  ∃ k, statements fuel b k p = Some r ∧ more r = false.
Proof.
  revert p. induction f as [|f IH]; intros p H; [done|].
  simpl in H. destruct (more p) eqn:Hmore.
  - destruct (parseStatement fuel b p) as [p1|] eqn:Hp1; [|done]. simpl in H.
    destruct (IH p1 H) as (k & Hk & Hr). exists (S k).
    by rewrite statements_S, Hmore, Hp1.
  - simplify_eq. by exists 0%nat.
Qed.

(** The states of a pass: same tokens, no indentation, the cursor moved
    forward by at least one token per statement. *)
Lemma statements_frame (fuel : nat) (b : bool) (k : nat) (p0 p : Parser) :
  (length (tokens p0) < fuel)%nat → indentLevel p0 = 0 →
  statements fuel b k p0 = Some p →
  tokens p = tokens p0 ∧ indentLevel p = 0 ∧
  (position p0 + k ≤ position p)%nat ∧
  (b = false → functionTable p = functionTable p0) ∧
  (∀ n sig, functionTable p0 !! n = Some sig → functionTable p !! n = Some sig).
Proof.
  intros Hfuel Hindent. revert p. induction k as [|k IH]; intros p H.
  - simpl in H. simplify_eq. split_and!; try done. lia.
  - simpl in H. destruct (statements fuel b k p0) as [p1|]; [|done]. simpl in H.
    destruct (IH p1 eq_refl) as (Ht & Hi & Hpos & Htab & Hmono).
    destruct (more p1) eqn:Hmore; [|done].
    destruct (step_spec fuel b p1 Hmore ltac:(rewrite Ht; lia) Hi)
      as (p2 & Hp2 & Ht2 & Hi2 & Hpos2 & Hcase).
    rewrite H in Hp2. simplify_eq. split_and!; [congruence|done|lia| |].
    + intros ->. rewrite <- Htab by done.
      by destruct Hcase as [(?&?&?&?&?&?&?&?)|(?&?&?)].
    + intros n sig Hn%Hmono.
      destruct Hcase as [(?&?&?&?&?&?&->&?)|(?&?&->)]; [|done].
      destruct b; [|done]. by apply register_mono.
Qed.

(** Both passes end. *)
Lemma pass_total (fuel : nat) (b : bool) (p0 : Parser) :
  (length (tokens p0) < fuel)%nat → indentLevel p0 = 0 →
  ∃ p1, while fuel more (parseStatement fuel b) p0 = Some p1 ∧ more p1 = false.
Proof.
  intros Hfuel Hindent.
  destruct (while_rule (λ p, tokens p = tokens p0 ∧ indentLevel p = 0)
    (λ p, length (tokens p0) - position p)%nat more (parseStatement fuel b))
    with (fuel := fuel) (s := p0) as (p1 & Hrun & _ & Hmore); [|done|lia|eauto].
  intros p [Ht Hi] Hmore.
  destruct (step_spec fuel b p Hmore ltac:(rewrite Ht; lia) Hi)
    as (p2 & Hp2 & Ht2 & Hi2 & Hpos2 & _).
  exists p2. split_and!; [done|congruence|done|]. rewrite Ht in Hpos2. lia.
Qed.

(** Pass 1 and pass 2 go through the same cursors. *)
Lemma lockstep (fuel : nat) (k : nat) (p0 q0 q : Parser) :
  (length (tokens p0) < fuel)%nat → indentLevel p0 = 0 → indentLevel q0 = 0 →
  cursor p0 = cursor q0 →
  statements fuel false k q0 = Some q →
  ∃ p, statements fuel true k p0 = Some p ∧ cursor p = cursor q.
Proof.
  intros Hfuel Hip Hiq Hc. revert q. induction k as [|k IH]; intros q H.
  - simpl in H. injection H as <-. by exists p0.
  - simpl in H. destruct (statements fuel false k q0) as [q1|] eqn:Hq1; [|done].
    simpl in H. destruct (IH q1 eq_refl) as (p1 & Hp1 & Hc1).
    destruct (more q1) eqn:Hmore; [|done].
    assert (more p1 = true) as Hmorep by (unfold more; by rewrite (peek_cursor p1 q1 Hc1)).
    destruct (statements_frame fuel true k p0 p1 Hfuel Hip Hp1) as (Ht & Hi & _).
    assert (tokens q0 = tokens p0) as Htq by (unfold cursor in Hc; congruence).
    destruct (statements_frame fuel false k q0 q1 ltac:(by rewrite Htq) Hiq Hq1)
      as (Ht' & Hi' & _).
    destruct (step_spec fuel true p1 Hmorep ltac:(rewrite Ht; lia) Hi)
      as (p2 & Hp2 & _).
    exists p2. simpl. rewrite Hp1. simpl. rewrite Hmorep. split; [done|].
    eapply (step_cursor fuel true false p1 q1); try done. rewrite Ht. lia.
Qed.

(** More fuel does not change a result. *)
Lemma collectArguments_mono (fuel fuel' : nat) (p : Parser) r :
  (fuel ≤ fuel')%nat →
  collectArguments fuel p = Some r → collectArguments fuel' p = Some r.
Proof. intros Hle. by apply while_mono. Qed.

Lemma parseStatement_mono (fuel fuel' : nat) (b : bool) (p r : Parser) :
  (fuel ≤ fuel')%nat →
  parseStatement fuel b p = Some r → parseStatement fuel' b p = Some r.
Proof.
  intros Hle. unfold parseStatement.
  destruct (_ && _); [|done]. destruct b.
  - unfold detectFunctionCall. destruct (advance p) as [t p1].
    case_bool_decide; [|done].
    destruct (collectArguments fuel _) as [[a x]|] eqn:Hc; [|done].
    by rewrite (collectArguments_mono _ _ _ _ Hle Hc).
  - unfold validateFunctionCall. destruct (advance p) as [t p1].
    case_bool_decide; [|done].
    destruct (collectArguments fuel _) as [[a x]|] eqn:Hc; [|done].
    by rewrite (collectArguments_mono _ _ _ _ Hle Hc).
Qed.

Lemma firstPass_mono (fuel fuel' : nat) (p r : Parser) :
  (fuel ≤ fuel')%nat → firstPass fuel p = Some r → firstPass fuel' p = Some r.
Proof.
  intros Hle. apply while_mono; [done|]. intros ??. by apply parseStatement_mono.
Qed.

Lemma secondPass_mono (fuel fuel' : nat) (p : Parser) r :
  (fuel ≤ fuel')%nat → secondPass fuel p = Some r → secondPass fuel' p = Some r.
Proof.
  intros Hle. unfold secondPass.
  destruct (while fuel _ _ _) as [q|] eqn:Hq; [|done].
  rewrite (while_mono _ _ (parseStatement fuel' false) fuel fuel' Hle
             (λ s r, parseStatement_mono fuel fuel' false s r Hle) _ _ Hq). done.
Qed.

End ParserFacts.

Section LexerFacts.

Import Lexer.

Lemma skipWhitespace_mono (fuel fuel' : nat) (l r : Lexer) :
  (fuel ≤ fuel')%nat → skipWhitespace fuel l = Some r → skipWhitespace fuel' l = Some r.
Proof. intros Hle. by apply while_mono. Qed.

Lemma handleIdentifierOrKeyword_mono (fuel fuel' : nat) (l : Lexer) r :
  (fuel ≤ fuel')%nat →
  handleIdentifierOrKeyword fuel l = Some r → handleIdentifierOrKeyword fuel' l = Some r.
Proof.
  intros Hle. unfold handleIdentifierOrKeyword.
  destruct (while fuel _ _ _) as [[v x]|] eqn:Hw; [|done].
  by rewrite (while_mono _ _ take1 fuel fuel' Hle (λ _ _ H, H) _ _ Hw).
Qed.

Lemma handleLiteral_mono (fuel fuel' : nat) (l : Lexer) r :
  (fuel ≤ fuel')%nat → handleLiteral fuel l = Some r → handleLiteral fuel' l = Some r.
Proof.
  intros Hle. unfold handleLiteral.
  destruct (while fuel _ _ _) as [[v x]|] eqn:Hw; [|done].
  by rewrite (while_mono _ _ take1 fuel fuel' Hle (λ _ _ H, H) _ _ Hw).
Qed.

Lemma handleStringLiteral_mono (fuel fuel' : nat) (l : Lexer) r :
  (fuel ≤ fuel')%nat →
  handleStringLiteral fuel l = Some r → handleStringLiteral fuel' l = Some r.
Proof.
  intros Hle. unfold handleStringLiteral.
  destruct (while fuel _ _ _) as [[v x]|] eqn:Hw; [|done].
  by rewrite (while_mono _ _ take1 fuel fuel' Hle (λ _ _ H, H) _ _ Hw).
Qed.

Lemma tokenizeStep_mono (fuel fuel' : nat) (s r : list Token * Lexer) :
  (fuel ≤ fuel')%nat → tokenizeStep fuel s = Some r → tokenizeStep fuel' s = Some r.
Proof.
  intros Hle. unfold tokenizeStep.
  destruct (skipWhitespace fuel s.2) as [l|] eqn:Hl; [|done].
  rewrite (skipWhitespace_mono _ _ _ _ Hle Hl). simpl.
  destruct (isalpha (peek l) || ascii_eqb (peek l) underscore).
  { destruct (handleIdentifierOrKeyword fuel l) as [[t x]|] eqn:H; [|done].
    by rewrite (handleIdentifierOrKeyword_mono _ _ _ _ Hle H). }
  destruct (isdigit (peek l)).
  { destruct (handleLiteral fuel l) as [[t x]|] eqn:H; [|done].
    by rewrite (handleLiteral_mono _ _ _ _ Hle H). }
  destruct (ascii_eqb (peek l) dquote).
  { destruct (handleStringLiteral fuel l) as [[t x]|] eqn:H; [|done].
    by rewrite (handleStringLiteral_mono _ _ _ _ Hle H). }
  done.
Qed.

Lemma tokenize_mono (fuel fuel' : nat) (l : Lexer) r :
  (fuel ≤ fuel')%nat → tokenize fuel l = Some r → tokenize fuel' l = Some r.
Proof.
  intros Hle. unfold tokenize.
  destruct (while fuel _ _ _) as [[ts x]|] eqn:Hw; [|done].
  by rewrite (while_mono _ _ (tokenizeStep fuel') fuel fuel' Hle
                (λ s r, tokenizeStep_mono fuel fuel' s r Hle) _ _ Hw).
Qed.

End LexerFacts.

(** ** The whole program *)

Section ProgramFacts.

Variable entries : gmap string string → list (string * string).
Hypothesis entries_order : iteration_order entries.

Lemma entries_empty : entries ∅ = [].
Proof.
  apply Permutation_nil_r. rewrite (entries_order ∅). by rewrite map_to_list_empty.
Qed.

Lemma processLines_plain (fuel : nat) (lines acc : list string) :
  forallb (λ l, negb (Preprocessor.isDefine l)) lines = true →
  Preprocessor.processLines entries fuel lines ∅ (unlines acc)
  = Some (unlines (acc ++ lines), ∅).
Proof.
  revert acc. induction lines as [|l lines IH]; intros acc H; simpl in *.
  - by rewrite app_nil_r.
  - apply andb_prop in H as [Hl H]. apply negb_true_iff in Hl. rewrite Hl.
    rewrite entries_empty. simpl.
    replace (unlines acc +:+ l +:+ endl) with (unlines (acc ++ [l]))
      by (rewrite unlines_app; simpl; by rewrite string_app_nil_r).
    rewrite IH by done. by rewrite <- (assoc_L (++)).
Qed.

(** Without directives the expander returns the lines as they are. *)
Lemma process_plain (fuel : nat) (sourceCode : string) :
  plain sourceCode = true →
  Preprocessor.process entries fuel sourceCode ∅
  = Some (unlines (getlines sourceCode), ∅).
Proof. intros H. by apply (processLines_plain fuel _ []). Qed.

Lemma process_mono (fuel fuel' : nat) (input : string) (m : gmap string string) r :
  (fuel ≤ fuel')%nat →
  Preprocessor.process entries fuel input m = Some r →
  Preprocessor.process entries fuel' input m = Some r.
Proof. apply processLines_mono. Qed.

Lemma main_mono (fuel fuel' : nat) (sourceCode : string) r :
  (fuel ≤ fuel')%nat →
  main entries fuel sourceCode = Some r → main entries fuel' sourceCode = Some r.
Proof.
  intros Hle. unfold main.
  destruct (Preprocessor.process entries fuel _ _) as [[pre m]|] eqn:H1; [|done].
  rewrite (process_mono _ _ _ _ _ Hle H1). simpl.
  destruct (Lexer.tokenize fuel _) as [ts|] eqn:H2; [|done].
  rewrite (tokenize_mono _ _ _ _ Hle H2). simpl.
  destruct (Parser.firstPass fuel _) as [p|] eqn:H3; [|done].
  rewrite (firstPass_mono _ _ _ _ Hle H3). simpl.
  destruct (Parser.secondPass fuel _) as [[out q]|] eqn:H4; [|done].
  by rewrite (secondPass_mono _ _ _ _ Hle H4).
Qed.

Lemma callTable_mono (fuel fuel' : nat) (sourceCode : string) r :
  (fuel ≤ fuel')%nat →
  callTable entries fuel sourceCode = Some r →
  callTable entries fuel' sourceCode = Some r.
Proof.
  intros Hle. unfold callTable.
  destruct (Preprocessor.process entries fuel _ _) as [[pre m]|] eqn:H1; [|done].
  rewrite (process_mono _ _ _ _ _ Hle H1). simpl.
  destruct (Lexer.tokenize fuel _) as [ts|] eqn:H2; [|done].
  rewrite (tokenize_mono _ _ _ _ Hle H2). simpl.
  destruct (Parser.firstPass fuel _) as [p|] eqn:H3; [|done].
  by rewrite (firstPass_mono _ _ _ _ Hle H3).
Qed.

Lemma firstPassOutput_mono (fuel fuel' : nat) (sourceCode : string) r :
  (fuel ≤ fuel')%nat →
  firstPassOutput entries fuel sourceCode = Some r →
  firstPassOutput entries fuel' sourceCode = Some r.
Proof.
  intros Hle. unfold firstPassOutput.
  destruct (Preprocessor.process entries fuel _ _) as [[pre m]|] eqn:H1; [|done].
  rewrite (process_mono _ _ _ _ _ Hle H1). simpl.
  destruct (Lexer.tokenize fuel _) as [ts|] eqn:H2; [|done].
  rewrite (tokenize_mono _ _ _ _ Hle H2). simpl.
  destruct (Parser.firstPass fuel _) as [p|] eqn:H3; [|done].
  by rewrite (firstPass_mono _ _ _ _ Hle H3).
Qed.

End ProgramFacts.

(** On a source text without directives the iteration order of the (empty)
    table plays no part. *)
Lemma main_plain (entries : gmap string string → list (string * string))
    (fuel : nat) (sourceCode : string) :
  iteration_order entries → plain sourceCode = true →
  main entries fuel sourceCode = main map_to_list fuel sourceCode.
Proof.
  intros Ho Hp. unfold main.
  rewrite (process_plain entries Ho) by done.
  by rewrite (process_plain map_to_list) by (done || by intros ?).
Qed.

Lemma callTable_plain (entries : gmap string string → list (string * string))
    (fuel : nat) (sourceCode : string) :
  iteration_order entries → plain sourceCode = true →
  callTable entries fuel sourceCode = callTable map_to_list fuel sourceCode.
Proof.
  intros Ho Hp. unfold callTable.
  rewrite (process_plain entries Ho) by done.
  by rewrite (process_plain map_to_list) by (done || by intros ?).
Qed.

Lemma firstPassOutput_plain (entries : gmap string string → list (string * string))
    (fuel : nat) (sourceCode : string) :
  iteration_order entries → plain sourceCode = true →
  firstPassOutput entries fuel sourceCode = firstPassOutput map_to_list fuel sourceCode.
Proof.
  intros Ho Hp. unfold firstPassOutput.
  rewrite (process_plain entries Ho) by done.
  by rewrite (process_plain map_to_list) by (done || by intros ?).
Qed.

(** ** The two passes over one token sequence *)

Section Passes.

Import Parser.

Variable ts : list Token.
Variable fuel : nat.
Hypothesis enough : (length ts < fuel)%nat.

Lemma statements_le (b : bool) (j k : nat) (p0 p : Parser) :
  (j ≤ k)%nat → statements fuel b k p0 = Some p →
  ∃ pj, statements fuel b j p0 = Some pj ∧ statements fuel b (k - j) pj = Some p.
Proof.
  intros Hle H. replace k with ((k - j) + j)%nat in H by lia.
  rewrite statements_add in H.
  destruct (statements fuel b j p0) as [pj|]; [|done]. eauto.
Qed.

Lemma statements_stop (b : bool) (k : nat) (p r : Parser) :
  more p = false → statements fuel b k p = Some r → k = 0%nat ∧ r = p.
Proof.
  intros Hmore H. destruct k as [|k].
  - simpl in H. by injection H as <-.
  - rewrite statements_S, Hmore in H. done.
Qed.

(** A state from which the pass goes on comes before the final state. *)
Lemma before_end (b : bool) (k K : nat) (p0 p p1 : Parser) :
  statements fuel b K p0 = Some p1 → more p1 = false →
  statements fuel b k p0 = Some p → more p = true → (k < K)%nat.
Proof.
  intros HK Hend Hk Hmore. destruct (decide (k < K)%nat) as [|Hge]; [done|].
  destruct (statements_le b K k p0 p ltac:(lia) Hk) as (pK & HpK & Hrest).
  rewrite HK in HpK. injection HpK as <-.
  destruct (statements_stop b _ _ _ Hend Hrest) as [_ ->]. congruence.
Qed.

Lemma pass_frame (b : bool) (k : nat) (p0 p : Parser) :
  tokens p0 = ts → indentLevel p0 = 0 →
  statements fuel b k p0 = Some p →
  tokens p = ts ∧ indentLevel p = 0 ∧
  (b = false → functionTable p = functionTable p0).
Proof.
  intros Ht Hi H.
  destruct (statements_frame fuel b k p0 p ltac:(by rewrite Ht) Hi H)
    as (? & ? & _ & ? & _). split_and!; [congruence|done|done].
Qed.

(** Entries of the table are never removed nor changed in pass 1. *)
Lemma table_mono (j k : nat) (p0 a c : Parser) (n : string) (sig : FunctionSignature) :
  tokens p0 = ts → indentLevel p0 = 0 → (j ≤ k)%nat →
  statements fuel true j p0 = Some a → statements fuel true k p0 = Some c →
  functionTable a !! n = Some sig → functionTable c !! n = Some sig.
Proof.
  intros Ht Hi Hle Ha Hc Hn.
  destruct (statements_le true j k p0 c Hle Hc) as (a' & Ha' & Hrest).
  rewrite Ha in Ha'. injection Ha' as <-.
  destruct (pass_frame true j p0 a Ht Hi Ha) as (Hta & Hia & _).
  destruct (statements_frame fuel true _ a c ltac:(by rewrite Hta) Hia Hrest)
    as (_ & _ & _ & _ & Hmono). by apply Hmono.
Qed.

(** Pass 1 ends, after some number of statements. *)
Lemma firstPass_statements :
  ∃ p1 K, firstPass fuel (new ts) = Some p1 ∧
    statements fuel true K (new ts) = Some p1 ∧ more p1 = false ∧
    tokens p1 = ts ∧ indentLevel p1 = 0.
Proof.
  destruct (pass_total fuel true (new ts) enough eq_refl) as (p1 & Hrun & Hmore).
  destruct (while_statements _ _ _ _ _ Hrun) as (K & HK & _).
  destruct (pass_frame true K (new ts) p1 eq_refl eq_refl HK) as (? & ? & _).
  by exists p1, K.
Qed.

(** Pass 1 on a call: the name is in the table afterwards. *)
Lemma pass1_call (k : nat) (p : Parser) (name : string) :
  statements fuel true k (new ts) = Some p → callSite p name →
  ∃ args end_ p',
    argumentsAt fuel ts (S (S (position p))) = Some (args, end_) ∧
    statements fuel true (S k) (new ts) = Some p' ∧
    functionTable p' =
      register name args (Token.line (peek p)) (functionTable p).
Proof.
  intros Hk Hcall.
  destruct (pass_frame true k (new ts) p eq_refl eq_refl Hk) as (Ht & Hi & _).
  destruct (callSite_tokens p name Hcall) as (_ & _ & _ & _ & Hmore).
  destruct (step_spec fuel true p Hmore ltac:(rewrite Ht; lia) Hi)
    as (p' & Hp' & _ & _ & _ & Hcase).
  destruct Hcase as [(name' & args & end_ & Hcall' & Hargs & _ & Htab & _)|(Hno & _)];
    [|by apply Hno in Hcall].
  assert (name' = name) as -> by (destruct Hcall as (_&<-&_), Hcall' as (_&<-&_); done).
  exists args, end_, p'. rewrite Ht in Hargs. split_and!; [done| |done].
  simpl. rewrite Hk. simpl. by rewrite Hmore.
Qed.

Lemma register_inv (name name' : string) (args : list string) (line : Z)
    (table : gmap string FunctionSignature) (sig : FunctionSignature) :
  register name' args line table !! name = Some sig →
  table !! name = Some sig ∨
  (table !! name = None ∧ name = name' ∧ sig = FunctionSignature.mk name' args line).
Proof.
  unfold register. destruct (table !! name') eqn:Hn'; [auto|].
  destruct (decide (name' = name)) as [->|Hne].
  - rewrite lookup_insert_eq. intros [= <-]. auto.
  - rewrite lookup_insert_ne by done. auto.
Qed.

(** Every entry of the table comes from a call that pass 1 processed when
    the name had no entry yet. *)
Lemma pass1_table (k : nat) (p : Parser) (name : string) (sig : FunctionSignature) :
  statements fuel true k (new ts) = Some p →
  functionTable p !! name = Some sig →
  ∃ j site args end_,
    (j < k)%nat ∧ statements fuel true j (new ts) = Some site ∧
    callSite site name ∧ functionTable site !! name = None ∧
    argumentsAt fuel ts (S (S (position site))) = Some (args, end_) ∧
    sig = FunctionSignature.mk name args (Token.line (peek site)).
Proof.
  revert p. induction k as [|k IH]; intros p Hk Hsig.
  - simpl in Hk. injection Hk as <-. simpl in Hsig. by rewrite lookup_empty in Hsig.
  - simpl in Hk. destruct (statements fuel true k (new ts)) as [q|] eqn:Hq; [|done].
    simpl in Hk. destruct (more q) eqn:Hmore; [|done].
    destruct (pass_frame true k (new ts) q eq_refl eq_refl Hq) as (Ht & Hi & _).
    destruct (step_spec fuel true q Hmore ltac:(rewrite Ht; lia) Hi)
      as (p' & Hp' & _ & _ & _ & Hcase).
    rewrite Hk in Hp'. injection Hp' as <-.
    assert (functionTable q !! name = Some sig →
            ∃ j site args end_,
              (j < S k)%nat ∧ statements fuel true j (new ts) = Some site ∧
              callSite site name ∧ functionTable site !! name = None ∧
              argumentsAt fuel ts (S (S (position site))) = Some (args, end_) ∧
              sig = FunctionSignature.mk name args (Token.line (peek site))) as Hold.
    { intros Hn. destruct (IH q eq_refl Hn) as (j & site & args & end_ & Hj & Hrest).
      exists j, site, args, end_. split; [lia|done]. }
    destruct Hcase as [(name' & args & end_ & Hcall & Hargs & _ & Htab & _)|(_ & _ & Htab)].
    + rewrite Htab in Hsig. apply register_inv in Hsig as [Hn|(Hnone & -> & ->)]; [auto|].
      exists k, q, args, end_. rewrite Ht in Hargs. split_and!; try done. lia.
    + rewrite Htab in Hsig. auto.
Qed.

(** Pass 2 ends, after some number of statements, and returns the buffer. *)
Lemma secondPass_statements (p1 : Parser) :
  tokens p1 = ts → indentLevel p1 = 0 →
  ∃ K q, secondPass fuel p1 = Some (formattedCode q, q) ∧
    statements fuel false K (set_position 0 p1) = Some q ∧ more q = false.
Proof.
  intros Ht Hi.
  destruct (pass_total fuel false (set_position 0 p1)) as (q & Hrun & Hmore);
    [simpl; by rewrite Ht|done|].
  destruct (while_statements _ _ _ _ _ Hrun) as (K & HK & _).
  exists K, q. unfold secondPass. by rewrite Hrun.
Qed.

(** Pass 2 on a call: the table is the one pass 1 left, it has the name, and
    the statement writes the opening line, the diagnostics and the closing
    line. *)
Lemma pass2_call (p1 : Parser) (k : nat) (q : Parser) (name : string) :
  firstPass fuel (new ts) = Some p1 →
  statements fuel false k (set_position 0 p1) = Some q →
  callSite q name →
  tokens q = ts ∧ functionTable q = functionTable p1 ∧
  is_Some (functionTable p1 !! name) ∧
  ∃ args end_ q',
    argumentsAt fuel ts (S (S (position q))) = Some (args, end_) ∧
    parseStatement fuel false q = Some q' ∧
    formattedCode q' =
      formattedCode q +:+ name +:+ " (" +:+ endl +:+
      diagnostics ts end_ name args (Token.line (peek q)) (functionTable p1) +:+
      ");" +:+ endl.
Proof.
  intros Hp1 Hq Hcall.
  destruct firstPass_statements as (p1' & K & Hp1' & HK & Hend & Ht1 & Hi1).
  rewrite Hp1 in Hp1'. injection Hp1' as <-.
  destruct (pass_frame false k (set_position 0 p1) q Ht1 Hi1 Hq) as (Ht & Hi & Htab).
  specialize (Htab eq_refl). simpl in Htab.
  destruct (callSite_tokens q name Hcall) as (_ & _ & _ & _ & Hmore).
  split_and!; [done|done| |].
  - destruct (lockstep fuel k (new ts) (set_position 0 p1) q enough eq_refl Hi1)
      as (p & Hp & Hc); [unfold cursor; simpl; by rewrite Ht1|done|].
    apply (callSite_cursor q p) in Hcall; [|done].
    destruct (pass1_call k p name Hp Hcall) as (args & end_ & p' & _ & Hp' & Htab').
    destruct (callSite_tokens p name Hcall) as (_ & _ & _ & _ & Hmorep).
    pose proof (before_end true k K (new ts) p p1 HK Hend Hp Hmorep) as Hlt.
    destruct (register_lookup name args (Token.line (peek p)) (functionTable p))
      as [sig Hsig].
    rewrite <- Htab' in Hsig. exists sig.
    by apply (table_mono (S k) K (new ts) p' p1 name sig eq_refl eq_refl ltac:(lia)).
  - destruct (step_spec fuel false q Hmore ltac:(rewrite Ht; lia) Hi)
      as (q' & Hq' & _ & _ & _ & Hcase).
    destruct Hcase as [(name' & args & end_ & Hcall' & Hargs & _ & _ & Hout)|(Hno & _)];
      [|by apply Hno in Hcall].
    assert (name' = name) as -> by (destruct Hcall as (_&<-&_), Hcall' as (_&<-&_); done).
    exists args, end_, q'. rewrite Ht, Htab in *. split_and!; [done|done|].
    by apply Hout.
Qed.

End Passes.

(** ** The argument list of a call *)












(** ** The tokenizer *)

Section TokenizerFacts.

Import Lexer.

Lemma get_chars (n : nat) (s : string) : String.get n s = chars s !! n.
Proof. revert n. induction s as [|c s IH]; intros [|n]; simpl; auto. Qed.

Lemma peek_rest (l : Lexer) : peek l = default nul (head (rest l)).
Proof.
  unfold peek, rest. rewrite get_chars, head_lookup, lookup_drop.
  by rewrite Nat.add_0_r.
Qed.

Lemma rest_advance (l : Lexer) : rest (advance l).2 = drop 1 (rest l).
Proof. unfold rest, advance. simpl. by rewrite drop_drop, Nat.add_1_r. Qed.

Lemma newlines_cons (c : ascii) (w : list ascii) :
  newlines (c :: w) = (if ascii_eqb c newline then 1 else 0) + newlines w.
Proof.
  unfold newlines, ascii_eqb. rewrite filter_cons.
  case_bool_decide; case_decide; try done; simpl; lia.
Qed.

Lemma texts_app (a b : list Token) : texts (a ++ b) = texts a +:+ texts b.
Proof. induction a as [|t a IH]; simpl; [done|]. by rewrite IH, string_app_assoc. Qed.

Lemma newlines_app (a b : list ascii) : newlines (a ++ b) = newlines a + newlines b.
Proof. unfold newlines. rewrite filter_app, length_app. lia. Qed.

Lemma newlines_nonneg (a : list ascii) : 0 ≤ newlines a.
Proof. unfold newlines. lia. Qed.

Lemma wrap_range (z : Z) : -2147483648 ≤ wrap z ≤ INT_MAX.
Proof. unfold wrap, INT_MAX. pose proof (Z.mod_pos_bound (z + 2147483648) 4294967296). lia. Qed.

Lemma wrap_small (z : Z) : -2147483648 ≤ z ≤ INT_MAX → wrap z = z.
Proof. unfold wrap, INT_MAX. intros H. rewrite Z.mod_small; lia. Qed.

Lemma wrap_add (a b : Z) : wrap (wrap a + b) = wrap (a + b).
Proof.
  unfold wrap.
  replace ((a + 2147483648) mod 4294967296 - 2147483648 + b + 2147483648)
    with ((a + 2147483648) mod 4294967296 + b) by lia.
  rewrite Zplus_mod_idemp_l. do 2 f_equal. lia.
Qed.

(** One more line at [INT_MAX] takes the counter to [INT_MIN]. *)
Lemma lineAfter_overflow : lineAfter INT_MAX [newline] = -2147483648.
Proof. reflexivity. Qed.

Lemma lineAfter_app (z : Z) (a b : list ascii) :
  lineAfter z (a ++ b) = lineAfter (lineAfter z a) b.
Proof. apply foldl_app. Qed.

(** The counter after a run of characters: the lines counted, as an
    [int]. *)
Lemma lineAfter_wrap (z : Z) (w : list ascii) :
  -2147483648 ≤ z ≤ INT_MAX → lineAfter z w = wrap (z + newlines w).
Proof.
  revert z. induction w as [|c w IH]; intros z Hz.
  - change (newlines []) with 0. rewrite Z.add_0_r. by rewrite wrap_small.
  - cbn [lineAfter foldl]. fold (lineAfter (if ascii_eqb c newline then wrap (z + 1) else z) w).
    rewrite newlines_cons. destruct (ascii_eqb c newline).
    + rewrite IH by apply wrap_range. rewrite wrap_add. f_equal. lia.
    + rewrite IH by done. f_equal.
Qed.

(** As long as the counter stays below [INT_MAX] it is the number of lines
    counted. *)
Lemma lineAfter_small (z : Z) (w : list ascii) :
  -2147483648 ≤ z → z + newlines w ≤ INT_MAX → lineAfter z w = z + newlines w.
Proof.
  intros Hz Hw. pose proof (newlines_nonneg w).
  rewrite lineAfter_wrap by lia. apply wrap_small. lia.
Qed.

(** A step of [advance] on a lexer that has a character to read. *)
Lemma advance_cons (l : Lexer) (c : ascii) (r : list ascii) :
  rest l = c :: r →
  peek l = c ∧ rest (advance l).2 = r ∧
  input (advance l).2 = input l ∧
  position (advance l).2 = S (position l) ∧
  line (advance l).2 = lineAfter (line l) [c] ∧
  (position l < String.length (input l))%nat.
Proof.
  intros Hr. assert (peek l = c) as Hpeek by (by rewrite peek_rest, Hr).
  split_and!; try done.
  - by rewrite rest_advance, Hr.
  - unfold advance. simpl. by rewrite Hpeek.
  - unfold rest in Hr. rewrite <- chars_length.
    destruct (decide (position l < length (chars (input l)))%nat); [done|].
    rewrite drop_ge in Hr by lia. done.
Qed.

Lemma take1_eq (v : string) (l : Lexer) :
  take1 (v, l) = Some (v +:+ string1 (peek l), (advance l).2).
Proof. done. Qed.

(** The scanning loops: while the next character satisfies [cond], append it
    to [value].  The loop ends and has moved a run [w] of such characters
    from the text to [value]. *)
Lemma scan_spec (cond : ascii → bool) :
  cond nul = false →
  ∀ (fuel : nat) (v : string) (l : Lexer),
    (String.length (input l) - position l < fuel)%nat →
    ∃ w l',
      while fuel (λ s, cond (peek s.2)) take1 (v, l)
      = Some (v +:+ String.string_of_list_ascii w, l') ∧
      input l' = input l ∧ rest l = w ++ rest l' ∧
      (position l' = position l + length w)%nat ∧
      line l' = lineAfter (line l) w ∧
      Forall (λ c, cond c = true) w ∧ cond (peek l') = false.
Proof.
  intros Hnul fuel. induction fuel as [|fuel IH]; intros v l Hfuel; [lia|].
  cbn [while snd]. destruct (cond (peek l)) eqn:Hcond.
  - destruct (rest l) as [|c r] eqn:Hr.
    { rewrite peek_rest, Hr in Hcond. simpl in Hcond. congruence. }
    destruct (advance_cons l c r Hr) as (Hpeek & Hrest & Hin & Hpos & Hline & Hlt).
    rewrite take1_eq, Hpeek. cbn [mbind option_bind].
    destruct (IH (v +:+ string1 c) (advance l).2)
      as (w & l' & Hrun & Hin' & Hrest' & Hpos' & Hline' & Hall & Hend).
    { rewrite Hin, Hpos. lia. }
    exists (c :: w), l'. split_and!.
    + rewrite Hrun. do 2 f_equal. by rewrite string_app_assoc.
    + congruence.
    + rewrite Hrest in Hrest'. by rewrite Hrest'.
    + simpl. lia.
    + by rewrite Hline', Hline.
    + constructor; [congruence|done].
    + done.
  - exists [], l. simpl. rewrite string_app_nil_r. split_and!; done || lia.
Qed.

Lemma skipWhitespace_spec (fuel : nat) (l : Lexer) :
  (String.length (input l) - position l < fuel)%nat →
  ∃ w l',
    skipWhitespace fuel l = Some l' ∧
    input l' = input l ∧ rest l = w ++ rest l' ∧
    (position l' = position l + length w)%nat ∧
    line l' = lineAfter (line l) w ∧
    Forall (λ c, isspace c = true) w.
Proof.
  unfold skipWhitespace. revert l.
  induction fuel as [|fuel IH]; intros l Hfuel; [lia|].
  cbn [while]. destruct (isspace (peek l)) eqn:Hcond.
  - destruct (rest l) as [|c r] eqn:Hr.
    { rewrite peek_rest, Hr in Hcond. done. }
    destruct (advance_cons l c r Hr) as (Hpeek & Hrest & Hin & Hpos & Hline & Hlt).
    cbn [mbind option_bind].
    destruct (IH (advance l).2) as (w & l' & Hrun & Hin' & Hrest' & Hpos' & Hline' & Hall).
    { rewrite Hin, Hpos. lia. }
    exists (c :: w), l'. split_and!.
    + done.
    + congruence.
    + rewrite Hrest in Hrest'. by rewrite Hrest'.
    + simpl. lia.
    + by rewrite Hline', Hline.
    + constructor; [congruence|done].
  - exists [], l. simpl. split_and!; done || lia.
Qed.

Lemma reads_trans (l l' l'' : Lexer) (w w' : list ascii) :
  reads l l' w → reads l' l'' w' → reads l l'' (w ++ w').
Proof.
  intros (Hi & Hr & Hl) (Hi' & Hr' & Hl'). split_and!; [congruence| |].
  - by rewrite Hr, Hr', (assoc_L (++)).
  - by rewrite lineAfter_app, <- Hl, <- Hl'.
Qed.

Lemma reads_advance (l : Lexer) (c : ascii) (r : list ascii) :
  rest l = c :: r → reads l (advance l).2 [c].
Proof.
  intros Hr. destruct (advance_cons l c r Hr) as (_ & Hrest & Hin & _ & Hline & _).
  split_and!; [done|by rewrite Hrest|done].
Qed.

Lemma space_not_kept (c : ascii) : isspace c = true → kept c = false.
Proof. by destruct c as [[] [] [] [] [] [] [] []]. Qed.

Lemma space_not_visible (c : ascii) :
  isspace c = true → visible c = false ∧ ascii_eqb c dquote = false.
Proof. by destruct c as [[] [] [] [] [] [] [] []]. Qed.

Lemma spaces_not_kept (w : list ascii) :
  Forall (λ c, isspace c = true) w → filter (λ c, kept c) w = [].
Proof.
  induction 1 as [|c w Hc _ IH]; [done|].
  rewrite filter_cons, IH. by rewrite (space_not_kept c Hc).
Qed.

Lemma filter_kept_cons (c : ascii) (w : list ascii) :
  filter (λ c, kept c) (c :: w) =
  (if kept c then [c] else []) ++ filter (λ c, kept c) w.
Proof. rewrite filter_cons. by destruct (kept c). Qed.

Lemma chars_of_list (w : list ascii) : chars (String.string_of_list_ascii w) = w.
Proof. apply String.list_ascii_of_string_of_list_ascii. Qed.

(** What [stripped] does with a run of white space, with a run of
    letters, digits and punctuation, and with the inside of a string
    literal. *)
Lemma stripped_spaces (w r : list ascii) :
  Forall (λ c, isspace c = true) w → stripped false (w ++ r) = stripped false r.
Proof.
  induction 1 as [|c w Hc _ IH]; [done|]. cbn [app stripped].
  destruct (space_not_visible c Hc) as [-> ->]. exact IH.
Qed.

Lemma stripped_kept (w r : list ascii) :
  Forall (λ c, kept c = true) w → stripped false (w ++ r) = w ++ stripped false r.
Proof.
  induction 1 as [|c w Hc _ IH]; [done|]. cbn [app stripped].
  unfold kept in Hc. apply andb_true_iff in Hc as [Hv Hq].
  apply negb_true_iff in Hq. fold (visible c) in Hv. by rewrite Hq, Hv, IH.
Qed.

Lemma stripped_literal (w r : list ascii) :
  Forall (λ c, literalChar c = true) w → stripped true (w ++ r) = w ++ stripped true r.
Proof.
  induction 1 as [|c w Hc _ IH]; [done|]. cbn [app stripped].
  unfold literalChar in Hc. apply andb_true_iff in Hc as [Hq Hn].
  apply negb_true_iff in Hq, Hn. by rewrite Hq, Hn, IH.
Qed.

Lemma stripped_other (c : ascii) (r : list ascii) :
  visible c = false → stripped false (c :: r) = stripped false r.
Proof.
  intros Hv. cbn [stripped]. rewrite Hv.
  destruct (ascii_eqb c dquote) eqn:Hq; [|done].
  apply bool_decide_eq_true in Hq. by subst c.
Qed.

Lemma wordChar_kept (c : ascii) : wordChar c = true → kept c = true.
Proof. destruct c as [[] [] [] [] [] [] [] []]; vm_compute; congruence. Qed.

Lemma digit_kept (c : ascii) : isdigit c = true → kept c = true.
Proof. destruct c as [[] [] [] [] [] [] [] []]; vm_compute; congruence. Qed.

(** A scanning loop that starts on a character it takes. *)
Lemma scan_token (cond : ascii → bool) (fuel : nat) (l : Lexer) :
  cond nul = false → cond (peek l) = true →
  (String.length (input l) - position l < fuel)%nat →
  ∃ w l',
    while fuel (λ s, cond (peek s.2)) take1 ("", l)
    = Some (String.string_of_list_ascii w, l') ∧
    reads l l' w ∧ (position l < position l')%nat ∧ cond (peek l') = false ∧
    Forall (λ c, cond c = true) w.
Proof.
  intros Hnul Hcond Hfuel.
  destruct (scan_spec cond Hnul fuel "" l Hfuel)
    as (w & l' & Hrun & Hin & Hrest & Hpos & Hline & Hall & Hend).
  exists w, l'. split_and!; try done.
  destruct w as [|c w]; [|simpl in Hpos; lia].
  simpl in Hrest. rewrite peek_rest in Hcond, Hend. rewrite Hrest in Hcond. congruence.
Qed.

Lemma handleIdentifierOrKeyword_spec (fuel : nat) (l : Lexer) :
  isalnum (peek l) || ascii_eqb (peek l) underscore = true →
  (String.length (input l) - position l < fuel)%nat →
  ∃ t w l',
    handleIdentifierOrKeyword fuel l = Some (t, l') ∧
    Token.type t ≠ END_OF_FILE ∧
    chars (Token.value t) ++ stripped false (rest l') = stripped false (rest l) ∧
    reads l l' w ∧ (position l < position l')%nat.
Proof.
  intros Hcond Hfuel.
  destruct (scan_token wordChar fuel l eq_refl Hcond Hfuel)
    as (w & l' & Hrun & Hreads & Hpos & _ & Hall).
  assert (w ++ stripped false (rest l') = stripped false (rest l)) as Hs.
  { destruct Hreads as (_ & -> & _). symmetry. apply stripped_kept.
    eapply Forall_impl; [exact Hall|]. apply wordChar_kept. }
  unfold handleIdentifierOrKeyword. unfold wordChar in Hrun. rewrite Hrun.
  cbn [mbind option_bind].
  case_bool_decide; eexists _, w, l'; (split; [done|]); simpl;
    by rewrite chars_of_list.
Qed.

Lemma handleLiteral_spec (fuel : nat) (l : Lexer) :
  isdigit (peek l) = true →
  (String.length (input l) - position l < fuel)%nat →
  ∃ t w l',
    handleLiteral fuel l = Some (t, l') ∧
    Token.type t ≠ END_OF_FILE ∧
    chars (Token.value t) ++ stripped false (rest l') = stripped false (rest l) ∧
    reads l l' w ∧ (position l < position l')%nat.
Proof.
  intros Hcond Hfuel.
  destruct (scan_token isdigit fuel l eq_refl Hcond Hfuel)
    as (w & l' & Hrun & Hreads & Hpos & _ & Hall).
  assert (w ++ stripped false (rest l') = stripped false (rest l)) as Hs.
  { destruct Hreads as (_ & -> & _). symmetry. apply stripped_kept.
    eapply Forall_impl; [exact Hall|]. apply digit_kept. }
  unfold handleLiteral. rewrite Hrun. cbn [mbind option_bind].
  eexists _, w, l'. split; [done|]. simpl. by rewrite chars_of_list.
Qed.

Lemma handleSymbol_spec (l : Lexer) (c : ascii) (r : list ascii) :
  rest l = c :: r → ispunct c = true → ascii_eqb c dquote = false →
  ∃ t l',
    handleSymbol l = (t, l') ∧
    Token.type t ≠ END_OF_FILE ∧
    chars (Token.value t) ++ stripped false (rest l') = stripped false (rest l) ∧
    reads l l' [c] ∧ (position l < position l')%nat.
Proof.
  intros Hr Hp Hq. destruct (advance_cons l c r Hr) as (Hpeek & Hr' & _ & Hpos & _).
  pose proof (reads_advance l c r Hr) as Hreads.
  unfold handleSymbol. destruct (advance l) as [c' l'] eqn:Hadv.
  assert (c' = c) as -> by (unfold advance in Hadv; congruence).
  simpl in *. eexists _, l'. split; [done|]. simpl. split_and!; try done; [|lia].
  rewrite Hr, Hr'. cbn [stripped]. rewrite Hq. unfold visible. rewrite Hp.
  by rewrite orb_true_r.
Qed.

(** A string literal: the opening quote, a run without quote, and the
    closing quote if there is one; the text of the token is the run. *)
Lemma handleStringLiteral_spec (fuel : nat) (l : Lexer) (r : list ascii) :
  rest l = dquote :: r →
  (String.length (input l) - position l < fuel)%nat →
  ∃ t w l',
    handleStringLiteral fuel l = Some (t, l') ∧
    Token.type t ≠ END_OF_FILE ∧
    chars (Token.value t) ++ stripped false (rest l') = stripped false (rest l) ∧
    reads l l' w ∧ (position l < position l')%nat.
Proof.
  intros Hr Hfuel.
  destruct (advance_cons l dquote r Hr) as (_ & Hr0 & Hin & Hpos & _).
  pose proof (reads_advance l dquote r Hr) as Hreads.
  destruct (scan_spec literalChar eq_refl fuel "" (advance l).2)
    as (w & l1 & Hrun & Hin1 & Hrest1 & Hpos1 & Hline1 & Hall & Hend).
  { rewrite Hin, Hpos. lia. }
  assert (reads (advance l).2 l1 w) as Hreads1 by done.
  rewrite string_app_nil_l in Hrun.
  assert (stripped false (rest l) = w ++ stripped true (rest l1)) as Hs.
  { rewrite Hr. cbn [stripped]. change (ascii_eqb dquote dquote) with true.
    cbn [negb]. rewrite <- Hr0, Hrest1. by apply stripped_literal. }
  unfold handleStringLiteral. unfold literalChar in Hrun. rewrite Hrun.
  cbn [mbind option_bind].
  destruct (ascii_eqb (peek l1) dquote) eqn:Hclose.
  - destruct (rest l1) as [|c r1] eqn:Hr1.
    { rewrite peek_rest, Hr1 in Hclose. done. }
    destruct (advance_cons l1 c r1 Hr1) as (Hpeek2 & Hr2 & _ & Hpos2 & _).
    pose proof (reads_advance l1 c r1 Hr1) as Hreads2.
    assert (c = dquote) as ->
      by (rewrite Hpeek2 in Hclose; by apply bool_decide_eq_true in Hclose).
    exists (Token.mk STRING_LITERAL (String.string_of_list_ascii w) (line (advance l1).2)),
      ([dquote] ++ w ++ [dquote]), (advance l1).2.
    split_and!; [done|done| | |lia].
    + cbn [Token.value]. rewrite chars_of_list, Hs, Hr2. done.
    + eapply reads_trans; [exact Hreads|]. eapply reads_trans; [exact Hreads1|exact Hreads2].
  - exists (Token.mk STRING_LITERAL (String.string_of_list_ascii w) (line l1)),
      ([dquote] ++ w), l1.
    split_and!; [done|done| | |lia].
    + cbn [Token.value]. rewrite chars_of_list, Hs. f_equal.
      unfold literalChar in Hend. rewrite Hclose in Hend. cbn [negb andb] in Hend.
      apply negb_false_iff, bool_decide_eq_true in Hend.
      rewrite peek_rest in Hend, Hclose. destruct (rest l1) as [|c r1]; [done|].
      simpl in Hend. subst c. done.
    + eapply reads_trans; [exact Hreads|exact Hreads1].
Qed.

Lemma peek_cons (l : Lexer) (c : ascii) :
  peek l = c → c ≠ nul → ∃ r, rest l = c :: r.
Proof.
  rewrite peek_rest. destruct (rest l) as [|c' r]; simpl; [congruence|].
  intros ->. eauto.
Qed.

Lemma filter_kept_spaces (w0 w : list ascii) :
  Forall (λ c, isspace c = true) w0 →
  filter (λ c, kept c) (w0 ++ w) = filter (λ c, kept c) w.
Proof. intros H. by rewrite filter_app, (spaces_not_kept w0 H). Qed.

Lemma texts_one (t : Token) : chars (texts [t]) = chars (Token.value t).
Proof. simpl. by rewrite string_app_nil_r. Qed.

(** One turn of the loop of [tokenize]: it ends, reads at least one
    character, and what it adds to the token texts is what [stripped]
    keeps of the characters read. *)
Lemma tokenizeStep_spec (fuel : nat) (toks : list Token) (l : Lexer) :
  (String.length (input l) < fuel)%nat →
  ∃ new w l',
    tokenizeStep fuel (toks, l) = Some (toks ++ new, l') ∧
    reads l l' w ∧ (position l < position l')%nat ∧
    chars (texts new) ++ stripped false (rest l') = stripped false (rest l) ∧
    Forall (λ t, Token.type t ≠ END_OF_FILE) new.
Proof.
  intros Hfuel.
  destruct (skipWhitespace_spec fuel l ltac:(lia))
    as (w0 & l0 & Hskip & Hin0 & Hrest0 & Hpos0 & Hline0 & Hspaces).
  assert (reads l l0 w0) as Hreads0 by done.
  assert (stripped false (rest l) = stripped false (rest l0)) as Hs0
    by (rewrite Hrest0; by apply stripped_spaces).
  assert (String.length (input l0) - position l0 < fuel)%nat as Hfuel0
    by (rewrite Hin0; lia).
  unfold tokenizeStep. cbn [fst snd]. rewrite Hskip. cbn [mbind option_bind].
  destruct (isalpha (peek l0) || ascii_eqb (peek l0) underscore) eqn:H1.
  { assert (isalnum (peek l0) || ascii_eqb (peek l0) underscore = true) as H1'.
    { unfold isalnum. apply orb_true_iff in H1 as [->| ->]; [done|apply orb_true_r]. }
    destruct (handleIdentifierOrKeyword_spec fuel l0 H1' Hfuel0)
      as (t & w & l' & -> & Ht & Hv & Hr & Hp).
    exists [t], (w0 ++ w), l'. cbn [mbind option_bind]. split_and!; [done| |lia| |by constructor].
    - by eapply reads_trans.
    - by rewrite texts_one, Hv. }
  destruct (isdigit (peek l0)) eqn:H2.
  { destruct (handleLiteral_spec fuel l0 H2 Hfuel0) as (t & w & l' & -> & Ht & Hv & Hr & Hp).
    exists [t], (w0 ++ w), l'. cbn [mbind option_bind]. split_and!; [done| |lia| |by constructor].
    - by eapply reads_trans.
    - by rewrite texts_one, Hv. }
  destruct (ascii_eqb (peek l0) dquote) eqn:H3.
  { apply bool_decide_eq_true in H3.
    destruct (peek_cons l0 dquote H3 ltac:(done)) as [r Hr0].
    destruct (handleStringLiteral_spec fuel l0 r Hr0 Hfuel0)
      as (t & w & l' & -> & Ht & Hv & Hr & Hp).
    exists [t], (w0 ++ w), l'. cbn [mbind option_bind]. split_and!; [done| |lia| |by constructor].
    - by eapply reads_trans.
    - by rewrite texts_one, Hv. }
  destruct (ispunct (peek l0)) eqn:H4.
  { destruct (peek_cons l0 (peek l0) eq_refl) as [r Hr0].
    { intros Hn. by rewrite Hn in H4. }
    destruct (handleSymbol_spec l0 _ r Hr0 H4 H3) as (t & l' & -> & Ht & Hv & Hr & Hp).
    exists [t], (w0 ++ [peek l0]), l'. split_and!; [done| |lia| |by constructor].
    - by eapply reads_trans.
    - by rewrite texts_one, Hv. }
  destruct (rest l0) as [|c r] eqn:Hr0.
  - exists [], w0, (advance l0).2. rewrite app_nil_r. split_and!; [done| | | |done].
    + eapply reads_trans with (w' := []) in Hreads0; [by rewrite app_nil_r in Hreads0|].
      split_and!; [done|by rewrite rest_advance, Hr0|].
      unfold advance. cbn [snd line]. rewrite peek_rest, Hr0. done.
    + unfold advance. simpl. lia.
    + by rewrite rest_advance, Hr0, Hs0.
  - destruct (advance_cons l0 c r Hr0) as (Hpeek & Hr' & _ & Hpos & _).
    exists [], (w0 ++ [c]), (advance l0).2. rewrite app_nil_r.
    split_and!; [done| |lia| |done].
    + eapply reads_trans; [done|]. by eapply reads_advance.
    + rewrite Hs0, Hr'. symmetry. apply stripped_other.
      rewrite Hpeek in H1, H2, H4. unfold visible, isalnum.
      apply orb_false_iff in H1 as [-> _]. by rewrite H2, H4.
Qed.

(** What [stripped] keeps: the letters, digits and punctuation but the
    double quotes, in order, and besides them only characters of string
    literals. *)
Lemma stripped_kept_filter (b : bool) (cs : list ascii) :
  filter (λ c, kept c) (stripped b cs) = filter (λ c, kept c) cs.
Proof.
  revert b. induction cs as [|c cs IH]; intros b; [done|]. cbn [stripped].
  rewrite (filter_kept_cons c cs). destruct (ascii_eqb c dquote) eqn:Hq.
  { apply bool_decide_eq_true in Hq as ->. change (kept dquote) with false.
    by rewrite IH. }
  destruct b.
  - destruct (ascii_eqb c nul) eqn:Hn.
    + apply bool_decide_eq_true in Hn as ->. change (kept nul) with false. by rewrite IH.
    + by rewrite (filter_kept_cons c (stripped true cs)), IH.
  - assert (kept c = visible c) as Hk
      by (unfold kept, visible; rewrite Hq; apply andb_true_r).
    rewrite Hk. destruct (visible c) eqn:Hv; [|by rewrite IH].
    by rewrite filter_kept_cons, IH, Hk.
Qed.

Lemma stripped_no_quote (b : bool) (cs : list ascii) : dquote ∉ stripped b cs.
Proof.
  revert b. induction cs as [|c cs IH]; intros b; [apply not_elem_of_nil|].
  cbn [stripped]. destruct (ascii_eqb c dquote) eqn:Hq; [apply IH|].
  apply bool_decide_eq_false in Hq.
  destruct b; [destruct (ascii_eqb c nul)|destruct (visible c)];
    try apply IH; apply not_elem_of_cons; (split; [congruence|apply IH]).
Qed.

Lemma filter_visible_no_quote (cs : list ascii) :
  dquote ∉ cs → filter (λ c, visible c) cs = filter (λ c, kept c) cs.
Proof.
  induction cs as [|c cs IH]; [done|]. intros [Hc Hcs]%not_elem_of_cons.
  assert (kept c = visible c) as Hk.
  { unfold kept, visible, ascii_eqb.
    rewrite (bool_decide_eq_false_2 (c = dquote)) by congruence. apply andb_true_r. }
  rewrite filter_kept_cons, filter_cons, (IH Hcs), Hk. by destruct (visible c).
Qed.

(** [tokenize] ends on every input; the tokens before the last one are not
    [END_OF_FILE], the last one is, with the value that the line counter
    has reached, and the texts are what [stripped] keeps of the input. *)
Lemma tokenize_spec (text : string) (fuel : nat) :
  (S (String.length text) < fuel)%nat →
  ∃ toks,
    tokenize fuel (new text)
    = Some (toks ++ [Token.mk END_OF_FILE "" (wrap (1 + newlines (chars text)))]) ∧
    Forall (λ t, Token.type t ≠ END_OF_FILE) toks ∧
    chars (texts toks) = stripped false (chars text).
Proof.
  intros Hfuel.
  destruct (while_rule
    (λ s : list Token * Lexer,
       input s.2 = text ∧
       chars (texts s.1) ++ stripped false (rest s.2) = stripped false (chars text) ∧
       (∃ done_, chars text = done_ ++ rest s.2 ∧ line s.2 = lineAfter 1 done_) ∧
       Forall (λ t, Token.type t ≠ END_OF_FILE) s.1)
    (λ s, S (String.length text) - position s.2)%nat
    (λ s, bool_decide (position s.2 < String.length (input s.2))%nat)
    (tokenizeStep fuel)) with (fuel := fuel) (s := ([] : list Token, new text))
    as ([toks l] & Hrun & (Hin & Hkept & (done_ & Hdone & Hline) & Hall) & Hcond).
  - intros [toks l] (Hin & Hkept & (done_ & Hdone & Hline) & Hall) Hcond.
    cbn [fst snd] in *. apply bool_decide_eq_true in Hcond.
    destruct (tokenizeStep_spec fuel toks l ltac:(rewrite Hin; lia))
      as (new_ & w & l' & Hstep & (Hin' & Hrest' & Hline') & Hpos & Hw & Hnew).
    exists (toks ++ new_, l'). cbn [fst snd]. split_and!; [done|congruence| | | |].
    + rewrite texts_app, chars_app, <- Hkept, <- Hw. by rewrite (assoc_L (++)).
    + exists (done_ ++ w). split.
      * by rewrite Hdone, Hrest', (assoc_L (++)).
      * by rewrite lineAfter_app, <- Hline.
    + by apply Forall_app.
    + rewrite Hin in Hcond. lia.
  - cbn [fst snd]. unfold rest, new. cbn [input position line texts drop].
    split_and!; [done|done| |constructor]. by exists [].
  - cbn [snd new position]. lia.
  - cbn [fst snd] in *. apply bool_decide_eq_false in Hcond.
    assert (rest l = []) as Hrest.
    { unfold rest. apply drop_ge. rewrite chars_length. lia. }
    rewrite Hrest in Hkept, Hdone. rewrite app_nil_r in Hkept, Hdone. subst done_.
    exists toks. unfold tokenize. rewrite Hrun. cbn [mbind option_bind].
    split_and!; [|done|done]. do 4 f_equal. rewrite Hline.
    apply lineAfter_wrap. unfold INT_MAX. lia.
Qed.

End TokenizerFacts.

(** ** The claims of the specification *)

(** C1 (defect of the code).  The claim: after pass 1 the emission buffer is
    empty.  In the code the keyword branch and the default branch of
    [parseStatement] write their line in both passes; only the identifier
    branch looks at [isFirstPass].  For the source text [select], pass 1
    leaves the line [select] in the buffer and the program writes it
    twice. *)
Theorem C1_first_pass_writes_lines
    (entries : gmap string string → list (string * string)) (fuel : nat) :
  iteration_order entries → (20 ≤ fuel)%nat →
  firstPassOutput entries fuel "select" = Some (unlines ["select"]) ∧
  main entries fuel "select" = Some (unlines ["select"; "select"]).
Proof.
  intros Horder Hfuel. split.
  - rewrite firstPassOutput_plain by done.
    apply (firstPassOutput_mono map_to_list 20); [done|]. vm_compute. reflexivity.
  - rewrite main_plain by done.
    apply (main_mono map_to_list 20); [done|]. vm_compute. reflexivity.
Qed.

Lemma C1_witness :
  firstPassOutput map_to_list 20 "select" = Some (unlines ["select"]) ∧
  main map_to_list 20 "select" = Some (unlines ["select"; "select"]).
Proof.
  apply (C1_first_pass_writes_lines map_to_list 20); [intros m; reflexivity|lia].
Defined.

(** C2 (defect of the code).  For the source text [select a(1,"x") from t]
    the expander returns the line unchanged, the tokenizer yields the ten
    tokens of the claim and pass 1 records [a] with the arguments [1] and [x],
    as claimed.  The output however is not the seven lines of the claim: the
    line [select] that pass 1 wrote comes first (the defect of C1), then the
    seven lines of pass 2. *)
Theorem C2_select_call
    (entries : gmap string string → list (string * string)) (fuel : nat) :
  iteration_order entries → (40 ≤ fuel)%nat →
  Preprocessor.process entries fuel select_call ∅ = Some (select_call +:+ endl, ∅) ∧
  Lexer.tokenize fuel (Lexer.new (select_call +:+ endl)) =
    Some [ Token.mk KEYWORD "select" 1; Token.mk IDENTIFIER "a" 1;
           Token.mk SYMBOL "(" 1; Token.mk LITERAL "1" 1; Token.mk SYMBOL "," 1;
           Token.mk STRING_LITERAL "x" 1; Token.mk SYMBOL ")" 1;
           Token.mk IDENTIFIER "from" 1; Token.mk IDENTIFIER "t" 1;
           Token.mk END_OF_FILE "" 2 ] ∧
  callTable entries fuel select_call =
    Some {[ "a" := FunctionSignature.mk "a" ["1"; "x"] 1 ]} ∧
  main entries fuel select_call =
    Some (unlines [ "select";
                    "select"; "a ("; ");"; "from ("; ");"; "t ("; ");" ]).
Proof.
  intros Horder Hfuel. split_and!.
  - by rewrite process_plain.
  - apply (tokenize_mono 40); [done|]. vm_compute. reflexivity.
  - rewrite callTable_plain by done.
    apply (callTable_mono map_to_list 40); [done|]. vm_compute. reflexivity.
  - rewrite main_plain by done.
    apply (main_mono map_to_list 40); [done|]. vm_compute. reflexivity.
Qed.

Lemma C2_witness :
  Preprocessor.process map_to_list 40 select_call ∅ = Some (select_call +:+ endl, ∅) ∧
  Lexer.tokenize 40 (Lexer.new (select_call +:+ endl)) =
    Some [ Token.mk KEYWORD "select" 1; Token.mk IDENTIFIER "a" 1;
           Token.mk SYMBOL "(" 1; Token.mk LITERAL "1" 1; Token.mk SYMBOL "," 1;
           Token.mk STRING_LITERAL "x" 1; Token.mk SYMBOL ")" 1;
           Token.mk IDENTIFIER "from" 1; Token.mk IDENTIFIER "t" 1;
           Token.mk END_OF_FILE "" 2 ] ∧
  callTable map_to_list 40 select_call =
    Some {[ "a" := FunctionSignature.mk "a" ["1"; "x"] 1 ]} ∧
  main map_to_list 40 select_call =
    Some (unlines [ "select";
                    "select"; "a ("; ");"; "from ("; ");"; "t ("; ");" ]).
Proof.
  apply (C2_select_call map_to_list 40); [intros m; reflexivity|lia].
Defined.

(** C3 (defect of the code).  The claim: macro expansion terminates on every
    input, and a first line that is exactly [#define] is a definition with an
    empty name after which every later line is still emitted.  The code does
    store the empty name with an empty replacement text, but then never
    finishes the first line that is not a directive: whatever the fuel and the
    iteration order of the table, [process] (and so the program) gives no
    result. *)
Theorem C3_directive_without_name_never_completes
    (entries : gmap string string → list (string * string))
    (input : string) (others : list string) :
  iteration_order entries →
  getlines input = "#define" :: others →
  existsb (λ l, negb (Preprocessor.isDefine l)) others = true →
  Preprocessor.define "#define" = ("", "") ∧
  (∀ fuel m, Preprocessor.process entries fuel input m = None) ∧
  (∀ fuel, main entries fuel input = None).
Proof.
  intros Horder Hlines Hrest. split; [done|].
  assert (∀ fuel m, Preprocessor.process entries fuel input m = None) as H.
  { intros fuel m. unfold Preprocessor.process. rewrite Hlines.
    cbn [Preprocessor.processLines].
    change (Preprocessor.isDefine "#define") with true. cbv iota.
    change (Preprocessor.define "#define") with ("", "").
    apply processLines_empty_key; [done| |done]. apply lookup_insert_eq. }
  split; [done|]. intros fuel. unfold main. by rewrite H.
Qed.

Lemma C3_witness :
  Preprocessor.define "#define" = ("", "") ∧
  (∀ fuel m, Preprocessor.process map_to_list fuel ("#define" +:+ endl +:+ "x") m
             = None) ∧
  (∀ fuel, main map_to_list fuel ("#define" +:+ endl +:+ "x") = None).
Proof.
  apply (C3_directive_without_name_never_completes map_to_list _ ["x"]).
  - intros m. reflexivity.
  - reflexivity.
  - reflexivity.
Defined.

(** C4.  Both passes over any token sequence end, pass 2 after some number
    [K] of statements, and in pass 2 every identifier that stands at the
    start of a statement and is followed by [(] has an entry for its name in
    the Call Table; so the statement writes its opening line, at most the
    missing-parenthesis and the arity diagnostics, and its closing line: the
    branch that reports an unknown function is never taken. *)
Theorem C4_unknown_function_unreachable (ts : list Token) (fuel : nat) :
  (length ts < fuel)%nat →
  ∃ p1 K q1,
    Parser.firstPass fuel (Parser.new ts) = Some p1 ∧
    Parser.secondPass fuel p1 = Some (Parser.formattedCode q1, q1) ∧
    statements fuel false K (Parser.set_position 0 p1) = Some q1 ∧
    ∀ k q name,
      statements fuel false k (Parser.set_position 0 p1) = Some q →
      callSite q name →
      ∃ signature args end_ q',
        Parser.functionTable q !! name = Some signature ∧
        argumentsAt fuel ts (S (S (Parser.position q))) = Some (args, end_) ∧
        Parser.parseStatement fuel false q = Some q' ∧
        Parser.formattedCode q' =
          Parser.formattedCode q +:+ name +:+ " (" +:+ endl +:+
          (missingDiagnostic ts end_ +:+ arityDiagnostic name args signature) +:+
          ");" +:+ endl.
Proof.
  intros Hfuel.
  destruct (firstPass_statements ts fuel Hfuel) as (p1 & K1 & Hp1 & _ & _ & Ht & Hi).
  destruct (secondPass_statements ts fuel Hfuel p1 Ht Hi) as (K & q1 & Hq1 & HK & _).
  exists p1, K, q1. split_and!; [done|done|done|]. intros k q name Hq Hcall.
  destruct (pass2_call ts fuel Hfuel p1 k q name Hp1 Hq Hcall)
    as (_ & Htab & [sig Hsig] & args & end_ & q' & Hargs & Hq' & Hout).
  exists sig, args, end_, q'. rewrite Htab. split_and!; try done.
  rewrite Hout. unfold diagnostics. by rewrite Hsig.
Qed.

Lemma C4_witness :
  ∃ p1 K q1,
    Parser.firstPass 20 (Parser.new two_calls) = Some p1 ∧
    Parser.secondPass 20 p1 = Some (Parser.formattedCode q1, q1) ∧
    statements 20 false K (Parser.set_position 0 p1) = Some q1 ∧
    ∀ k q name,
      statements 20 false k (Parser.set_position 0 p1) = Some q →
      callSite q name →
      ∃ signature args end_ q',
        Parser.functionTable q !! name = Some signature ∧
        argumentsAt 20 two_calls (S (S (Parser.position q))) = Some (args, end_) ∧
        Parser.parseStatement 20 false q = Some q' ∧
        Parser.formattedCode q' =
          Parser.formattedCode q +:+ name +:+ " (" +:+ endl +:+
          (missingDiagnostic two_calls end_ +:+ arityDiagnostic name args signature) +:+
          ");" +:+ endl.
Proof. apply (C4_unknown_function_unreachable two_calls 20). simpl. lia. Defined.

(** C5, the claim as stated fails: a [#define] line is consumed and gives no
    line of output.  Two lines in, one line out. *)
Lemma C5_counterexample :
  Preprocessor.process map_to_list 10 ("#define FOO bar" +:+ endl +:+ "FOO(1)") ∅
    = Some ("bar(1)" +:+ endl, {[ "FOO" := "bar" ]}) ∧
  line_count ("#define FOO bar" +:+ endl +:+ "FOO(1)") = 2%nat ∧
  line_count ("bar(1)" +:+ endl) = 1%nat.
Proof. split_and!; vm_compute; reflexivity. Qed.

(** C5 (amended).  When no [#define] directive of the input has an empty
    name the expander completes, for every iteration order of the table and
    all fuel from some point on, and the expanded text has as many lines as
    the input has lines that are not [#define] directives. *)
Theorem C5_expanded_line_count
    (entries : gmap string string → list (string * string)) (input : string) :
  iteration_order entries →
  named_directives input = true →
  ∃ fuel0, ∀ fuel, (fuel0 ≤ fuel)%nat →
    ∃ out m, Preprocessor.process entries fuel input ∅ = Some (out, m) ∧
      line_count out = length (code_lines input).
Proof.
  intros Horder Hnamed.
  destruct (processLines_terminates entries Horder (getlines input) ∅ [])
    as (fuel0 & Hfuel0); [apply getlines_no_newline|done|done|].
  exists fuel0. intros fuel Hfuel.
  destruct (Hfuel0 fuel Hfuel) as (ls & m & Hrun & Hls & Hlen).
  exists (unlines ls), m. split; [done|].
  unfold line_count. by rewrite getlines_unlines.
Qed.

Lemma C5_witness :
  ∃ fuel0, ∀ fuel, (fuel0 ≤ fuel)%nat →
    ∃ out m,
      Preprocessor.process map_to_list fuel
        ("#define FOO bar" +:+ endl +:+ "FOO(1)") ∅ = Some (out, m) ∧
      line_count out = length (code_lines ("#define FOO bar" +:+ endl +:+ "FOO(1)")).
Proof.
  apply (C5_expanded_line_count map_to_list).
  - intros m. reflexivity.
  - reflexivity.
Defined.




(** C7.  In pass 2, at an identifier followed by [(] whose name has the
    entry [signature] in the Call Table, the statement writes the opening
    line, the missing-parenthesis diagnostic if the argument list is not
    closed, then the arity diagnostic exactly when the stored number of
    arguments differs from the number collected anew at this call, and the
    closing line.  The arity diagnostic is the line
    [-- Error: Function '<name>' at line <line of the entry> expects <N>
    arguments, but <M> were provided.] *)
Theorem C7_arity_diagnostic :
  (∀ (ts : list Token) (fuel : nat), (length ts < fuel)%nat →
  ∃ p1, Parser.firstPass fuel (Parser.new ts) = Some p1 ∧
    ∀ k q name signature,
      statements fuel false k (Parser.set_position 0 p1) = Some q →
      callSite q name →
      Parser.functionTable p1 !! name = Some signature →
      ∃ args end_ q',
        argumentsAt fuel ts (S (S (Parser.position q))) = Some (args, end_) ∧
        Parser.parseStatement fuel false q = Some q' ∧
        Parser.formattedCode q' =
          Parser.formattedCode q +:+ name +:+ " (" +:+ endl +:+
          (missingDiagnostic ts end_ +:+
           (if bool_decide (length (FunctionSignature.argumentTypes signature)
                            = length args)
            then ""
            else "-- Error: Function '" +:+ name +:+ "' at line " +:+
                 to_string (FunctionSignature.line signature) +:+ " expects " +:+
                 to_string (Z.of_nat (length (FunctionSignature.argumentTypes signature)))
                 +:+ " arguments, but " +:+ to_string (Z.of_nat (length args)) +:+
                 " were provided." +:+ endl)) +:+
          ");" +:+ endl) ∧
  (∀ entries fuel, iteration_order entries → (20 ≤ fuel)%nat →
   main entries fuel "a(1,2) a(3)" =
   Some (unlines
     [ "a ("; ");";
       "a (";
       "-- Error: Function 'a' at line 1 expects 2 arguments, but 1 were provided.";
       ");" ])).
Proof.
  split.
  - intros ts fuel Hfuel.
    destruct (firstPass_statements ts fuel Hfuel) as (p1 & K & Hp1 & _).
    exists p1. split; [done|]. intros k q name sig Hq Hcall Hsig.
    destruct (pass2_call ts fuel Hfuel p1 k q name Hp1 Hq Hcall)
      as (_ & Htab & _ & args & end_ & q' & Hargs & Hq' & Hout).
    exists args, end_, q'. split_and!; try done.
    rewrite Hout. unfold diagnostics, arityDiagnostic, arityMismatch. rewrite Hsig.
    case_bool_decide; [done|]. by rewrite !string_app_assoc.
  - intros entries fuel Horder Hfuel. rewrite main_plain by done.
    apply (main_mono map_to_list 20); [done|]. vm_compute. reflexivity.
Qed.

Lemma C7_witness :
  (∃ p1, Parser.firstPass 20 (Parser.new two_calls) = Some p1 ∧
    ∀ k q name signature,
      statements 20 false k (Parser.set_position 0 p1) = Some q →
      callSite q name →
      Parser.functionTable p1 !! name = Some signature →
      ∃ args end_ q',
        argumentsAt 20 two_calls (S (S (Parser.position q))) = Some (args, end_) ∧
        Parser.parseStatement 20 false q = Some q' ∧
        Parser.formattedCode q' =
          Parser.formattedCode q +:+ name +:+ " (" +:+ endl +:+
          (missingDiagnostic two_calls end_ +:+
           (if bool_decide (length (FunctionSignature.argumentTypes signature)
                            = length args)
            then ""
            else "-- Error: Function '" +:+ name +:+ "' at line " +:+
                 to_string (FunctionSignature.line signature) +:+ " expects " +:+
                 to_string (Z.of_nat (length (FunctionSignature.argumentTypes signature)))
                 +:+ " arguments, but " +:+ to_string (Z.of_nat (length args)) +:+
                 " were provided." +:+ endl)) +:+
          ");" +:+ endl) ∧
  main map_to_list 20 "a(1,2) a(3)" =
   Some (unlines
     [ "a ("; ");";
       "a (";
       "-- Error: Function 'a' at line 1 expects 2 arguments, but 1 were provided.";
       ");" ]).
Proof.
  split.
  - apply (proj1 C7_arity_diagnostic two_calls 20%nat). simpl. lia.
  - apply (proj2 C7_arity_diagnostic map_to_list 20%nat); [intros m; reflexivity|lia].
Defined.

(** C8.  For the source text [f(1,2], with no closing parenthesis, the
    output is the opening line of the call, the missing-parenthesis
    diagnostic once, and the closing line; there is no other line. *)
Theorem C8_missing_parenthesis
    (entries : gmap string string → list (string * string)) (fuel : nat) :
  iteration_order entries → (20 ≤ fuel)%nat →
  main entries fuel "f(1,2" =
  Some (unlines
    [ "f ("; "-- Error: Missing closing parenthesis for function call."; ");" ]).
Proof.
  intros Horder Hfuel. rewrite main_plain by done.
  apply (main_mono map_to_list 20); [done|]. vm_compute. reflexivity.
Qed.

Lemma C8_witness :
  main map_to_list 20 "f(1,2" =
  Some (unlines
    [ "f ("; "-- Error: Missing closing parenthesis for function call."; ");" ]).
Proof.
  apply (C8_missing_parenthesis map_to_list 20); [intros m; reflexivity|lia].
Defined.

(** C9, the claim as stated fails: the two quotes of a string literal are
    punctuation characters of the input and are in no token text.  For the
    input ["x"] (three characters) the token texts make up [x]. *)
Lemma C9_counterexample :
  Lexer.tokenize 10 (Lexer.new (quoted "x")) =
    Some [ Token.mk STRING_LITERAL "x" 1; Token.mk END_OF_FILE "" 1 ] ∧
  filter (λ c, visible c)
    (chars (texts [ Token.mk STRING_LITERAL "x" 1; Token.mk END_OF_FILE "" 1 ]))
    = chars "x" ∧
  filter (λ c, visible c) (chars (quoted "x")) = chars (quoted "x").
Proof. split_and!; vm_compute; reflexivity. Qed.

(** C9 (amended).  For every input string the tokenizer returns a finite
    sequence of tokens that ends with an [END_OF_FILE] token, the only one
    of the sequence, whose line is the value that the line counter has
    reached: one more than the number of newlines of the input, as an
    [int], and exactly that number as long as it is at most [INT_MAX].
    The texts of the tokens, in order, are what [stripped] keeps of the
    input: they reproduce every alphanumeric and punctuation character of
    the input but the double quotes, none of which is reproduced, and
    besides these only characters of string literals, which are kept as
    they are. *)
Theorem C9_tokenizer (text : string) (fuel : nat) :
  (S (String.length text) < fuel)%nat →
  ∃ toks eof,
    Lexer.tokenize fuel (Lexer.new text) = Some (toks ++ [eof]) ∧
    Forall (λ t, Token.type t ≠ END_OF_FILE) toks ∧
    eof = Token.mk END_OF_FILE "" (wrap (1 + newlines (chars text))) ∧
    (1 + newlines (chars text) ≤ INT_MAX →
     Token.line eof = 1 + newlines (chars text)) ∧
    chars (texts (toks ++ [eof])) = stripped false (chars text) ∧
    filter (λ c, visible c) (chars (texts (toks ++ [eof])))
    = filter (λ c, kept c) (chars text) ∧
    dquote ∉ chars (texts (toks ++ [eof])).
Proof.
  intros Hfuel. destruct (tokenize_spec text fuel Hfuel) as (toks & Hrun & Hall & Htexts).
  exists toks, (Token.mk END_OF_FILE "" (wrap (1 + newlines (chars text)))).
  assert (chars (texts (toks ++
            [Token.mk END_OF_FILE "" (wrap (1 + newlines (chars text)))]))
          = stripped false (chars text)) as Hs
    by (by rewrite texts_app, chars_app, texts_one, app_nil_r).
  pose proof (stripped_no_quote false (chars text)) as Hq.
  split_and!; [done|done|done| |done| |by rewrite Hs].
  - intros Hmax. pose proof (newlines_nonneg (chars text)).
    cbn [Token.line]. apply wrap_small. lia.
  - by rewrite Hs, (filter_visible_no_quote _ Hq), stripped_kept_filter.
Qed.

Lemma C9_witness :
  ∃ toks eof,
    Lexer.tokenize 10 (Lexer.new (quoted "x")) = Some (toks ++ [eof]) ∧
    Forall (λ t, Token.type t ≠ END_OF_FILE) toks ∧
    eof = Token.mk END_OF_FILE "" (wrap (1 + newlines (chars (quoted "x")))) ∧
    (1 + newlines (chars (quoted "x")) ≤ INT_MAX →
     Token.line eof = 1 + newlines (chars (quoted "x"))) ∧
    chars (texts (toks ++ [eof])) = stripped false (chars (quoted "x")) ∧
    filter (λ c, visible c) (chars (texts (toks ++ [eof])))
    = filter (λ c, kept c) (chars (quoted "x")) ∧
    dquote ∉ chars (texts (toks ++ [eof])).
Proof. apply (C9_tokenizer (quoted "x") 10). simpl. lia. Defined.




(** ** Further properties of the code *)

(** *** The parser *)

Section MorePasses.

Import Parser.

Variable ts : list Token.
Variable fuel : nat.
Hypothesis enough : (length ts < fuel)%nat.

(** A statement that is not a call moves the cursor by one token, adds
    [plainStatement] to the buffer and touches nothing else. *)
Lemma step_plain (b : bool) (p : Parser) :
  more p = true → indentLevel p = 0 → (∀ name, ¬ callSite p name) →
  parseStatement fuel b p =
  Some (mk (tokens p) (S (position p)) 0
          (formattedCode p +:+ plainStatement b (peek p)) (functionTable p)).
Proof.
  intros Hmore Hindent Hno.
  assert (Token.type (peek p) ≠ END_OF_FILE) as Heof.
  { unfold more in Hmore. by apply negb_true_iff, bool_decide_eq_false in Hmore. }
  pose proof (advance_in_range p Heof) as Hadv.
  unfold parseStatement, plainStatement.
  destruct (bool_decide (Token.type (peek p) = IDENTIFIER)
            && negb (bool_decide (Token.value (peek p) = "("))) eqn:Hid.
  - apply andb_prop in Hid as [Hty%bool_decide_eq_true Hv%negb_true_iff%bool_decide_eq_false].
    assert (Token.value (peek (advance p).2) ≠ "(") as Hparen.
    { intros Hparen. by apply (Hno (Token.value (peek p))). }
    rewrite Hadv in Hparen. simpl in Hparen. destruct b.
    + unfold detectFunctionCall. rewrite Hadv.
      rewrite bool_decide_eq_false_2 by done. do 2 f_equal.
      unfold set_position. by rewrite Hindent, string_app_nil_r.
    + unfold validateFunctionCall. rewrite Hadv.
      change (peek (writeIndentedLine ?l ?q)) with (peek q).
      rewrite bool_decide_eq_false_2 by done. cbn [mbind option_bind].
      unfold writeIndentedLine, set_position. cbn. rewrite Hindent. cbn.
      do 2 f_equal. by rewrite !string_app_assoc.
  - rewrite Hadv. cbn [snd].
    destruct (bool_decide (Token.type (peek p) = KEYWORD));
      unfold writeIndentedLine, set_position; cbn; rewrite Hindent; cbn;
      do 2 f_equal; by rewrite ?string_app_assoc.
Qed.

(** Every statement only appends to the buffer. *)
Lemma step_appends (b : bool) (p : Parser) :
  tokens p = ts → more p = true → indentLevel p = 0 →
  ∃ p' text,
    parseStatement fuel b p = Some p' ∧
    formattedCode p' = formattedCode p +:+ text.
Proof.
  intros Ht Hmore Hindent.
  destruct (step_spec fuel b p Hmore ltac:(rewrite Ht; lia) Hindent)
    as (p' & Hp' & _ & _ & _ & Hcase).
  destruct Hcase as [(name & args & end_ & Hcall & _ & _ & _ & Hout)|(Hno & _)].
  - destruct b.
    + destruct (detect_call fuel p name Hcall ltac:(rewrite Ht; lia))
        as (args' & end' & _ & _ & Hdet).
      destruct (callSite_tokens p name Hcall) as (_ & _ & _ & _ & _).
      assert (parseStatement fuel true p = detectFunctionCall fuel p) as Heq.
      { unfold parseStatement. destruct Hcall as (Hty & Hv & Hne & _).
        rewrite Hty, Hv. rewrite bool_decide_eq_true_2 by done.
        by rewrite bool_decide_eq_false_2 by done. }
      rewrite Heq, Hdet in Hp'. injection Hp' as <-.
      eexists _, "". split; [by rewrite Heq, Hdet|]. simpl. by rewrite string_app_nil_r.
    + eexists p', _. split; [done|]. by apply Hout.
  - rewrite (step_plain b p Hmore Hindent Hno). eexists _, _. split; [done|]. done.
Qed.

(** The two passes in step, whichever runs from which state. *)
Lemma lockstep_any (b b' : bool) (k : nat) (p0 q0 q : Parser) :
  tokens p0 = ts → indentLevel p0 = 0 → indentLevel q0 = 0 →
  cursor p0 = cursor q0 →
  statements fuel b' k q0 = Some q →
  ∃ p, statements fuel b k p0 = Some p ∧ cursor p = cursor q.
Proof.
  intros Htp0 Hip Hiq Hc. revert q. induction k as [|k IH]; intros q H.
  - simpl in H. injection H as <-. by exists p0.
  - simpl in H. destruct (statements fuel b' k q0) as [q1|] eqn:Hq1; [|done].
    simpl in H. destruct (IH q1 eq_refl) as (p1 & Hp1 & Hc1).
    destruct (more q1) eqn:Hmore; [|done].
    assert (more p1 = true) as Hmorep by (unfold more; by rewrite (peek_cursor p1 q1 Hc1)).
    destruct (pass_frame ts fuel enough b k p0 p1 Htp0 Hip Hp1) as (Ht & Hi & _).
    assert (tokens q0 = ts) as Htq by (unfold cursor in Hc; congruence).
    destruct (pass_frame ts fuel enough b' k q0 q1 Htq Hiq Hq1) as (Ht' & Hi' & _).
    destruct (step_spec fuel b p1 Hmorep ltac:(rewrite Ht; lia) Hi) as (p2 & Hp2 & _).
    exists p2. simpl. rewrite Hp1. simpl. rewrite Hmorep. split; [done|].
    eapply (step_cursor fuel b b' p1 q1); try done. rewrite Ht. lia.
Qed.

(** States of one run with the same number of statements are the same, and
    a run that has stopped has no further state. *)
Lemma same_end (b : bool) (K K' : nat) (p0 p p' : Parser) :
  statements fuel b K p0 = Some p → more p = false →
  statements fuel b K' p0 = Some p' → more p' = false → K = K' ∧ p = p'.
Proof.
  intros HK Hend HK' Hend'.
  destruct (decide (K ≤ K')%nat) as [Hle|Hgt].
  - destruct (statements_le ts fuel enough b K K' p0 p' Hle HK') as (x & Hx & Hrest).
    rewrite HK in Hx. injection Hx as <-.
    destruct (statements_stop fuel b _ _ _ Hend Hrest) as [? ->]. split; [lia|done].
  - destruct (statements_le ts fuel enough b K' K p0 p ltac:(lia) HK) as (x & Hx & Hrest).
    rewrite HK' in Hx. injection Hx as <-.
    destruct (statements_stop fuel b _ _ _ Hend' Hrest) as [? ->]. split; [lia|done].
Qed.

Lemma statements_invariants (b : bool) (k : nat) (p0 p : Parser) :
  tokens p0 = ts → indentLevel p0 = 0 → position p0 = 0%nat →
  statements fuel b k p0 = Some p →
  (k ≤ position p ≤ length ts)%nat ∧
  ∃ text, formattedCode p = formattedCode p0 +:+ text.
Proof.
  intros Ht Hi Hpos. revert p. induction k as [|k IH]; intros p H.
  - simpl in H. injection H as <-. split; [lia|]. exists "". by rewrite string_app_nil_r.
  - simpl in H. destruct (statements fuel b k p0) as [p1|] eqn:Hp1; [|done].
    simpl in H. destruct (more p1) eqn:Hmore; [|done].
    destruct (IH p1 eq_refl) as (Hk & text & Htext).
    destruct (pass_frame ts fuel enough b k p0 p1 Ht Hi Hp1) as (Ht1 & Hi1 & _).
    destruct (step_spec fuel b p1 Hmore ltac:(rewrite Ht1; lia) Hi1)
      as (p2 & Hp2 & _ & _ & Hpos2 & _).
    destruct (step_appends b p1 Ht1 Hmore Hi1) as (p2' & text' & Hp2' & Htext').
    rewrite H in Hp2, Hp2'. injection Hp2 as <-. injection Hp2' as <-.
    rewrite Ht1 in Hpos2. split; [lia|].
    exists (text +:+ text'). by rewrite Htext', Htext, string_app_assoc.
Qed.

(** On a sequence without identifier tokens no statement is a call. *)
Lemma no_identifier_peek (p : Parser) :
  tokens p = ts → Forall (λ t, Token.type t ≠ IDENTIFIER) ts →
  Token.type (peek p) ≠ IDENTIFIER.
Proof.
  intros Ht Hall Hty. unfold peek in Hty. rewrite Ht in Hty.
  destruct (ts !! position p) as [t|] eqn:Hl; simpl in Hty; [|done].
  rewrite Forall_forall in Hall. by apply (Hall t); [eapply list_elem_of_lookup_2|].
Qed.

Lemma no_identifier_no_call (p : Parser) (name : string) :
  tokens p = ts → Forall (λ t, Token.type t ≠ IDENTIFIER) ts → ¬ callSite p name.
Proof. intros Ht Hall (Hty & _). by apply (no_identifier_peek p). Qed.

(** On such a sequence pass 2 repeats, statement by statement, what pass 1
    wrote. *)
Lemma repeat_statements (p1 : Parser) (k : nat) (p : Parser) :
  Forall (λ t, Token.type t ≠ IDENTIFIER) ts →
  tokens p1 = ts → indentLevel p1 = 0 →
  statements fuel true k (new ts) = Some p →
  statements fuel false k (set_position 0 p1)
  = Some (mk ts (position p) 0 (formattedCode p1 +:+ formattedCode p)
            (functionTable p1)).
Proof.
  intros Hall Ht1 Hi1. revert p. induction k as [|k IH]; intros p H.
  - simpl in H. injection H as <-. simpl. unfold set_position.
    by rewrite Ht1, Hi1, string_app_nil_r.
  - simpl in H. destruct (statements fuel true k (new ts)) as [p'|] eqn:Hp'; [|done].
    simpl in H. destruct (more p') eqn:Hmore; [|done].
    destruct (pass_frame ts fuel enough true k (new ts) p' eq_refl eq_refl Hp')
      as (Ht' & Hi' & _).
    rewrite (step_plain true p' Hmore Hi'
               (λ n, no_identifier_no_call p' n Ht' Hall)) in H.
    injection H as <-.
    cbn [statements]. rewrite (IH p' eq_refl). cbn [mbind option_bind].
    set (q := mk ts (position p') 0 (formattedCode p1 +:+ formattedCode p')
                (functionTable p1)).
    assert (peek q = peek p') as Hpeek by (unfold peek, q; simpl; by rewrite Ht').
    assert (more q = true) as Hmoreq by (unfold more; by rewrite Hpeek).
    rewrite Hmoreq.
    rewrite (step_plain false q Hmoreq eq_refl
               (λ n, no_identifier_no_call q n eq_refl Hall)).
    rewrite Hpeek. unfold q. cbn. do 2 f_equal.
    unfold plainStatement.
    pose proof (no_identifier_peek p' Ht' Hall) as Hty.
    rewrite (bool_decide_eq_false_2 (Token.type (peek p') = IDENTIFIER)) by done.
    cbn [andb]. by rewrite string_app_assoc.
Qed.

End MorePasses.


(** X1. Both passes end on every token sequence.  They leave the token
    sequence and the indentation level as they were, pass 2 leaves the Call
    Table of pass 1 as it was, both stop at the same token, an
    [END_OF_FILE] token or the end of the sequence, and the text returned by
    pass 2 begins with the text that pass 1 left in the buffer. *)
Theorem passes_preserve_state (ts : list Token) (fuel : nat) :
  (length ts < fuel)%nat →
  ∃ p1 out q,
    Parser.firstPass fuel (Parser.new ts) = Some p1 ∧
    Parser.secondPass fuel p1 = Some (out, q) ∧
    Parser.tokens p1 = ts ∧ Parser.tokens q = ts ∧
    Parser.indentLevel p1 = 0 ∧ Parser.indentLevel q = 0 ∧
    Parser.functionTable q = Parser.functionTable p1 ∧
    Parser.position q = Parser.position p1 ∧
    (Parser.position p1 ≤ length ts)%nat ∧
    Token.type (Parser.peek p1) = END_OF_FILE ∧
    ∃ text, out = Parser.formattedCode p1 +:+ text.
Proof.
  intros Hfuel.
  destruct (firstPass_statements ts fuel Hfuel) as (p1 & K & H1 & HK & Hend & Ht & Hi).
  destruct (secondPass_statements ts fuel Hfuel p1 Ht Hi) as (K' & q & H2 & HK' & Hend').
  destruct (pass_frame ts fuel Hfuel false K' (Parser.set_position 0 p1) q Ht Hi HK')
    as (Htq & Hiq & Htable).
  destruct (statements_invariants ts fuel Hfuel true K (Parser.new ts) p1
              eq_refl eq_refl eq_refl HK) as ([_ Hpos] & _).
  destruct (statements_invariants ts fuel Hfuel false K' (Parser.set_position 0 p1) q
              Ht Hi eq_refl HK') as (_ & text & Htext).
  destruct (lockstep_any ts fuel Hfuel true false K' (Parser.new ts)
              (Parser.set_position 0 p1) q eq_refl eq_refl Hi
              ltac:(unfold cursor; simpl; by rewrite Ht) HK')
    as (p & Hp & Hcur).
  assert (Parser.more p = false) as Hendp.
  { unfold Parser.more. rewrite (peek_cursor p q Hcur). exact Hend'. }
  destruct (same_end ts fuel Hfuel true K' K (Parser.new ts) p p1 Hp Hendp HK Hend)
    as [_ ->].
  exists p1, (Parser.formattedCode q), q.
  split_and!; try done.
  - by apply Htable.
  - unfold cursor in Hcur. congruence.
  - unfold Parser.more in Hend. apply negb_false_iff, bool_decide_eq_true in Hend. done.
  - by exists text.
Qed.

Lemma passes_preserve_state_witness :
  ∃ p1 out q,
    Parser.firstPass 20 (Parser.new two_calls) = Some p1 ∧
    Parser.secondPass 20 p1 = Some (out, q) ∧
    Parser.tokens p1 = two_calls ∧ Parser.tokens q = two_calls ∧
    Parser.indentLevel p1 = 0 ∧ Parser.indentLevel q = 0 ∧
    Parser.functionTable q = Parser.functionTable p1 ∧
    Parser.position q = Parser.position p1 ∧
    (Parser.position p1 ≤ length two_calls)%nat ∧
    Token.type (Parser.peek p1) = END_OF_FILE ∧
    ∃ text, out = Parser.formattedCode p1 +:+ text.
Proof. apply (passes_preserve_state two_calls 20). simpl. lia. Defined.

(** X2. Both passes cut the token sequence into the same statements: pass 2
    runs as many statements as pass 1, and its statement number [k] begins
    at the token where statement number [k] of pass 1 begins. *)
Theorem passes_same_statements (ts : list Token) (fuel : nat) :
  (length ts < fuel)%nat →
  ∃ p1,
    Parser.firstPass fuel (Parser.new ts) = Some p1 ∧
    ∀ k,
      (∀ p, statements fuel true k (Parser.new ts) = Some p →
            ∃ q, statements fuel false k (Parser.set_position 0 p1) = Some q ∧
                 Parser.position q = Parser.position p) ∧
      (∀ q, statements fuel false k (Parser.set_position 0 p1) = Some q →
            ∃ p, statements fuel true k (Parser.new ts) = Some p ∧
                 Parser.position p = Parser.position q).
Proof.
  intros Hfuel.
  destruct (firstPass_statements ts fuel Hfuel) as (p1 & K & H1 & HK & Hend & Ht & Hi).
  exists p1. split; [done|]. intros k. split.
  - intros p Hp.
    destruct (lockstep_any ts fuel Hfuel false true k (Parser.set_position 0 p1)
                (Parser.new ts) p Ht Hi eq_refl
                ltac:(unfold cursor; simpl; by rewrite Ht) Hp) as (q & Hq & Hcur).
    exists q. split; [done|]. unfold cursor in Hcur. congruence.
  - intros q Hq.
    destruct (lockstep_any ts fuel Hfuel true false k (Parser.new ts)
                (Parser.set_position 0 p1) q eq_refl eq_refl Hi
                ltac:(unfold cursor; simpl; by rewrite Ht) Hq) as (p & Hp & Hcur).
    exists p. split; [done|]. unfold cursor in Hcur. congruence.
Qed.

Lemma passes_same_statements_witness :
  ∃ p1,
    Parser.firstPass 20 (Parser.new two_calls) = Some p1 ∧
    ∀ k,
      (∀ p, statements 20 true k (Parser.new two_calls) = Some p →
            ∃ q, statements 20 false k (Parser.set_position 0 p1) = Some q ∧
                 Parser.position q = Parser.position p) ∧
      (∀ q, statements 20 false k (Parser.set_position 0 p1) = Some q →
            ∃ p, statements 20 true k (Parser.new two_calls) = Some p ∧
                 Parser.position p = Parser.position q).
Proof. apply (passes_same_statements two_calls 20). simpl. lia. Defined.

(** X3. The names of the Call Table that pass 1 builds are exactly the
    names called by the statements of pass 1. *)
Theorem table_names_are_calls (ts : list Token) (fuel : nat) :
  (length ts < fuel)%nat →
  ∃ p1,
    Parser.firstPass fuel (Parser.new ts) = Some p1 ∧
    ∀ name,
      is_Some (Parser.functionTable p1 !! name) ↔
      ∃ k p, statements fuel true k (Parser.new ts) = Some p ∧ callSite p name.
Proof.
  intros Hfuel.
  destruct (firstPass_statements ts fuel Hfuel) as (p1 & K & H1 & HK & Hend & Ht & Hi).
  exists p1. split; [done|]. intros name. split.
  - intros [sig Hsig].
    destruct (pass1_table ts fuel Hfuel K p1 name sig HK Hsig)
      as (j & site & args & end_ & _ & Hsite & Hcall & _).
    by exists j, site.
  - intros (k & p & Hp & Hcall).
    destruct (pass1_call ts fuel Hfuel k p name Hp Hcall)
      as (args & end_ & p' & _ & Hp' & Htable).
    destruct (register_lookup name args (Token.line (Parser.peek p))
                (Parser.functionTable p)) as [sig Hsig].
    rewrite <- Htable in Hsig.
    assert (Parser.more p = true) as Hmore.
    { unfold Parser.more. destruct Hcall as (Hty & _). rewrite Hty. done. }
    pose proof (before_end ts fuel Hfuel true k K (Parser.new ts) p p1 HK Hend Hp Hmore).
    exists sig.
    apply (table_mono ts fuel Hfuel (S k) K (Parser.new ts) p' p1 name sig);
      [done|done|lia|done|done|done].
Qed.

Lemma table_names_are_calls_witness :
  ∃ p1,
    Parser.firstPass 20 (Parser.new two_calls) = Some p1 ∧
    ∀ name,
      is_Some (Parser.functionTable p1 !! name) ↔
      ∃ k p, statements 20 true k (Parser.new two_calls) = Some p ∧ callSite p name.
Proof. apply (table_names_are_calls two_calls 20). simpl. lia. Defined.

(** X4. The call that enters a name into the Call Table is never reported
    for its number of arguments: at the statement of pass 1 that is the
    first call of [name], pass 2 writes the line of the name and the closing
    line, with nothing between them but the diagnostic of a missing closing
    parenthesis. *)
Theorem first_call_not_reported (ts : list Token) (fuel : nat) :
  (length ts < fuel)%nat →
  ∃ p1,
    Parser.firstPass fuel (Parser.new ts) = Some p1 ∧
    ∀ k p q name,
      statements fuel true k (Parser.new ts) = Some p →
      callSite p name → Parser.functionTable p !! name = None →
      statements fuel false k (Parser.set_position 0 p1) = Some q →
      ∃ args end_ q',
        argumentsAt fuel ts (S (S (Parser.position q))) = Some (args, end_) ∧
        Parser.parseStatement fuel false q = Some q' ∧
        Parser.formattedCode q' =
          Parser.formattedCode q +:+ name +:+ " (" +:+ endl +:+
          missingDiagnostic ts end_ +:+ ");" +:+ endl.
Proof.
  intros Hfuel.
  destruct (firstPass_statements ts fuel Hfuel) as (p1 & K & H1 & HK & Hend & Ht & Hi).
  exists p1. split; [done|]. intros k p q name Hp Hcall Hnone Hq.
  destruct (pass1_call ts fuel Hfuel k p name Hp Hcall)
    as (args & end_ & p' & Hargs & Hp' & Htable).
  assert (Parser.functionTable p' !! name
          = Some (FunctionSignature.mk name args (Token.line (Parser.peek p)))) as Hsig.
  { rewrite Htable. unfold register. rewrite Hnone. by rewrite lookup_insert_eq. }
  assert (Parser.more p = true) as Hmore.
  { unfold Parser.more. destruct Hcall as (Hty & _). rewrite Hty. done. }
  pose proof (before_end ts fuel Hfuel true k K (Parser.new ts) p p1 HK Hend Hp Hmore).
  pose proof (table_mono ts fuel Hfuel (S k) K (Parser.new ts) p' p1 name _
                eq_refl eq_refl ltac:(lia) Hp' HK Hsig) as Hsig1.
  destruct (lockstep_any ts fuel Hfuel true false k (Parser.new ts)
              (Parser.set_position 0 p1) q eq_refl eq_refl Hi
              ltac:(unfold cursor; simpl; by rewrite Ht) Hq) as (p2 & Hp2 & Hcur).
  rewrite Hp in Hp2. injection Hp2 as <-.
  pose proof (callSite_cursor p q name Hcur Hcall) as Hcallq.
  destruct (pass2_call ts fuel Hfuel p1 k q name H1 Hq Hcallq)
    as (_ & _ & _ & args' & end' & q' & Hargs' & Hq' & Hout).
  assert (Parser.position q = Parser.position p) as Hpos
    by (unfold cursor in Hcur; congruence).
  rewrite Hpos, Hargs in Hargs'. injection Hargs' as <- <-.
  exists args, end_, q'. split_and!; [by rewrite Hpos|done|].
  rewrite Hout. unfold diagnostics. rewrite Hsig1. unfold arityDiagnostic. simpl.
  rewrite bool_decide_eq_true_2 by done. by rewrite string_app_nil_r.
Qed.

Lemma first_call_not_reported_witness :
  ∃ p1,
    Parser.firstPass 20 (Parser.new two_calls) = Some p1 ∧
    ∀ k p q name,
      statements 20 true k (Parser.new two_calls) = Some p →
      callSite p name → Parser.functionTable p !! name = None →
      statements 20 false k (Parser.set_position 0 p1) = Some q →
      ∃ args end_ q',
        argumentsAt 20 two_calls (S (S (Parser.position q))) = Some (args, end_) ∧
        Parser.parseStatement 20 false q = Some q' ∧
        Parser.formattedCode q' =
          Parser.formattedCode q +:+ name +:+ " (" +:+ endl +:+
          missingDiagnostic two_calls end_ +:+ ");" +:+ endl.
Proof. apply (first_call_not_reported two_calls 20). simpl. lia. Defined.

Lemma statementLines_app (b : bool) (xs ys : list Token) :
  statementLines b (xs ++ ys) = statementLines b xs +:+ statementLines b ys.
Proof.
  induction xs as [|x xs IH]; simpl; [by rewrite string_app_nil_l|].
  by rewrite IH, string_app_assoc.
Qed.

(** Pass 1 on a sequence without identifier tokens: one statement per
    token. *)
Lemma plain_run (toks : list Token) (eof : Token) (fuel k : nat) :
  (length (toks ++ [eof]) < fuel)%nat →
  Forall (λ t, Token.type t ≠ IDENTIFIER ∧ Token.type t ≠ END_OF_FILE) toks →
  Token.type eof = END_OF_FILE →
  (k ≤ length toks)%nat →
  statements fuel true k (Parser.new (toks ++ [eof]))
  = Some (Parser.mk (toks ++ [eof]) k 0 (statementLines true (take k toks)) ∅).
Proof.
  intros Hfuel Hall Heof. induction k as [|k IH]; intros Hk; [done|].
  cbn [statements]. rewrite IH by lia. cbn [mbind option_bind].
  destruct (lookup_lt_is_Some_2 toks k ltac:(lia)) as [t Ht].
  set (p := Parser.mk (toks ++ [eof]) k 0 (statementLines true (take k toks)) ∅).
  assert (Parser.peek p = t) as Hpeek.
  { unfold Parser.peek, p. simpl. by rewrite lookup_app_l, Ht by lia. }
  pose proof (proj1 (Forall_forall _ _) Hall t (list_elem_of_lookup_2 _ _ _ Ht))
    as [Hid Hne].
  assert (Parser.more p = true) as Hmore.
  { unfold Parser.more. rewrite Hpeek. by rewrite bool_decide_eq_false_2. }
  rewrite Hmore.
  rewrite (step_plain fuel true p Hmore eq_refl).
  - rewrite Hpeek. unfold p. cbn. do 2 f_equal.
    rewrite (take_S_r _ _ _ Ht), statementLines_app. simpl.
    by rewrite string_app_nil_r.
  - intros name (Hty & _). rewrite Hpeek in Hty. done.
Qed.

(** X5. On a token sequence without identifiers, ended by its
    [END_OF_FILE] token, pass 1 writes one line for each token, a keyword
    alone and any other text followed by a semicolon, and pass 2 writes the
    same lines after them: the returned text is the text of pass 1 twice. *)
Theorem lines_written_twice (toks : list Token) (eof : Token) (fuel : nat) :
  (length (toks ++ [eof]) < fuel)%nat →
  Forall (λ t, Token.type t ≠ IDENTIFIER ∧ Token.type t ≠ END_OF_FILE) toks →
  Token.type eof = END_OF_FILE →
  ∃ p1 q,
    Parser.firstPass fuel (Parser.new (toks ++ [eof])) = Some p1 ∧
    Parser.formattedCode p1 = statementLines true toks ∧
    Parser.functionTable p1 = ∅ ∧
    Parser.secondPass fuel p1
    = Some (statementLines true toks +:+ statementLines true toks, q).
Proof.
  intros Hfuel Hall Heof.
  set (ts := toks ++ [eof]) in *.
  destruct (firstPass_statements ts fuel Hfuel) as (p1 & K & H1 & HK & Hend & Ht & Hi).
  pose proof (plain_run toks eof fuel (length toks) Hfuel Hall Heof ltac:(lia)) as Hrun.
  fold ts in Hrun. rewrite firstn_all in Hrun.
  set (p := Parser.mk ts (length toks) 0 (statementLines true toks) ∅) in *.
  assert (Parser.more p = false) as Hendp.
  { unfold Parser.more, Parser.peek, p, ts. simpl.
    rewrite lookup_app_r, Nat.sub_diag by lia. simpl. by rewrite Heof. }
  destruct (same_end ts fuel Hfuel true (length toks) K (Parser.new ts) p p1
              Hrun Hendp HK Hend) as [<- <-].
  assert (Forall (λ t, Token.type t ≠ IDENTIFIER) ts) as Hall'.
  { apply Forall_app. split.
    - eapply Forall_impl; [exact Hall|]. by intros t [? _].
    - constructor; [by rewrite Heof|constructor]. }
  pose proof (repeat_statements ts fuel Hfuel p (length toks) p Hall' eq_refl eq_refl Hrun)
    as Hrun2.
  destruct (secondPass_statements ts fuel Hfuel p eq_refl eq_refl)
    as (K' & q & H2 & HK' & Hend').
  set (q2 := Parser.mk ts (Parser.position p) 0
               (Parser.formattedCode p +:+ Parser.formattedCode p)
               (Parser.functionTable p)) in *.
  assert (Parser.more q2 = false) as Hendq by exact Hendp.
  destruct (same_end ts fuel Hfuel false (length toks) K' (Parser.set_position 0 p) q2 q
              Hrun2 Hendq HK' Hend') as [<- <-].
  exists p, q2. split_and!; done.
Qed.

Lemma lines_written_twice_witness :
  ∃ p1 q,
    Parser.firstPass 10
      (Parser.new ([Token.mk KEYWORD "begin" 1; Token.mk LITERAL "1" 1;
                    Token.mk KEYWORD "end" 2] ++ [Token.mk END_OF_FILE "" 3]))
      = Some p1 ∧
    Parser.formattedCode p1 =
      statementLines true [Token.mk KEYWORD "begin" 1; Token.mk LITERAL "1" 1;
                           Token.mk KEYWORD "end" 2] ∧
    Parser.functionTable p1 = ∅ ∧
    Parser.secondPass 10 p1
    = Some (statementLines true [Token.mk KEYWORD "begin" 1; Token.mk LITERAL "1" 1;
                                 Token.mk KEYWORD "end" 2] +:+
            statementLines true [Token.mk KEYWORD "begin" 1; Token.mk LITERAL "1" 1;
                                 Token.mk KEYWORD "end" 2], q).
Proof.
  apply (lines_written_twice
           [Token.mk KEYWORD "begin" 1; Token.mk LITERAL "1" 1; Token.mk KEYWORD "end" 2]
           (Token.mk END_OF_FILE "" 3) 10).
  - simpl. lia.
  - repeat constructor; simpl; discriminate.
  - reflexivity.
Defined.

(** X6. A statement that is not a call takes one token and leaves the
    Call Table as it is.  For an identifier, whose text is not an opening
    parenthesis, pass 1 writes nothing and pass 2 writes the line of the
    name with an opening parenthesis and the closing line, with no
    diagnostic; for a keyword both passes write the keyword; for any other
    token both passes write its text and a semicolon. *)
Theorem statement_not_a_call (fuel : nat) (isFirstPass : bool) (p : Parser.Parser) :
  Parser.more p = true → Parser.indentLevel p = 0 →
  (∀ name, ¬ callSite p name) →
  Parser.parseStatement fuel isFirstPass p =
  Some (Parser.mk (Parser.tokens p) (S (Parser.position p)) 0
          (Parser.formattedCode p +:+
           (if bool_decide (Token.type (Parser.peek p) = IDENTIFIER) &&
               negb (bool_decide (Token.value (Parser.peek p) = "("))
            then (if isFirstPass then ""
                  else Token.value (Parser.peek p) +:+ " (" +:+ endl +:+ ");" +:+ endl)
            else if bool_decide (Token.type (Parser.peek p) = KEYWORD)
            then Token.value (Parser.peek p) +:+ endl
            else Token.value (Parser.peek p) +:+ ";" +:+ endl))
          (Parser.functionTable p)).
Proof.
  intros Hmore Hi Hno. by rewrite (step_plain fuel isFirstPass p Hmore Hi Hno).
Qed.

Lemma statement_not_a_call_witness :
  Parser.parseStatement 5 false
    (Parser.new [Token.mk IDENTIFIER "x" 1; Token.mk END_OF_FILE "" 2]) =
  Some (Parser.mk [Token.mk IDENTIFIER "x" 1; Token.mk END_OF_FILE "" 2] 1 0
          ("" +:+ ("x" +:+ " (" +:+ endl +:+ ");" +:+ endl)) ∅).
Proof.
  apply (statement_not_a_call 5 false
           (Parser.new [Token.mk IDENTIFIER "x" 1; Token.mk END_OF_FILE "" 2])).
  - reflexivity.
  - reflexivity.
  - intros name (_ & _ & _ & H). vm_compute in H. discriminate.
Defined.

(** *** The lexer *)

Section LexerShape.

Import Lexer.

Lemma while_end {S : Type} (cond : S → bool) (body : S → option S)
    (fuel : nat) (s s' : S) :
  while fuel cond body s = Some s' → cond s' = false.
Proof.
  revert s. induction fuel as [|fuel IH]; intros s H; [done|].
  simpl in H. destruct (cond s) eqn:Hc; [|congruence].
  destruct (body s) as [s1|]; [|done]. by apply (IH s1).
Qed.

Lemma reads_line (l l' : Lexer) (w : list ascii) :
  reads l l' w → -2147483648 ≤ line l → line l + newlines w ≤ INT_MAX →
  line l' = line l + newlines w.
Proof. intros (_ & _ & ->) Hl Hw. by apply lineAfter_small. Qed.

(** Two maximal runs from the same place are the same run. *)
Lemma run_unique (cond : ascii → bool) (w1 w2 r1 r2 : list ascii) :
  w1 ++ r1 = w2 ++ r2 →
  Forall (λ c, cond c = true) w1 → Forall (λ c, cond c = true) w2 →
  match r1 with [] => True | c :: _ => cond c = false end →
  match r2 with [] => True | c :: _ => cond c = false end →
  w1 = w2 ∧ r1 = r2.
Proof.
  revert w2. induction w1 as [|c w1 IH]; intros w2 Heq H1 H2 Hr1 Hr2.
  - destruct w2 as [|c2 w2]; [done|]. simpl in Heq. subst r1.
    apply Forall_cons in H2 as [H2 _]. congruence.
  - destruct w2 as [|c2 w2].
    + simpl in Heq. subst r2. apply Forall_cons in H1 as [H1 _]. congruence.
    + simpl in Heq. injection Heq as -> Heq.
      apply Forall_cons in H1 as [_ H1]. apply Forall_cons in H2 as [_ H2].
      destruct (IH w2 Heq H1 H2 Hr1 Hr2) as [-> ->]. done.
Qed.

Lemma peek_stop (cond : ascii → bool) (l : Lexer) :
  cond (peek l) = false →
  match rest l with [] => True | c :: _ => cond c = false end.
Proof. rewrite peek_rest. by destruct (rest l). Qed.

Lemma forallb_Forall (cond : ascii → bool) (w : list ascii) :
  Forall (λ c, cond c = true) w → forallb cond w = true.
Proof. intros H. apply forallb_forall. intros c Hc. rewrite Forall_forall in H.
  apply H. by apply list_elem_of_In. Qed.

Lemma handleIdentifierOrKeyword_shape (fuel : nat) (l : Lexer) (t : Token) (l' : Lexer) :
  isalpha (peek l) || ascii_eqb (peek l) underscore = true →
  (String.length (input l) - position l < fuel)%nat →
  handleIdentifierOrKeyword fuel l = Some (t, l') →
  wellFormed t = true ∧ Token.line t = line l'.
Proof.
  intros Hcond Hfuel H.
  destruct (scan_spec wordChar eq_refl fuel "" l Hfuel)
    as (w & l1 & Hrun & Hin & Hrest & Hpos & Hline & Hall & Hend).
  rewrite string_app_nil_l in Hrun.
  unfold handleIdentifierOrKeyword in H. unfold wordChar in Hrun.
  rewrite Hrun in H. cbn [mbind option_bind] in H.
  assert (wordShape w = true) as Hshape.
  { destruct w as [|c w].
    - simpl in Hrest. rewrite peek_rest in Hcond, Hend. rewrite <- Hrest in Hend.
      unfold wordChar, isalnum in Hend.
      apply orb_true_iff in Hcond as [Hc|Hc]; rewrite Hc in Hend;
        [done|by rewrite orb_true_r in Hend].
    - unfold wordShape. rewrite peek_rest, Hrest in Hcond. simpl in Hcond.
      rewrite Hcond. by rewrite (forallb_Forall wordChar _ Hall). }
  destruct (bool_decide (transform tolower (String.string_of_list_ascii w) ∈ keywords))
    eqn:Hkw; injection H as <- <-; (split; [|done]);
    unfold wellFormed; cbn [Token.type Token.value];
    by rewrite chars_of_list, Hshape, Hkw.
Qed.

Lemma handleLiteral_shape (fuel : nat) (l : Lexer) (t : Token) (l' : Lexer) :
  isdigit (peek l) = true →
  (String.length (input l) - position l < fuel)%nat →
  handleLiteral fuel l = Some (t, l') →
  wellFormed t = true ∧ Token.line t = line l'.
Proof.
  intros Hcond Hfuel H.
  destruct (scan_spec isdigit eq_refl fuel "" l Hfuel)
    as (w & l1 & Hrun & Hin & Hrest & Hpos & Hline & Hall & Hend).
  rewrite string_app_nil_l in Hrun.
  unfold handleLiteral in H. rewrite Hrun in H. cbn [mbind option_bind] in H.
  injection H as <- <-. split; [|done].
  unfold wellFormed. cbn [Token.type Token.value]. rewrite chars_of_list.
  rewrite (forallb_Forall isdigit _ Hall), andb_true_r.
  destruct w as [|c w]; [|done].
  simpl in Hrest. rewrite peek_rest in Hcond, Hend. rewrite <- Hrest in Hend. congruence.
Qed.

Lemma handleSymbol_shape (l : Lexer) :
  ispunct (peek l) = true → ascii_eqb (peek l) dquote = false →
  ascii_eqb (peek l) underscore = false →
  wellFormed (handleSymbol l).1 = true ∧
  Token.line (handleSymbol l).1 = line (handleSymbol l).2.
Proof.
  intros H1 H2 H3. unfold handleSymbol, advance. cbn [fst snd Token.line].
  split; [|done]. unfold wellFormed. cbn [Token.type Token.value].
  change (chars (string1 (peek l))) with [peek l]. cbv beta iota zeta.
  by rewrite H1, H2, H3.
Qed.

Lemma handleStringLiteral_shape (fuel : nat) (l : Lexer) (t : Token) (l' : Lexer) :
  (String.length (input l) - position l < fuel)%nat →
  handleStringLiteral fuel l = Some (t, l') →
  wellFormed t = true ∧ Token.line t = line l'.
Proof.
  intros Hfuel H.
  destruct (scan_spec literalChar eq_refl fuel "" (advance l).2)
    as (w & l1 & Hrun & Hin & Hrest & Hpos & Hline & Hall & Hend).
  { unfold advance. simpl. lia. }
  rewrite string_app_nil_l in Hrun.
  unfold handleStringLiteral in H. unfold literalChar in Hrun.
  rewrite Hrun in H. cbn [mbind option_bind] in H.
  injection H as <- <-. split; [|done].
  unfold wellFormed. cbn [Token.type Token.value]. rewrite chars_of_list.
  by apply (forallb_Forall literalChar).
Qed.

Lemma ascending_snoc (toks : list Token) (t : Token) :
  ascending toks → Forall (λ a, Token.line a ≤ Token.line t) toks →
  ascending (toks ++ [t]).
Proof.
  intros Hasc Hall i j a b Hij Ha Hb.
  destruct (decide (j < length toks)%nat) as [Hj|Hj].
  - rewrite lookup_app_l in Ha, Hb by lia. exact (Hasc i j a b Hij Ha Hb).
  - rewrite lookup_app_r in Hb by lia.
    assert (b = t) as ->.
    { destruct (j - length toks)%nat as [|n]; simpl in Hb; [congruence|].
      by rewrite lookup_nil in Hb. }
    destruct (decide (i < length toks)%nat) as [Hi|Hi].
    + rewrite lookup_app_l in Ha by lia. rewrite Forall_forall in Hall.
      apply Hall. by eapply list_elem_of_lookup_2.
    + rewrite lookup_app_r in Ha by lia.
      destruct (i - length toks)%nat as [|n]; simpl in Ha; [by injection Ha as ->|].
      by rewrite lookup_nil in Ha.
Qed.

(** One turn of the loop of [tokenize] adds no token or one token of the
    right shape, on the line that the lexer has reached. *)
Lemma tokenizeStep_shape (fuel : nat) (toks : list Token) (l : Lexer) :
  (String.length (input l) < fuel)%nat →
  ∃ new w l',
    tokenizeStep fuel (toks, l) = Some (toks ++ new, l') ∧
    reads l l' w ∧ (position l < position l')%nat ∧
    (new = [] ∨
     ∃ t, new = [t] ∧ wellFormed t = true ∧ Token.type t ≠ END_OF_FILE ∧
          Token.line t = line l').
Proof.
  intros Hfuel.
  destruct (skipWhitespace_spec fuel l ltac:(lia))
    as (w0 & l0 & Hskip & Hin0 & Hrest0 & Hpos0 & Hline0 & Hspaces).
  assert (reads l l0 w0) as Hreads0 by done.
  assert (String.length (input l0) - position l0 < fuel)%nat as Hfuel0
    by (rewrite Hin0; lia).
  unfold tokenizeStep. cbn [fst snd]. rewrite Hskip. cbn [mbind option_bind].
  destruct (isalpha (peek l0) || ascii_eqb (peek l0) underscore) eqn:H1.
  { assert (isalnum (peek l0) || ascii_eqb (peek l0) underscore = true) as H1'.
    { unfold isalnum. apply orb_true_iff in H1 as [->| ->]; [done|apply orb_true_r]. }
    destruct (handleIdentifierOrKeyword_spec fuel l0 H1' Hfuel0)
      as (t & w & l' & Hh & Ht & Hv & Hr & Hp).
    destruct (handleIdentifierOrKeyword_shape fuel l0 t l' H1 Hfuel0 Hh) as [Hwf Hl].
    rewrite Hh. exists [t], (w0 ++ w), l'. cbn [mbind option_bind].
    split_and!; [done|by eapply reads_trans|lia|right; by exists t]. }
  destruct (isdigit (peek l0)) eqn:H2.
  { destruct (handleLiteral_spec fuel l0 H2 Hfuel0) as (t & w & l' & Hh & Ht & Hv & Hr & Hp).
    destruct (handleLiteral_shape fuel l0 t l' H2 Hfuel0 Hh) as [Hwf Hl].
    rewrite Hh. exists [t], (w0 ++ w), l'. cbn [mbind option_bind].
    split_and!; [done|by eapply reads_trans|lia|right; by exists t]. }
  destruct (ascii_eqb (peek l0) dquote) eqn:H3.
  { pose proof H3 as H3'. apply bool_decide_eq_true in H3'.
    destruct (peek_cons l0 dquote H3' ltac:(done)) as [r Hr0].
    destruct (handleStringLiteral_spec fuel l0 r Hr0 Hfuel0)
      as (t & w & l' & Hh & Ht & Hv & Hr & Hp).
    destruct (handleStringLiteral_shape fuel l0 t l' Hfuel0 Hh) as [Hwf Hl].
    rewrite Hh. exists [t], (w0 ++ w), l'. cbn [mbind option_bind].
    split_and!; [done|by eapply reads_trans|lia|right; by exists t]. }
  destruct (ispunct (peek l0)) eqn:H4.
  { destruct (peek_cons l0 (peek l0) eq_refl) as [r Hr0].
    { intros Hn. by rewrite Hn in H4. }
    apply orb_false_iff in H1 as [_ H1].
    destruct (handleSymbol_shape l0 H4 H3 H1) as [Hwf Hl].
    destruct (handleSymbol_spec l0 _ r Hr0 H4 H3) as (t & l' & Hh & Ht & Hv & Hr & Hp).
    rewrite Hh in Hwf, Hl. rewrite Hh. exists [t], (w0 ++ [peek l0]), l'.
    split_and!; [done|by eapply reads_trans|lia|right; by exists t]. }
  destruct (tokenizeStep_spec fuel toks l Hfuel) as (new_ & w & l' & Hstep & Hr & Hp & _).
  unfold tokenizeStep in Hstep. cbn [fst snd] in Hstep. rewrite Hskip in Hstep.
  cbn [mbind option_bind] in Hstep. rewrite H1, H2, H3, H4 in Hstep.
  injection Hstep as Hnew <-. apply (f_equal length) in Hnew.
  rewrite length_app in Hnew. destruct new_; [|simpl in Hnew; lia].
  exists [], w, (advance l0).2. rewrite app_nil_r. split_and!; [done|done|done|by left].
Qed.

(** [tokenize] on any text: the tokens and their shapes, and their lines
    as long as the line counter stays below [INT_MAX]. *)
Lemma tokenize_shape (text : string) (fuel : nat) :
  (S (String.length text) < fuel)%nat →
  ∃ toks,
    tokenize fuel (new text)
    = Some (toks ++ [Token.mk END_OF_FILE "" (wrap (1 + newlines (chars text)))]) ∧
    Forall (λ t, wellFormed t = true ∧ Token.type t ≠ END_OF_FILE) toks ∧
    (1 + newlines (chars text) ≤ INT_MAX →
     Forall (λ t, 1 ≤ Token.line t ≤ 1 + newlines (chars text)) toks ∧
     ascending toks).
Proof.
  intros Hfuel.
  destruct (while_rule
    (λ s : list Token * Lexer,
       input s.2 = text ∧
       (∃ done_, chars text = done_ ++ rest s.2 ∧ line s.2 = lineAfter 1 done_) ∧
       Forall (λ t, wellFormed t = true ∧ Token.type t ≠ END_OF_FILE) s.1 ∧
       (1 + newlines (chars text) ≤ INT_MAX →
        Forall (λ t, 1 ≤ Token.line t ≤ line s.2) s.1 ∧ ascending s.1))
    (λ s, S (String.length text) - position s.2)%nat
    (λ s, bool_decide (position s.2 < String.length (input s.2))%nat)
    (tokenizeStep fuel)) with (fuel := fuel) (s := ([] : list Token, new text))
    as ([toks l] & Hrun & (Hin & (done_ & Hdone & Hline) & Hall & Hlines) & Hcond).
  - intros [toks l] (Hin & (done_ & Hdone & Hline) & Hall & Hlines) Hcond.
    cbn [fst snd] in *. apply bool_decide_eq_true in Hcond.
    destruct (tokenizeStep_shape fuel toks l ltac:(rewrite Hin; lia))
      as (new_ & w & l' & Hstep & Hr & Hpos & Hnew).
    pose proof Hr as (Hin' & Hrest' & Hline').
    exists (toks ++ new_, l'). cbn [fst snd].
    split; [done|]. split; [|rewrite Hin in Hcond; lia].
    split_and!; [congruence| | |].
    + exists (done_ ++ w). split.
      * by rewrite Hdone, Hrest', (assoc_L (++)).
      * by rewrite lineAfter_app, <- Hline.
    + apply Forall_app. split; [done|].
      destruct Hnew as [->|(t & -> & Hwf & Hne & Hlt)]; [constructor|].
      by repeat constructor.
    + intros Hmax. destruct (Hlines Hmax) as [Hbound Hasc].
      pose proof (newlines_nonneg done_). pose proof (newlines_nonneg w).
      pose proof (newlines_nonneg (rest l')).
      assert (newlines (chars text) = newlines done_ + newlines w + newlines (rest l'))
        as Hcount by (by rewrite Hdone, Hrest', !newlines_app; lia).
      assert (line l = 1 + newlines done_) as Hl
        by (rewrite Hline; apply lineAfter_small; lia).
      assert (line l' = line l + newlines w) as Hl'
        by (apply (reads_line l l' w Hr); lia).
      assert (Forall (λ t, 1 ≤ Token.line t ≤ line l') toks) as Hbound'.
      { eapply Forall_impl; [exact Hbound|]. intros t ?. simpl in *. lia. }
      destruct Hnew as [->|(t & -> & Hwf & Hne & Hlt)]; [by rewrite app_nil_r|].
      split.
      * apply Forall_app. split; [done|]. constructor; [lia|constructor].
      * apply ascending_snoc; [done|].
        eapply Forall_impl; [exact Hbound'|]. intros a Ha. simpl in Ha. lia.
  - cbn [fst snd]. unfold rest, new. cbn [input position line drop].
    split_and!; [done|by exists []|constructor|].
    intros _. split; [constructor|]. intros i j a b _ Ha. by rewrite lookup_nil in Ha.
  - cbn [snd new position]. lia.
  - cbn [fst snd] in *. apply bool_decide_eq_false in Hcond.
    assert (rest l = []) as Hrest.
    { unfold rest. apply drop_ge. rewrite chars_length. lia. }
    rewrite Hrest, app_nil_r in Hdone. subst done_.
    assert (line l = wrap (1 + newlines (chars text))) as Hl
      by (rewrite Hline; apply lineAfter_wrap; unfold INT_MAX; lia).
    exists toks. unfold tokenize. rewrite Hrun. cbn [mbind option_bind].
    split_and!; [by rewrite Hl|done|].
    intros Hmax. destruct (Hlines Hmax) as [Hbound Hasc]. split; [|done].
    pose proof (newlines_nonneg (chars text)).
    rewrite Hl, wrap_small in Hbound by lia. done.
Qed.

End LexerShape.

(** X7. Every token that [tokenize] returns has the shape of its kind: a
    keyword or an identifier is a word that starts with a letter or an
    underscore, and it is a keyword exactly when its lower-case form is one
    of the eleven keywords; a literal is a non-empty run of digits; a symbol
    is one punctuation character other than the double quote and the
    underscore; the text of a string literal holds no double quote; the
    last token, and only the last, is [END_OF_FILE], with an empty text.
    No token is an [OPERATOR] or a [COMMENT]. *)
Theorem tokens_well_formed (text : string) (fuel : nat) :
  (S (String.length text) < fuel)%nat →
  ∃ toks eof,
    Lexer.tokenize fuel (Lexer.new text) = Some (toks ++ [eof]) ∧
    Forall (λ t, wellFormed t = true ∧ Token.type t ≠ END_OF_FILE) toks ∧
    wellFormed eof = true ∧ Token.type eof = END_OF_FILE.
Proof.
  intros Hfuel. destruct (tokenize_shape text fuel Hfuel) as (toks & Hrun & Hall & _).
  by exists toks, (Token.mk END_OF_FILE "" (wrap (1 + newlines (chars text)))).
Qed.

Lemma tokens_well_formed_witness :
  ∃ toks eof,
    Lexer.tokenize 40 (Lexer.new select_call) = Some (toks ++ [eof]) ∧
    Forall (λ t, wellFormed t = true ∧ Token.type t ≠ END_OF_FILE) toks ∧
    wellFormed eof = true ∧ Token.type eof = END_OF_FILE.
Proof. apply (tokens_well_formed select_call 40). vm_compute. lia. Defined.

(** X8. In a text with fewer than [INT_MAX] newlines, so that the line
    counter does not pass [INT_MAX], the line numbers of the tokens never
    go down along the token sequence, and they lie between 1 and the line of
    the [END_OF_FILE] token, which is one more than the number of newline
    characters of the text. *)
Theorem token_lines_ascend (text : string) (fuel : nat) :
  (S (String.length text) < fuel)%nat →
  1 + newlines (chars text) ≤ INT_MAX →
  ∃ toks,
    Lexer.tokenize fuel (Lexer.new text)
    = Some (toks ++ [Token.mk END_OF_FILE "" (1 + newlines (chars text))]) ∧
    ascending (toks ++ [Token.mk END_OF_FILE "" (1 + newlines (chars text))]) ∧
    Forall (λ t, 1 ≤ Token.line t ≤ 1 + newlines (chars text))
      (toks ++ [Token.mk END_OF_FILE "" (1 + newlines (chars text))]).
Proof.
  intros Hfuel Hmax.
  destruct (tokenize_shape text fuel Hfuel) as (toks & Hrun & _ & Hlines).
  destruct (Hlines Hmax) as [Hbound Hasc].
  pose proof (newlines_nonneg (chars text)) as Hn.
  rewrite wrap_small in Hrun by lia.
  exists toks. split_and!; [done| |].
  - apply ascending_snoc; [done|].
    eapply Forall_impl; [exact Hbound|]. intros t Ht. cbv beta in *.
    cbn [Token.line]. lia.
  - apply Forall_app. split; [done|]. constructor; [cbn [Token.line]; lia|constructor].
Qed.

Lemma token_lines_ascend_witness :
  ∃ toks,
    Lexer.tokenize 40 (Lexer.new select_call)
    = Some (toks ++ [Token.mk END_OF_FILE "" (1 + newlines (chars select_call))]) ∧
    ascending (toks ++ [Token.mk END_OF_FILE "" (1 + newlines (chars select_call))]) ∧
    Forall (λ t, 1 ≤ Token.line t ≤ 1 + newlines (chars select_call))
      (toks ++ [Token.mk END_OF_FILE "" (1 + newlines (chars select_call))]).
Proof.
  apply (token_lines_ascend select_call 40).
  - vm_compute. lia.
  - vm_compute. discriminate.
Defined.

Section LexerRuns.

Import Lexer.

Lemma rest_new (text : string) : rest (new text) = chars text.
Proof. done. Qed.

Lemma rest_nil_end (l : Lexer) :
  rest l = [] → ¬ (position l < String.length (input l))%nat.
Proof.
  unfold rest. intros H Hlt. apply (f_equal length) in H.
  rewrite length_drop, chars_length in H. simpl in H. lia.
Qed.

(** When one turn of the loop of [tokenize] reads the whole text, the loop
    ends after it. *)
Lemma tokenize_single (fuel : nat) (text : string) (toks : list Token) (l' : Lexer) :
  text ≠ "" → (1 < fuel)%nat →
  tokenizeStep fuel ([], new text) = Some (toks, l') → rest l' = [] →
  tokenize fuel (new text) = Some (toks ++ [Token.mk END_OF_FILE "" (line l')]).
Proof.
  intros Hne Hfuel Hstep Hrest.
  destruct fuel as [|[|fuel]]; [lia|lia|].
  unfold tokenize. cbn [while]. cbn [fst snd new position input].
  rewrite bool_decide_eq_true_2 by (destruct text; [done|simpl; lia]).
  change (mk text 0 1) with (new text). rewrite Hstep.
  cbn [mbind option_bind fst snd].
  by rewrite (bool_decide_eq_false_2 _ (rest_nil_end l' Hrest)).
Qed.

Lemma skipWhitespace_none (fuel : nat) (l : Lexer) :
  (0 < fuel)%nat → isspace (peek l) = false → skipWhitespace fuel l = Some l.
Proof.
  intros Hfuel H. destruct fuel; [lia|]. unfold skipWhitespace. simpl. by rewrite H.
Qed.

Lemma literalChar_quote (w : list ascii) :
  forallb literalChar w = true → Forall (λ c, literalChar c = true) w.
Proof. intros H. apply Forall_forall. intros c Hc.
  rewrite forallb_forall in H. apply H. by apply list_elem_of_In. Qed.

(** A string literal that makes up the rest of the text, closed or not. *)
Lemma handleStringLiteral_run (fuel : nat) (l : Lexer) (s : string) (close : list ascii) :
  rest l = dquote :: chars s ++ close → close = [dquote] ∨ close = [] →
  forallb literalChar (chars s) = true →
  (String.length (input l) - position l < fuel)%nat →
  ∃ l', handleStringLiteral fuel l
        = Some (Token.mk STRING_LITERAL s (lineAfter (line l) (chars s)), l') ∧
        rest l' = [] ∧ line l' = lineAfter (line l) (chars s).
Proof.
  intros Hr Hclose Hs Hfuel.
  destruct (advance_cons l dquote _ Hr) as (_ & Hr1 & Hin & Hpos & Hline & _).
  destruct (scan_spec literalChar eq_refl fuel "" (advance l).2)
    as (w & l2 & Hrun & Hin2 & Hrest2 & Hpos2 & Hline2 & Hall & Hend).
  { rewrite Hin, Hpos. lia. }
  rewrite string_app_nil_l in Hrun. rewrite Hr1 in Hrest2.
  destruct (run_unique literalChar (chars s) w close (rest l2) Hrest2
              (literalChar_quote _ Hs) Hall
              ltac:(by destruct Hclose as [-> | ->])
              (peek_stop literalChar l2 Hend)) as [<- Hr2].
  change (lineAfter (line l) [dquote]) with (line l) in Hline.
  rewrite Hline in Hline2.
  unfold handleStringLiteral. unfold literalChar in Hrun. rewrite Hrun.
  cbn [mbind option_bind].
  replace (String.string_of_list_ascii (chars s)) with s
    by (symmetry; apply String.string_of_list_ascii_of_string).
  destruct Hclose as [-> | ->].
  - symmetry in Hr2.
    destruct (advance_cons l2 dquote [] Hr2) as (Hpeek & Hr3 & _ & _ & Hline3 & _).
    rewrite Hpeek. change (ascii_eqb dquote dquote) with true. cbv iota.
    change (lineAfter (line l2) [dquote]) with (line l2) in Hline3.
    exists (advance l2).2. split_and!; [do 3 f_equal; congruence|done|congruence].
  - assert (peek l2 = nul) as Hpeek by (by rewrite peek_rest, <- Hr2).
    rewrite Hpeek. change (ascii_eqb nul dquote) with false. cbv iota.
    exists l2. split_and!; [do 3 f_equal; congruence|done|congruence].
Qed.

Lemma tokenize_string_literal (fuel : nat) (s : string) (close : list ascii) :
  close = [dquote] ∨ close = [] →
  forallb literalChar (chars s) = true →
  (S (S (S (String.length s))) < fuel)%nat →
  tokenize fuel (new (String dquote (s +:+ String.string_of_list_ascii close)))
  = Some [ Token.mk STRING_LITERAL s (wrap (1 + newlines (chars s)));
           Token.mk END_OF_FILE "" (wrap (1 + newlines (chars s))) ].
Proof.
  intros Hclose Hs Hfuel.
  set (text := String dquote (s +:+ String.string_of_list_ascii close)).
  assert (String.length text ≤ S (S (String.length s)))%nat as Hlen.
  { unfold text. simpl. rewrite <- !chars_length, chars_app, length_app, chars_of_list.
    destruct Hclose as [-> | ->]; simpl; lia. }
  destruct (handleStringLiteral_run fuel (new text) s close) as (l' & Hh & Hrest & Hline);
    [|done|done| |].
  { rewrite rest_new. unfold text. change (chars (String dquote ?x)) with (dquote :: chars x).
    by rewrite chars_app, chars_of_list. }
  { cbn [new input position]. lia. }
  cbn [new line] in Hh, Hline.
  rewrite (lineAfter_wrap 1 (chars s)) in Hh, Hline by (unfold INT_MAX; lia).
  rewrite (tokenize_single fuel text
             [Token.mk STRING_LITERAL s (wrap (1 + newlines (chars s)))] l');
    [by rewrite Hline|done|lia| |done].
  unfold tokenizeStep. cbn [fst snd].
  rewrite skipWhitespace_none by (done || lia). cbn [mbind option_bind].
  change (peek (new text)) with dquote.
  change (isalpha dquote || ascii_eqb dquote underscore) with false.
  change (isdigit dquote) with false. change (ascii_eqb dquote dquote) with true.
  cbv iota. by rewrite Hh.
Qed.

(** On a text of white space the first turn of the loop reads it all and
    makes no token. *)
Lemma tokenizeStep_blank (fuel : nat) (text : string) :
  Forall (λ c, isspace c = true) (chars text) →
  (String.length text < fuel)%nat →
  ∃ l', tokenizeStep fuel ([], new text) = Some ([], l') ∧ rest l' = [] ∧
        line l' = wrap (1 + newlines (chars text)).
Proof.
  intros Hall Hfuel.
  destruct (skipWhitespace_spec fuel (new text) ltac:(simpl; lia))
    as (w0 & l0 & Hskip & Hin0 & Hrest0 & Hpos0 & Hline0 & Hspaces).
  pose proof (while_end _ _ _ _ _ Hskip) as Hend. cbv beta in Hend.
  rewrite rest_new in Hrest0.
  destruct (run_unique isspace (chars text) w0 [] (rest l0)
              ltac:(by rewrite app_nil_r) Hall Hspaces I (peek_stop isspace l0 Hend))
    as [<- Hr0].
  assert (peek l0 = nul) as Hpeek by (by rewrite peek_rest, <- Hr0).
  unfold tokenizeStep. cbn [fst snd]. rewrite Hskip. cbn [mbind option_bind].
  rewrite Hpeek. change (isalpha nul || ascii_eqb nul underscore) with false.
  change (isdigit nul) with false. change (ascii_eqb nul dquote) with false.
  change (ispunct nul) with false. cbv iota.
  exists (advance l0).2. split_and!; [done|by rewrite rest_advance, <- Hr0|].
  unfold advance. cbn [snd line]. rewrite Hpeek.
  change (ascii_eqb nul newline) with false. cbv iota.
  rewrite Hline0. cbn [new line]. apply lineAfter_wrap. unfold INT_MAX. lia.
Qed.

Lemma tokenize_blank (fuel : nat) (text : string) :
  Forall (λ c, isspace c = true) (chars text) →
  (S (String.length text) < fuel)%nat →
  tokenize fuel (new text)
  = Some [Token.mk END_OF_FILE "" (wrap (1 + newlines (chars text)))].
Proof.
  intros Hall Hfuel. destruct (decide (text = "")) as [->|Hne].
  - destruct fuel; [lia|]. done.
  - destruct (tokenizeStep_blank fuel text Hall ltac:(lia)) as (l' & Hstep & Hrest & Hline).
    rewrite (tokenize_single fuel text [] l' Hne ltac:(lia) Hstep Hrest).
    by rewrite Hline.
Qed.

End LexerRuns.

(** X9. A string literal becomes one token whose text is the literal
    without its quotes, and so does a literal that is not closed: it runs
    to the end of the text and nothing reports it.  The token carries the
    line on which the literal ends: one more than the number of newlines in
    it, as an [int]. *)
Theorem string_literal_round_trip (s : string) (fuel : nat) :
  forallb literalChar (chars s) = true →
  (S (S (S (String.length s))) < fuel)%nat →
  Lexer.tokenize fuel (Lexer.new (quoted s))
  = Some [ Token.mk STRING_LITERAL s (wrap (1 + newlines (chars s)));
           Token.mk END_OF_FILE "" (wrap (1 + newlines (chars s))) ] ∧
  Lexer.tokenize fuel (Lexer.new (String dquote s))
  = Some [ Token.mk STRING_LITERAL s (wrap (1 + newlines (chars s)));
           Token.mk END_OF_FILE "" (wrap (1 + newlines (chars s))) ] ∧
  (1 + newlines (chars s) ≤ INT_MAX →
   wrap (1 + newlines (chars s)) = 1 + newlines (chars s)).
Proof.
  intros Hs Hfuel. split_and!.
  - exact (tokenize_string_literal fuel s [dquote] (or_introl eq_refl) Hs Hfuel).
  - pose proof (tokenize_string_literal fuel s [] (or_intror eq_refl) Hs Hfuel) as H.
    simpl in H. by rewrite string_app_nil_r in H.
  - intros Hmax. pose proof (newlines_nonneg (chars s)). apply wrap_small. lia.
Qed.

Lemma string_literal_round_trip_witness :
  Lexer.tokenize 20 (Lexer.new (quoted ("a b" +:+ endl +:+ "c")))
  = Some [ Token.mk STRING_LITERAL ("a b" +:+ endl +:+ "c")
             (wrap (1 + newlines (chars ("a b" +:+ endl +:+ "c"))));
           Token.mk END_OF_FILE ""
             (wrap (1 + newlines (chars ("a b" +:+ endl +:+ "c")))) ] ∧
  Lexer.tokenize 20 (Lexer.new (String dquote ("a b" +:+ endl +:+ "c")))
  = Some [ Token.mk STRING_LITERAL ("a b" +:+ endl +:+ "c")
             (wrap (1 + newlines (chars ("a b" +:+ endl +:+ "c"))));
           Token.mk END_OF_FILE ""
             (wrap (1 + newlines (chars ("a b" +:+ endl +:+ "c")))) ] ∧
  (1 + newlines (chars ("a b" +:+ endl +:+ "c")) ≤ INT_MAX →
   wrap (1 + newlines (chars ("a b" +:+ endl +:+ "c")))
   = 1 + newlines (chars ("a b" +:+ endl +:+ "c"))).
Proof.
  apply (string_literal_round_trip ("a b" +:+ endl +:+ "c") 20).
  - reflexivity.
  - vm_compute. lia.
Defined.

(** X10. A text of white space only, the empty text among them, gives the
    [END_OF_FILE] token alone; its line is one more than the number of
    newlines, as an [int]. *)
Theorem blank_text_has_no_token (text : string) (fuel : nat) :
  Forall (λ c, isspace c = true) (chars text) →
  (S (String.length text) < fuel)%nat →
  Lexer.tokenize fuel (Lexer.new text)
  = Some [Token.mk END_OF_FILE "" (wrap (1 + newlines (chars text)))] ∧
  (1 + newlines (chars text) ≤ INT_MAX →
   wrap (1 + newlines (chars text)) = 1 + newlines (chars text)).
Proof.
  intros Hblank Hfuel. split; [by apply tokenize_blank|].
  intros Hmax. pose proof (newlines_nonneg (chars text)). apply wrap_small. lia.
Qed.

Lemma blank_text_has_no_token_witness :
  Lexer.tokenize 10 (Lexer.new (" " +:+ endl +:+ "  "))
  = Some [Token.mk END_OF_FILE ""
            (wrap (1 + newlines (chars (" " +:+ endl +:+ "  "))))] ∧
  (1 + newlines (chars (" " +:+ endl +:+ "  ")) ≤ INT_MAX →
   wrap (1 + newlines (chars (" " +:+ endl +:+ "  ")))
   = 1 + newlines (chars (" " +:+ endl +:+ "  "))).
Proof.
  apply (blank_text_has_no_token (" " +:+ endl +:+ "  ") 10).
  - repeat constructor.
  - vm_compute. lia.
Defined.

Section LexerWords.

Import Lexer.

Lemma word_start_not_space (c : ascii) :
  isalpha c || ascii_eqb c underscore = true → isspace c = false.
Proof. destruct c as [[] [] [] [] [] [] [] []]; vm_compute; congruence. Qed.

Lemma wordChar_not_newline (c : ascii) :
  wordChar c = true → ascii_eqb c newline = false.
Proof. destruct c as [[] [] [] [] [] [] [] []]; vm_compute; congruence. Qed.

Lemma word_no_newline (w : list ascii) :
  Forall (λ c, wordChar c = true) w → newlines w = 0.
Proof.
  induction 1 as [|c w Hc _ IH]; [done|].
  by rewrite newlines_cons, (wordChar_not_newline c Hc), IH.
Qed.

(** A word that makes up the whole text. *)
Lemma tokenizeStep_word (fuel : nat) (w : string) :
  wordShape (chars w) = true → (String.length w < fuel)%nat →
  ∃ l', tokenizeStep fuel ([], new w)
        = Some ([Token.mk (if bool_decide (transform tolower w ∈ keywords)
                           then KEYWORD else IDENTIFIER) w 1], l') ∧
        rest l' = [] ∧ line l' = 1.
Proof.
  intros Hshape Hfuel.
  destruct (chars w) as [|c cs] eqn:Hw; [done|].
  unfold wordShape in Hshape. apply andb_true_iff in Hshape as [Hstart Hall].
  assert (Forall (λ c, wordChar c = true) (chars w)) as Hall'.
  { rewrite Hw. apply Forall_forall. intros x Hx. rewrite forallb_forall in Hall.
    apply Hall. by apply list_elem_of_In. }
  assert (peek (new w) = c) as Hpeek by (by rewrite peek_rest, rest_new, Hw).
  destruct (scan_spec wordChar eq_refl fuel "" (new w) ltac:(simpl; lia))
    as (w' & l1 & Hrun & Hin & Hrest & Hpos & Hline & Hall1 & Hend).
  rewrite string_app_nil_l in Hrun. rewrite rest_new in Hrest.
  destruct (run_unique wordChar (chars w) w' [] (rest l1)
              ltac:(by rewrite app_nil_r) Hall' Hall1 I (peek_stop wordChar l1 Hend))
    as [<- Hr1].
  cbn [new line] in Hline.
  rewrite lineAfter_small, (word_no_newline _ Hall') in Hline
    by (rewrite ?(word_no_newline _ Hall'); unfold INT_MAX; lia).
  unfold tokenizeStep. cbn [fst snd].
  rewrite skipWhitespace_none
    by (lia || (rewrite Hpeek; by apply word_start_not_space)).
  cbn [mbind option_bind]. rewrite Hpeek, Hstart.
  unfold handleIdentifierOrKeyword. unfold wordChar in Hrun. rewrite Hrun.
  cbn [mbind option_bind].
  replace (String.string_of_list_ascii (chars w)) with w
    by (symmetry; apply String.string_of_list_ascii_of_string).
  replace (line l1) with 1 by lia.
  exists l1.
  destruct (bool_decide (transform tolower w ∈ keywords)); (split_and!; [done|done|lia]).
Qed.

End LexerWords.

(** X11. A word, a run of letters, digits and underscores that does not
    start with a digit, becomes one token with the text as it was written.
    The token is a keyword when the lower-case form of the word is one of
    the keywords, whatever the case of its letters, and an identifier
    otherwise. *)
Theorem word_token (w : string) (fuel : nat) :
  wordShape (chars w) = true → (S (String.length w) < fuel)%nat →
  Lexer.tokenize fuel (Lexer.new w)
  = Some [ Token.mk (if bool_decide (transform tolower w ∈ keywords)
                     then KEYWORD else IDENTIFIER) w 1;
           Token.mk END_OF_FILE "" 1 ].
Proof.
  intros Hshape Hfuel.
  destruct (tokenizeStep_word fuel w Hshape ltac:(lia)) as (l' & Hstep & Hrest & Hline).
  rewrite (tokenize_single fuel w _ l' ltac:(by destruct w) ltac:(lia) Hstep Hrest).
  by rewrite Hline.
Qed.

Lemma word_token_witness :
  Lexer.tokenize 10 (Lexer.new "SeLect")
  = Some [ Token.mk (if bool_decide (transform tolower "SeLect" ∈ keywords)
                     then KEYWORD else IDENTIFIER) "SeLect" 1;
           Token.mk END_OF_FILE "" 1 ].
Proof. apply (word_token "SeLect" 10); [reflexivity|vm_compute; lia]. Defined.

(** *** The program *)

Section ProgramRuns.

Variable entries : gmap string string → list (string * string).
Hypothesis entries_order : iteration_order entries.


(** The three stages after one another, for a text whose preprocessing
    ends. *)
Lemma main_ends (sourceCode out : string) (m : gmap string string) (fuel1 : nat) :
  Preprocessor.process entries fuel1 sourceCode ∅ = Some (out, m) →
  ∃ fuel0 toks,
    ∀ fuel, (fuel0 ≤ fuel)%nat →
      Preprocessor.process entries fuel sourceCode ∅ = Some (out, m) ∧
      Lexer.tokenize fuel (Lexer.new out)
      = Some (toks ++ [Token.mk END_OF_FILE "" (wrap (1 + newlines (chars out)))]) ∧
      (1 + newlines (chars out) ≤ INT_MAX →
       Forall (λ t, 1 ≤ Token.line t ≤ 1 + newlines (chars out)) toks) ∧
      ∃ formattedCode, main entries fuel sourceCode = Some formattedCode.
Proof.
  intros Hprocess.
  destruct (tokenize_shape out (S (S (String.length out))) ltac:(lia))
    as (toks & Htok & _ & Hall).
  set (ts := toks ++ [Token.mk END_OF_FILE "" (wrap (1 + newlines (chars out)))]) in *.
  exists (fuel1 `max` (S (S (String.length out)) `max` S (length ts)))%nat, toks.
  intros fuel Hfuel.
  pose proof (process_mono entries fuel1 fuel sourceCode ∅ _ ltac:(lia) Hprocess) as H1.
  pose proof (tokenize_mono (S (S (String.length out))) fuel _ _ ltac:(lia) Htok)
    as H2.
  split_and!; [done|done| |].
  { intros Hmax. by destruct (Hall Hmax). }
  destruct (firstPass_statements ts fuel ltac:(lia)) as (p1 & K & H3 & _ & _ & Ht & Hi).
  destruct (secondPass_statements ts fuel ltac:(lia) p1 Ht Hi) as (K' & q & H4 & _).
  exists (Parser.formattedCode q). unfold main.
  rewrite H1. cbn [mbind option_bind]. rewrite H2. cbn [mbind option_bind].
  rewrite H3. cbn [mbind option_bind]. by rewrite H4.
Qed.

End ProgramRuns.

(** X12. The program ends on every text in which every [#define] line
    names what it defines: with fuel enough, preprocessing, the lexer and
    both passes return, and there is a formatted text. *)
Theorem program_ends
    (entries : gmap string string → list (string * string)) (sourceCode : string) :
  iteration_order entries →
  named_directives sourceCode = true →
  ∃ fuel0, ∀ fuel, (fuel0 ≤ fuel)%nat →
    ∃ formattedCode, main entries fuel sourceCode = Some formattedCode.
Proof.
  intros Horder Hnamed.
  destruct (processLines_terminates entries Horder (getlines sourceCode) ∅ [])
    as (fuel1 & Hfuel1); [apply getlines_no_newline|done|done|].
  destruct (Hfuel1 fuel1 ltac:(lia)) as (ls & m & Hrun & _).
  destruct (main_ends entries sourceCode (unlines ls) m fuel1 Hrun) as (fuel0 & toks & H).
  exists fuel0. intros fuel Hfuel. by destruct (H fuel Hfuel) as (_ & _ & _ & ?).
Qed.

Lemma program_ends_witness :
  ∃ fuel0, ∀ fuel, (fuel0 ≤ fuel)%nat →
    ∃ formattedCode,
      main map_to_list fuel ("#define FOO bar" +:+ endl +:+ "FOO(1)")
      = Some formattedCode.
Proof.
  apply (program_ends map_to_list ("#define FOO bar" +:+ endl +:+ "FOO(1)")).
  - intros m. reflexivity.
  - reflexivity.
Defined.



Section BlankText.

Lemma blank_getlines (s : string) :
  Forall (λ c, isspace c = true) (chars s) →
  Forall (λ l, Forall (λ c, isspace c = true) (chars l)) (getlines s).
Proof.
  induction s as [|c s IH]; intros H; [constructor|].
  change (chars (String c s)) with (c :: chars s) in H.
  apply Forall_cons in H as [Hc Hs]. specialize (IH Hs). cbn [getlines].
  destruct (ascii_eqb c newline); [by constructor|].
  destruct (getlines s) as [|l ls]; [by repeat constructor|].
  apply Forall_cons in IH as [Hl Hls]. constructor; [|done].
  change (chars (String c l)) with (c :: chars l). by constructor.
Qed.

Lemma blank_not_define (l : string) :
  Forall (λ c, isspace c = true) (chars l) → Preprocessor.isDefine l = false.
Proof.
  destruct l as [|c l]; [done|]. intros H.
  change (chars (String c l)) with (c :: chars l) in H.
  apply Forall_cons in H as [Hc _]. unfold Preprocessor.isDefine.
  cbn [String.prefix]. destruct (Ascii.ascii_dec _ c) as [<-|]; done.
Qed.

Lemma blank_unlines (ls : list string) :
  Forall (λ l, Forall (λ c, isspace c = true) (chars l)) ls →
  Forall (λ c, isspace c = true) (chars (unlines ls)).
Proof.
  induction 1 as [|l ls Hl _ IH]; [constructor|].
  cbn [unlines]. rewrite !chars_app. apply Forall_app. split; [done|].
  apply Forall_app. split; [by repeat constructor|done].
Qed.

Lemma unlines_getlines_length (s : string) :
  (String.length (unlines (getlines s)) ≤ S (String.length s))%nat.
Proof.
  induction s as [|c s IH]; [simpl; lia|]. cbn [getlines].
  destruct (ascii_eqb c newline).
  - cbn [unlines]. rewrite string_app_nil_l.
    rewrite <- !chars_length, chars_app, length_app in *. simpl. lia.
  - destruct (getlines s) as [|l ls]; [simpl; lia|].
    cbn [unlines] in *.
    change (String c l +:+ endl +:+ unlines ls)
      with (String c (l +:+ endl +:+ unlines ls)).
    simpl. lia.
Qed.

End BlankText.

(** X14. On a text of white space only, the empty text among them, the
    program writes the empty text: there is no token to format. *)
Theorem blank_program
    (entries : gmap string string → list (string * string))
    (sourceCode : string) (fuel : nat) :
  iteration_order entries →
  Forall (λ c, isspace c = true) (chars sourceCode) →
  (S (S (String.length sourceCode)) < fuel)%nat →
  main entries fuel sourceCode = Some "".
Proof.
  intros Horder Hblank Hfuel.
  pose proof (blank_getlines sourceCode Hblank) as Hlines.
  assert (plain sourceCode = true) as Hplain.
  { unfold plain. apply forallb_forall. intros l Hl. rewrite Forall_forall in Hlines.
    by rewrite (blank_not_define l (Hlines l (proj2 (list_elem_of_In _ _) Hl))). }
  pose proof (unlines_getlines_length sourceCode) as Hlen.
  unfold main. rewrite (process_plain entries Horder fuel sourceCode Hplain).
  cbn [mbind option_bind].
  rewrite (tokenize_blank fuel _ (blank_unlines _ Hlines) ltac:(lia)).
  cbn [mbind option_bind].
  destruct fuel as [|fuel]; [lia|]. done.
Qed.

Lemma blank_program_witness :
  main map_to_list 10 (" " +:+ endl +:+ "  ") = Some "".
Proof.
  apply (blank_program map_to_list (" " +:+ endl +:+ "  ") 10).
  - intros m. reflexivity.
  - repeat constructor.
  - vm_compute. lia.
Defined.

(** *** The preprocessor *)

Section Directives.

Lemma skipws_blank_app (sp s : string) :
  blank sp = true → skipws (sp +:+ s) = skipws s.
Proof.
  unfold blank. induction sp as [|c sp IH]; [done|].
  change (chars (String c sp)) with (c :: chars sp). cbn [forallb].
  intros [Hc Hsp]%andb_true_iff.
  change (String c sp +:+ s) with (String c (sp +:+ s)). cbn [skipws].
  rewrite Hc. by apply IH.
Qed.

Lemma skipws_blank (sp : string) : blank sp = true → skipws sp = "".
Proof.
  intros H. rewrite <- (string_app_nil_r sp). by rewrite skipws_blank_app.
Qed.

Lemma skipws_id (s : string) :
  match chars s with [] => True | c :: _ => isspace c = false end → skipws s = s.
Proof.
  destruct s as [|c s]; [done|].
  change (chars (String c s)) with (c :: chars s). cbn [skipws]. by intros ->.
Qed.

Lemma word_app (w s : string) :
  solid w = true →
  match chars s with [] => True | c :: _ => isspace c = true end →
  word (w +:+ s) = (w, s).
Proof.
  unfold solid. intros Hw Hs. induction w as [|c w IH].
  - rewrite string_app_nil_l. destruct s as [|d s]; [done|].
    change (chars (String d s)) with (d :: chars s) in Hs. cbn [word]. by rewrite Hs.
  - change (chars (String c w)) with (c :: chars w) in Hw. cbn [forallb] in Hw.
    apply andb_true_iff in Hw as [Hc Hw]. apply negb_true_iff in Hc.
    change (String c w +:+ s) with (String c (w +:+ s)). cbn [word].
    by rewrite Hc, (IH Hw).
Qed.

Lemma string_rev_app (a b : string) :
  String.rev (a +:+ b) = String.rev b +:+ String.rev a.
Proof. apply chars_inj. by rewrite chars_app, !chars_rev, chars_app, reverse_app. Qed.

Lemma string_rev_involutive (a : string) : String.rev (String.rev a) = a.
Proof. apply chars_inj. by rewrite !chars_rev, reverse_involutive. Qed.

Lemma blank_rev (sp : string) : blank sp = true → blank (String.rev sp) = true.
Proof.
  unfold blank. rewrite chars_rev. rewrite !forallb_forall. intros H c Hc.
  apply H. apply list_elem_of_In. apply list_elem_of_In in Hc.
  by rewrite elem_of_reverse in Hc.
Qed.

(** The regular expression takes the white space off both ends. *)
Lemma trim_app (sp2 v sp3 : string) :
  blank sp2 = true → blank sp3 = true → trimmed v = true →
  trim (sp2 +:+ v +:+ sp3) = v.
Proof.
  intros H2 H3 Hv. unfold trim. rewrite (skipws_blank_app sp2 _ H2).
  unfold trimmed in Hv. apply andb_true_iff in Hv as [Hhead Hlast].
  destruct v as [|c v].
  - rewrite string_app_nil_l, (skipws_blank sp3 H3). done.
  - change (chars (String c v)) with (c :: chars v) in Hhead.
    apply negb_true_iff in Hhead.
    rewrite (skipws_id (String c v +:+ sp3)) by done.
    rewrite string_rev_app, (skipws_blank_app _ _ (blank_rev sp3 H3)).
    rewrite skipws_id; [apply string_rev_involutive|].
    rewrite chars_rev. destruct (reverse (chars (String c v))); [done|].
    by apply negb_true_iff.
Qed.

Lemma solid_app (a b : string) :
  solid a = true → solid b = true → solid (a +:+ b) = true.
Proof. unfold solid. rewrite chars_app, forallb_app. by intros -> ->. Qed.

Lemma solid_head (s : string) :
  solid s = true → match chars s with [] => True | c :: _ => isspace c = false end.
Proof.
  unfold solid. destruct (chars s) as [|c cs]; [done|]. cbn [forallb].
  intros [Hc _]%andb_true_iff. by apply negb_true_iff.
Qed.

Lemma blank_head (s : string) :
  blank s = true → match chars s with [] => True | c :: _ => isspace c = true end.
Proof.
  unfold blank. destruct (chars s) as [|c cs]; [done|]. cbn [forallb].
  by intros [Hc _]%andb_true_iff.
Qed.

Lemma prefix_app (a b : string) : String.prefix a (a +:+ b) = true.
Proof.
  induction a as [|c a IH]; [by destruct b|].
  change (String c a +:+ b) with (String c (a +:+ b)). cbn [String.prefix].
  by destruct (Ascii.ascii_dec c c).
Qed.

Lemma define_parts (junk sp1 name sp2 value sp3 : string) :
  solid junk = true → solid name = true → name ≠ "" →
  blank sp1 = true → sp1 ≠ "" → blank sp2 = true → blank sp3 = true →
  trimmed value = true → sp2 ≠ "" ∨ value = "" →
  Preprocessor.define
    ("#define" +:+ junk +:+ sp1 +:+ name +:+ sp2 +:+ value +:+ sp3)
  = (name, value).
Proof.
  intros Hjunk Hname Hne H1 Hne1 H2 H3 Hv Hsep.
  unfold Preprocessor.define, extract.
  rewrite <- (string_app_assoc "#define" junk).
  rewrite (skipws_id (("#define" +:+ junk) +:+ _)) by done.
  rewrite word_app.
  - rewrite (skipws_blank_app sp1 _ H1).
    rewrite (skipws_id (name +:+ _)).
    + rewrite word_app; [by rewrite trim_app|done|].
      destruct Hsep as [Hsep | ->].
      * rewrite chars_app. pose proof (blank_head sp2 H2) as Hh.
        destruct sp2 as [|c sp2]; [done|]. exact Hh.
      * rewrite string_app_nil_l, chars_app.
        pose proof (blank_head sp2 H2) as Hh2. pose proof (blank_head sp3 H3) as Hh3.
        destruct (chars sp2); [exact Hh3|exact Hh2].
    + rewrite chars_app. pose proof (solid_head name Hname) as Hh.
      destruct name as [|c name]; [done|]. exact Hh.
  - by apply solid_app.
  - rewrite chars_app. pose proof (blank_head sp1 H1) as Hh.
    destruct sp1 as [|c sp1]; [done|]. exact Hh.
Qed.

End Directives.

(** X15. A directive line is read as: the word that starts with
    [#define], whatever follows it in that word; white space; the name, a
    word; and the rest of the line without the white space at its two ends,
    the replacement text.  So [#define NAME text] defines [NAME] as [text],
    and a line like [#defined NAME text] is a directive as well. *)
Theorem directive_parts (junk sp1 name sp2 value sp3 : string) :
  solid junk = true → solid name = true → name ≠ "" →
  blank sp1 = true → sp1 ≠ "" → blank sp2 = true → blank sp3 = true →
  trimmed value = true → sp2 ≠ "" ∨ value = "" →
  Preprocessor.isDefine
    ("#define" +:+ junk +:+ sp1 +:+ name +:+ sp2 +:+ value +:+ sp3) = true ∧
  Preprocessor.define
    ("#define" +:+ junk +:+ sp1 +:+ name +:+ sp2 +:+ value +:+ sp3)
  = (name, value).
Proof.
  intros. split; [apply prefix_app|]. by apply define_parts.
Qed.

Lemma directive_parts_witness :
  Preprocessor.isDefine
    ("#define" +:+ "d" +:+ "  " +:+ "MAX" +:+ " " +:+ "a + b" +:+ " ") = true ∧
  Preprocessor.define
    ("#define" +:+ "d" +:+ "  " +:+ "MAX" +:+ " " +:+ "a + b" +:+ " ")
  = ("MAX", "a + b").
Proof.
  apply (directive_parts "d" "  " "MAX" " " "a + b" " ");
    try reflexivity; try discriminate.
  left. discriminate.
Defined.

Section Expansion.

Variable entries : gmap string string → list (string * string).
Hypothesis entries_order : iteration_order entries.







End Expansion.



Section BeforeDirectives.

Variable entries : gmap string string → list (string * string).
Hypothesis entries_order : iteration_order entries.


Lemma unlines_getlines_last (t : string) (c : ascii) :
  unlines (getlines (t +:+ string1 c))
  = t +:+ string1 c +:+ (if ascii_eqb c newline then "" else endl).
Proof.
  induction t as [|a t IH].
  - rewrite !string_app_nil_l. cbn [string1 getlines].
    destruct (ascii_eqb c newline) eqn:Hc; [|done].
    apply bool_decide_eq_true in Hc as ->. done.
  - change (String a t +:+ string1 c) with (String a (t +:+ string1 c)).
    cbn [getlines]. destruct (ascii_eqb a newline) eqn:Ha.
    + apply bool_decide_eq_true in Ha as ->. cbn [unlines]. by rewrite IH.
    + destruct (getlines (t +:+ string1 c)) as [|l ls].
      * apply (f_equal String.length) in IH.
        rewrite <- !chars_length, !chars_app, !length_app in IH. simpl in IH. lia.
      * cbn [unlines] in *.
        change (String a l +:+ endl +:+ unlines ls)
          with (String a (l +:+ endl +:+ unlines ls)).
        by rewrite IH.
Qed.

End BeforeDirectives.



(** X18. The preprocessed text, and with it the text that the program
    writes, is not fixed by the source text: it depends on the order in
    which the table of definitions is gone through.  With two names
    defined as each other, one order leaves the name [a] and the other
    makes it [b]. *)
Theorem expansion_depends_on_order :
  iteration_order map_to_list ∧ iteration_order backwards ∧
  ∀ fuel, (20 ≤ fuel)%nat →
    main map_to_list fuel swapped_names = Some (unlines ["a ("; ");"]) ∧
    main backwards fuel swapped_names = Some (unlines ["b ("; ");"]).
Proof.
  split_and!.
  - by intros m.
  - intros m. unfold backwards. apply reverse_Permutation.
  - intros fuel Hfuel. split.
    + apply (main_mono map_to_list 20 fuel); [done|]. vm_compute. reflexivity.
    + apply (main_mono backwards 20 fuel); [done|]. vm_compute. reflexivity.
Qed.

(** X19. A text without a [#define] line goes through the preprocessor
    unchanged, but for a newline that is added at its end when it does not
    end with one; no definition is made and no fuel is needed. *)
Theorem plain_text_unchanged
    (entries : gmap string string → list (string * string))
    (t : string) (c : ascii) (fuel : nat) :
  iteration_order entries →
  plain (t +:+ string1 c) = true →
  Preprocessor.process entries fuel (t +:+ string1 c) ∅
  = Some (t +:+ string1 c +:+ (if ascii_eqb c newline then "" else endl), ∅).
Proof.
  intros Horder Hplain.
  rewrite (process_plain entries Horder fuel _ Hplain).
  by rewrite unlines_getlines_last.
Qed.

Lemma plain_text_unchanged_witness :
  Preprocessor.process map_to_list 0 ("select 1" +:+ string1 ";") ∅
  = Some ("select 1" +:+ string1 ";" +:+
          (if ascii_eqb ";" newline then "" else endl), ∅).
Proof.
  apply (plain_text_unchanged map_to_list "select 1" ";" 0).
  - intros m. reflexivity.
  - reflexivity.
Defined.

Section Redefinition.

Variable entries : gmap string string → list (string * string).
Hypothesis entries_order : iteration_order entries.



End Redefinition.


